(** * A shallow embedding of the C++ code similarity checker (app.py)

    The development follows the class [CPPSimilarityChecker]: the text
    normaliser [preprocess_cpp], the MOSS-style fingerprint measure
    [calculate_moss_similarity], the structure measure
    [calculate_structure_similarity], the line measure
    [calculate_line_similarity] built on difflib's [SequenceMatcher], the
    segment extractor [identify_similar_segments] and the aggregating entry
    point [check_similarity].

    Modelling conventions.
    - A Python [str] is a [list ascii]; a character is a code point in
      U+0000..U+00FF and the character classes are Python's on that range.
    - A Python float is an exact rational ([Qc], with Leibniz equality)
      in the properties that rounding cannot change: a score is 0 or 1,
      lies between 0 and 1, is the same both ways round; the sums these
      results rest on are checked in binary64 too
      ([binary64_weighted_sums]).  The aggregate and its level do depend
      on rounding and are stated over module [Binary64], the same
      computation in binary64 arithmetic on primitive floats.
    - A raised exception is the left injection of the error monad [M];
      module [Raising] has the entry point over an MD5 step that can
      raise. *)

From Corelib Require Import PrimFloat SpecFloat FloatOps FloatAxioms.
From Stdlib Require Import Ascii String ZArith QArith Qcanon Lia Lqa.
From Stdlib Require Uint63.
From stdpp Require Import base tactics option list numbers strings pretty.
From stdpp Require Import gmap gmultiset sets sorting.

Local Open Scope char_scope.
Local Open Scope list_scope.

(** ** Characters and strings *)

Definition ord (c : ascii) : N := N_of_ascii c.

Definition in_range (lo hi : N) (c : ascii) : bool :=
  ((lo <=? ord c) && (ord c <=? hi))%N.

(** [str.isalpha], [str.isdigit], [str.isalnum] and [str.isspace] on one
    character. *)
Definition isalpha (c : ascii) : bool :=
  in_range 65 90 c || in_range 97 122 c
  || (ord c =? 170)%N || (ord c =? 181)%N || (ord c =? 186)%N
  || in_range 192 214 c || in_range 216 246 c || in_range 248 255 c.

Definition isdigit (c : ascii) : bool :=
  in_range 48 57 c || in_range 178 179 c || (ord c =? 185)%N.

Definition isalnum (c : ascii) : bool :=
  isalpha c || isdigit c || in_range 188 190 c.

Definition isspace (c : ascii) : bool :=
  in_range 9 13 c || in_range 28 32 c || (ord c =? 133)%N || (ord c =? 160)%N.

(** A string literal of the source. *)
Definition py (s : string) : list ascii := list_ascii_of_string s.

Definition newline : ascii := "010".

Fixpoint take_while {A} (p : A → bool) (l : list A) : list A :=
  match l with
  | [] => []
  | x :: r => if p x then x :: take_while p r else []
  end.

(** [sep.join(parts)] *)
Fixpoint join (sep : list ascii) (parts : list (list ascii)) : list ascii :=
  match parts with
  | [] => []
  | x :: r => match r with [] => x | _ :: _ => x ++ sep ++ join sep r end
  end.

(** [s.split()] with no argument: the maximal runs of non-whitespace. *)
Fixpoint split_ws (cur : list ascii) (s : list ascii) : list (list ascii) :=
  match s with
  | [] => match cur with [] => [] | _ :: _ => [cur] end
  | c :: r =>
      if isspace c
      then match cur with [] => split_ws [] r | _ :: _ => cur :: split_ws [] r end
      else split_ws (cur ++ [c]) r
  end.

Definition split (s : list ascii) : list (list ascii) := split_ws [] s.

(** [s.split(sep)] for a one-character separator: empty fields are kept. *)
Fixpoint split_on_go (sep : ascii) (cur : list ascii) (s : list ascii)
  : list (list ascii) :=
  match s with
  | [] => [cur]
  | c :: r =>
      if Ascii.eqb c sep then cur :: split_on_go sep [] r
      else split_on_go sep (cur ++ [c]) r
  end.

Definition split_on (sep : ascii) (s : list ascii) : list (list ascii) :=
  split_on_go sep [] s.

(** ** [re.sub] for patterns that never match the empty string

    A pattern is given by its matcher at the head of the remaining text: the
    replacement text and the number of characters the match consumes.  The
    scan is the one of [re.sub]: leftmost match, then resume after it; a
    character at which the pattern does not match is copied.  [skip] counts
    the characters of the current match still to be passed over. *)

Definition re_match : Type := list ascii → option (list ascii * nat).

Fixpoint re_sub (m : re_match) (skip : nat) (code : list ascii) : list ascii :=
  match code with
  | [] => []
  | c :: rest =>
      match skip with
      | S k => re_sub m k rest
      | O => match m code with
             | Some (repl, n) => repl ++ re_sub m (pred n) rest
             | None => c :: re_sub m 0 rest
             end
      end
  end.

(** Offset of the first ["*/"] in [s]. *)
Fixpoint find_close (s : list ascii) : option nat :=
  match s with
  | [] => None
  | c :: r =>
      match r with
      | d :: _ => if Ascii.eqb c "*" && Ascii.eqb d "/" then Some 0%nat
                  else S <$> find_close r
      | [] => None
      end
  end.

(** [/\*.*?\*/] with DOTALL, replaced by the empty string. *)
Definition block_comment : re_match := λ code,
  match code with
  | c :: d :: r =>
      if Ascii.eqb c "/" && Ascii.eqb d "*"
      then (λ n, ([], 2 + n + 2)%nat) <$> find_close r
      else None
  | _ => None
  end.

(** [//.*?$] with MULTILINE, replaced by the empty string: the lazy [.*?]
    stops at the first position where [$] holds, the next newline or the end
    of the text. *)
Definition line_comment : re_match := λ code,
  match code with
  | c :: d :: r =>
      if Ascii.eqb c "/" && Ascii.eqb d "/"
      then Some ([], 2 + length (take_while (λ x, negb (Ascii.eqb x newline)) r))%nat
      else None
  | _ => None
  end.

(** [\s+], replaced by one space. *)
Definition whitespace_run : re_match := λ code,
  match take_while isspace code with
  | [] => None
  | (_ :: _) as run => Some ([" "], length run)
  end.

Definition operators : list ascii := py "=+-*/(){}[];<>!&|,.".

Definition isoperator (c : ascii) : bool := bool_decide (c ∈ operators).

(** [\s*([=+\-*/(){}[\];<>!&|,.])\s*], replaced by group 1. *)
Definition spaced_operator : re_match := λ code,
  let before := take_while isspace code in
  match drop (length before) code with
  | c :: r =>
      if isoperator c
      then Some ([c], length before + 1 + length (take_while isspace r))%nat
      else None
  | [] => None
  end.

(** ** The checker object and [preprocess_cpp] *)

Record CPPSimilarityChecker : Type := {
  ignore_comments : bool;
  ignore_whitespace : bool;
  normalize_identifiers : bool
}.

(** [__init__] *)
Definition init : CPPSimilarityChecker :=
  {| ignore_comments := true; ignore_whitespace := true;
     normalize_identifiers := true |}.

Definition cpp_keywords : list (list ascii) :=
  map py
    ["auto"; "break"; "case"; "char"; "const"; "continue";
     "default"; "do"; "double"; "else"; "enum"; "extern";
     "float"; "for"; "goto"; "if"; "int"; "long"; "register";
     "return"; "short"; "signed"; "sizeof"; "static"; "struct";
     "switch"; "typedef"; "union"; "unsigned"; "void"; "volatile";
     "while"; "class"; "namespace"; "try"; "catch"; "new";
     "delete"; "public"; "private"; "protected"; "template";
     "virtual"; "friend"; "inline"; "operator"; "using"; "throw"]%string.

Definition is_keyword (word : list ascii) : bool :=
  bool_decide (word ∈ cpp_keywords).

Definition isword (c : ascii) : bool := isalnum c || Ascii.eqb c "_".

(** The two quote characters, ["034"] being the double quote. *)
Definition isquote (c : ascii) : bool := Ascii.eqb c "034" || Ascii.eqb c "'".

(** The inner loop of the string-literal branch, started after the opening
    quote: the number of characters passed over, the closing quote
    included when there is one. *)
Fixpoint scan_string (quote : ascii) (s : list ascii) : nat :=
  match s with
  | [] => 0
  | c :: r =>
      if Ascii.eqb c quote then 1
      else if Ascii.eqb c "\" then
        match r with
        | _ :: r' => 2 + scan_string quote r'
        | [] => 1
        end
      else 1 + scan_string quote r
  end.

(** [f"VAR_{identifier_counter}"] *)
Definition var_name (identifier_counter : nat) : list ascii :=
  py "VAR_" ++ py (pretty identifier_counter).

(** The tokenising loop [while i < len(code)].  [code] is the text from
    index [i] on; [skip] is how far the inner loops have already advanced
    [i] past the current character.  [tokens.append] is the cons onto the
    tokens of the remaining iterations. *)
Fixpoint tokenize (skip : nat) (code : list ascii)
    (identifier_counter : nat) (identifier_map : gmap (list ascii) (list ascii))
  : list (list ascii) :=
  match code with
  | [] => []
  | char :: rest =>
      match skip with
      | S k => tokenize k rest identifier_counter identifier_map
      | O =>
          if isalpha char || Ascii.eqb char "_" then
            let word := take_while isword code in
            if is_keyword word then
              word :: tokenize (pred (length word)) rest
                        identifier_counter identifier_map
            else
              match identifier_map !! word with
              | None =>
                  var_name identifier_counter ::
                  tokenize (pred (length word)) rest (S identifier_counter)
                    (<[word := var_name identifier_counter]> identifier_map)
              | Some name =>
                  name :: tokenize (pred (length word)) rest
                            identifier_counter identifier_map
              end
          else if isdigit char then
            let run := take_while (λ c, isdigit c || Ascii.eqb c ".") code in
            py "NUM" :: tokenize (pred (length run)) rest
                          identifier_counter identifier_map
          else if isquote char then
            py "STR" :: tokenize (scan_string char rest) rest
                          identifier_counter identifier_map
          else
            [char] :: tokenize 0 rest identifier_counter identifier_map
      end
  end.

Definition remove_comments (code : list ascii) : list ascii :=
  re_sub line_comment 0 (re_sub block_comment 0 code).

Definition remove_whitespace (code : list ascii) : list ascii :=
  re_sub spaced_operator 0 (re_sub whitespace_run 0 code).

(** The text after the comment and whitespace stages. *)
Definition cleaned (self : CPPSimilarityChecker) (code : list ascii) : list ascii :=
  let code := if ignore_comments self then remove_comments code else code in
  if ignore_whitespace self then remove_whitespace code else code.

Definition preprocess_cpp (self : CPPSimilarityChecker) (code : list ascii)
  : list ascii :=
  let code := cleaned self code in
  if normalize_identifiers self
  then join [" "] (tokenize 0 code 0 ∅)
  else code.

(** ** difflib's [SequenceMatcher(None, a, b)]

    The matcher of the Python standard library, with [isjunk = None] and
    [autojunk = True] as the checker constructs it.  Lists are indexed from
    0; a dict keyed by sequence elements is an association list, [j2len] is
    a finite map. *)

Section SequenceMatcher.
Context {A : Type} `{EqDecision A}.

(** [b2j.get(x, [])] *)
Fixpoint b2j_get (b2j : list (A * list nat)) (x : A) : list nat :=
  match b2j with
  | [] => []
  | (y, indices) :: r => if decide (y = x) then indices else b2j_get r x
  end.

(** [b2j.setdefault(elt, []).append(i)] *)
Fixpoint b2j_append (b2j : list (A * list nat)) (elt : A) (i : nat)
  : list (A * list nat) :=
  match b2j with
  | [] => [(elt, [i])]
  | (y, indices) :: r =>
      if decide (y = elt) then (y, indices ++ [i]) :: r
      else (y, indices) :: b2j_append r elt i
  end.

Fixpoint chain_b_go (i : nat) (b : list A) (b2j : list (A * list nat))
  : list (A * list nat) :=
  match b with
  | [] => b2j
  | elt :: r => chain_b_go (S i) r (b2j_append b2j elt i)
  end.

(** [__chain_b]: no element is junk; an element of a [b] of 200 or more
    elements that occurs more than [n // 100 + 1] times is popular and
    loses its entry. *)
Definition chain_b (b : list A) : list (A * list nat) :=
  let b2j := chain_b_go 0 b [] in
  let n := length b in
  if (200 <=? n)%nat then
    let ntest := (n / 100 + 1)%nat in
    filter (λ p, ¬ (ntest < length p.2)%nat) b2j
  else b2j.

Variables a b : list A.

Definition isbjunk (x : A) : bool := false.

(** The loop [for j in b2j.get(a[i], nothing)] of [find_longest_match];
    [best] is [(besti, bestj, bestsize)]. *)
Fixpoint scan_indices (i blo bhi : nat) (j2len : gmap nat nat)
    (js : list nat) (newj2len : gmap nat nat) (best : nat * nat * nat)
  : gmap nat nat * (nat * nat * nat) :=
  match js with
  | [] => (newj2len, best)
  | j :: r =>
      if (j <? blo)%nat then scan_indices i blo bhi j2len r newj2len best
      else if (bhi <=? j)%nat then (newj2len, best)
      else
        let k := (match j with
                  | O => 0
                  | S j' => default 0 (j2len !! j')
                  end + 1)%nat in
        scan_indices i blo bhi j2len r (<[j := k]> newj2len)
          (if (best.2 <? k)%nat then ((S i - k)%nat, (S j - k)%nat, k) else best)
  end.

(** The loop [for i in range(alo, ahi)]. *)
Fixpoint scan_rows (b2j : list (A * list nat)) (blo bhi : nat)
    (rows : list nat) (j2len : gmap nat nat) (best : nat * nat * nat)
  : nat * nat * nat :=
  match rows with
  | [] => best
  | i :: r =>
      let js := match a !! i with Some x => b2j_get b2j x | None => [] end in
      let '(newj2len, best) := scan_indices i blo bhi j2len js ∅ best in
      scan_rows b2j blo bhi r newj2len best
  end.

Definition same_at (i j : nat) : bool :=
  match a !! i, b !! j with
  | Some x, Some y => bool_decide (x = y)
  | _, _ => false
  end.

(** [while besti > alo and bestj > blo and not isbjunk(b[bestj-1]) and
    a[besti-1] == b[bestj-1]] *)
Fixpoint extend_left (alo blo besti bestj bestsize : nat) : nat * nat * nat :=
  match besti, bestj with
  | S i', S j' =>
      if (alo <? besti)%nat && (blo <? bestj)%nat
         && negb (from_option isbjunk false (b !! j')) && same_at i' j'
      then extend_left alo blo i' j' (S bestsize)
      else (besti, bestj, bestsize)
  | _, _ => (besti, bestj, bestsize)
  end.

(** [while besti+bestsize < ahi and bestj+bestsize < bhi and not
    isbjunk(b[bestj+bestsize]) and a[besti+bestsize] == b[bestj+bestsize]];
    the loop runs at most [ahi - (besti+bestsize)] times. *)
Fixpoint extend_right (steps ahi bhi besti bestj bestsize : nat) : nat :=
  match steps with
  | O => bestsize
  | S n =>
      if (besti + bestsize <? ahi)%nat && (bestj + bestsize <? bhi)%nat
         && negb (from_option isbjunk false (b !! (bestj + bestsize)%nat))
         && same_at (besti + bestsize) (bestj + bestsize)
      then extend_right n ahi bhi besti bestj (S bestsize)
      else bestsize
  end.

(** [find_longest_match(alo, ahi, blo, bhi)].  The two closing loops of
    the library, which extend the match over junk elements, never run:
    [bjunk] is empty. *)
Definition find_longest_match (b2j : list (A * list nat))
    (alo ahi blo bhi : nat) : nat * nat * nat :=
  let '(besti, bestj, bestsize) :=
    scan_rows b2j blo bhi (seq alo (ahi - alo)) ∅ (alo, blo, 0%nat) in
  let '(besti, bestj, bestsize) := extend_left alo blo besti bestj bestsize in
  let bestsize :=
    extend_right (ahi - (besti + bestsize)) ahi bhi besti bestj bestsize in
  (besti, bestj, bestsize).

(** The loop [while queue] of [get_matching_blocks]; the queue is used as
    a stack ([pop] takes the last element, the head here).  [None] when the
    iteration budget is used up. *)
Fixpoint matching_loop (fuel : nat) (b2j : list (A * list nat))
    (queue : list (nat * nat * nat * nat))
    (matching_blocks : list (nat * nat * nat))
  : option (list (nat * nat * nat)) :=
  match queue with
  | [] => Some matching_blocks
  | (alo, ahi, blo, bhi) :: queue =>
      match fuel with
      | O => None
      | S fuel =>
          let '(i, j, k) := find_longest_match b2j alo ahi blo bhi in
          if (0 <? k)%nat then
            let queue :=
              if (alo <? i)%nat && (blo <? j)%nat
              then (alo, i, blo, j) :: queue else queue in
            let queue :=
              if (i + k <? ahi)%nat && (j + k <? bhi)%nat
              then ((i + k)%nat, ahi, (j + k)%nat, bhi) :: queue else queue in
            matching_loop fuel b2j queue (matching_blocks ++ [(i, j, k)])
          else matching_loop fuel b2j queue matching_blocks
      end
  end.

(** Tuple order of [matching_blocks.sort()]. *)
Definition block_leb (x y : nat * nat * nat) : bool :=
  let '(i1, j1, k1) := x in
  let '(i2, j2, k2) := y in
  (i1 <? i2)%nat
  || ((i1 =? i2)%nat && ((j1 <? j2)%nat || ((j1 =? j2)%nat && (k1 <=? k2)%nat))).

Fixpoint insert_block (x : nat * nat * nat) (l : list (nat * nat * nat))
  : list (nat * nat * nat) :=
  match l with
  | [] => [x]
  | y :: r => if block_leb x y then x :: l else y :: insert_block x r
  end.

Definition sort_blocks (l : list (nat * nat * nat)) : list (nat * nat * nat) :=
  foldr insert_block [] l.

(** The loop that merges adjacent equal blocks; [cur] is [(i1, j1, k1)]. *)
Fixpoint collapse (cur : nat * nat * nat) (blocks : list (nat * nat * nat))
    (non_adjacent : list (nat * nat * nat)) : list (nat * nat * nat) :=
  let '(i1, j1, k1) := cur in
  match blocks with
  | [] => if (0 <? k1)%nat then non_adjacent ++ [cur] else non_adjacent
  | (i2, j2, k2) :: r =>
      if (i1 + k1 =? i2)%nat && (j1 + k1 =? j2)%nat
      then collapse (i1, j1, (k1 + k2)%nat) r non_adjacent
      else collapse (i2, j2, k2) r
             (if (0 <? k1)%nat then non_adjacent ++ [cur] else non_adjacent)
  end.

Definition matching_fuel : nat := S (2 * length a).

Definition get_matching_blocks : option (list (nat * nat * nat)) :=
  let la := length a in
  let lb := length b in
  matching_blocks ← matching_loop matching_fuel (chain_b b) [(0, la, 0, lb)%nat] [];
  let non_adjacent := collapse (0, 0, 0)%nat (sort_blocks matching_blocks) [] in
  Some (non_adjacent ++ [(la, lb, 0%nat)]).

(** [_calculate_ratio(matches, length)] *)
Definition calculate_ratio (matches length : nat) : Qc :=
  if (0 <? length)%nat
  then (Qc_of_Z 2 * Qc_of_Z (Z.of_nat matches) / Qc_of_Z (Z.of_nat length))%Qc
  else 1%Qc.

Definition ratio : option Qc :=
  blocks ← get_matching_blocks;
  Some (calculate_ratio (sum_list (map (λ t, t.2) blocks)) (length a + length b)).
End SequenceMatcher.

(** ** Exceptions *)

Inductive exn : Type :=
  | ValueError (msg : string)
  | ZeroDivisionError (msg : string)
  | UnicodeEncodeError (msg : string).

(** [str(e)] *)
Definition str_exn (e : exn) : string :=
  match e with
  | ValueError msg | ZeroDivisionError msg | UnicodeEncodeError msg => msg
  end.

(** A computation that returns a value or raises. *)
Definition M (A : Type) : Type := (exn + A)%type.

Definition raise {A} (e : exn) : M A := inl e.

Global Instance M_ret : MRet M := λ A x, inr x.
Global Instance M_bind : MBind M := λ A B k m,
  match m with inl e => inl e | inr x => k x end.
Global Instance M_fmap : FMap M := λ A B f m,
  match m with inl e => inl e | inr x => inr (f x) end.

(** Python's true division [x / y] of two integers. *)
Definition py_div (x y : Z) : M Qc :=
  if decide (y = 0%Z) then raise (ZeroDivisionError "division by zero")
  else mret (Qc_of_Z x / Qc_of_Z y)%Qc.

(** [min(l)] *)
Definition py_min (l : list Z) : M Z :=
  match l with
  | [] => raise (ValueError "min() arg is an empty sequence")
  | x :: r => mret (foldl Z.min x r)
  end.

(** [l.index(x)] *)
Fixpoint py_index (x : Z) (l : list Z) : M nat :=
  match l with
  | [] => raise (ValueError "x is not in list")
  | y :: r => if decide (y = x) then mret 0%nat else S <$> py_index x r
  end.

(** [l[i:i+n]] *)
Definition slice {A} (l : list A) (i n : nat) : list A := take n (drop i l).

(** ** [re.findall] for a pattern with one group that never matches the
    empty string: the matcher gives group 1 and the length of the match. *)

Definition re_group_match : Type := list ascii → option (list ascii * nat).

Fixpoint re_findall (m : re_group_match) (skip : nat) (code : list ascii)
  : list (list ascii) :=
  match code with
  | [] => []
  | c :: rest =>
      match skip with
      | S k => re_findall m k rest
      | O => match m code with
             | Some (group, n) => group :: re_findall m (pred n) rest
             | None => re_findall m 0 rest
             end
      end
  end.

Definition starts_with (p s : list ascii) : bool := bool_decide (take (length p) s = p).

(** [\w+\s+(\w+)\s*\([^)]*\)\s*{[^}]*}].  Each repetition is followed by a
    character outside its class, so the greedy match is the only one. *)
Definition function_pattern : re_group_match := λ code,
  let w1 := take_while isword code in
  let s1 := drop (length w1) code in
  let sp1 := take_while isspace s1 in
  let s2 := drop (length sp1) s1 in
  let name := take_while isword s2 in
  let s3 := drop (length name) s2 in
  let sp2 := take_while isspace s3 in
  match w1, sp1, name, drop (length sp2) s3 with
  | _ :: _, _ :: _, _ :: _, open :: s4 =>
      let args := take_while (λ c, negb (Ascii.eqb c ")")) s4 in
      match drop (length args) s4 with
      | _ :: s5 =>
          let sp3 := take_while isspace s5 in
          match drop (length sp3) s5 with
          | brace :: s6 =>
              let body := take_while (λ c, negb (Ascii.eqb c "}")) s6 in
              match drop (length body) s6 with
              | _ :: _ =>
                  if Ascii.eqb open "(" && Ascii.eqb brace "{" then
                    Some (name,
                          length w1 + length sp1 + length name + length sp2 + 1
                          + length args + 1 + length sp3 + 1 + length body + 1)%nat
                  else None
              | [] => None
              end
          | [] => None
          end
      | [] => None
      end
  | _, _, _, _ => None
  end.

(** [class\s+(\w+)[^{]*{[^}]*}] *)
Definition class_pattern : re_group_match := λ code,
  if starts_with (py "class") code then
    let s1 := drop 5 code in
    let sp := take_while isspace s1 in
    let s2 := drop (length sp) s1 in
    let name := take_while isword s2 in
    let s3 := drop (length name) s2 in
    let head := take_while (λ c, negb (Ascii.eqb c "{")) s3 in
    match sp, name, drop (length head) s3 with
    | _ :: _, _ :: _, _ :: s4 =>
        let body := take_while (λ c, negb (Ascii.eqb c "}")) s4 in
        match drop (length body) s4 with
        | _ :: _ =>
            Some (name, 5 + length sp + length name + length head + 1
                        + length body + 1)%nat
        | [] => None
        end
    | _, _, _ => None
    end
  else None.

(** [len(re.findall(rf'\b{ctrl}\b', code))] for a word [ctrl]: the places
    where [ctrl] stands with no word character directly before or after it.
    [prev] tells whether the character before [code] is a word character. *)
Fixpoint count_word (ctrl : list ascii) (prev : bool) (code : list ascii) : nat :=
  match code with
  | [] => 0
  | c :: rest =>
      (if negb prev && starts_with ctrl code
          && negb (from_option isword false (code !! length ctrl))
       then 1 else 0)
      + count_word ctrl (isword c) rest
  end.

(** ** The three similarity measures *)

Record structure : Type := {
  functions : gmultiset (list ascii);
  classes : gmultiset (list ascii);
  control_structures : gmap (list ascii) Z
}.

Record segment : Type := {
  file1_start_line : nat;
  file2_start_line : nat;
  length_ : nat;
  file1_segment : list ascii;
  file2_segment : list ascii;
  similarity : Qc
}.

Record summary : Type := {
  similarity_level : string;
  overall_similarity : Qc
}.

Record details : Type := {
  moss_similarity : Qc;
  structure_similarity : Qc;
  line_similarity : Qc
}.

Record report : Type := {
  report_summary : summary;
  report_details : details;
  suspicious_segments : list segment
}.

(** What [check_similarity] returns: the report, or [{'error': str(e)}]. *)
Inductive result : Type :=
  | Report (r : report)
  | Error (error : string).

(** [dict(pairs)]: a later pair overrides an earlier one. *)
Definition dict (pairs : list (list ascii * Z)) : gmap (list ascii) Z :=
  foldl (λ m p, <[p.1 := p.2]> m) ∅ pairs.

Definition control_keywords : list (list ascii) :=
  map py ["if"; "else"; "for"; "while"; "switch"; "case"]%string.

Definition extract_structure (code : list ascii) : structure :=
  let functions := re_findall function_pattern 0 code in
  let classes := re_findall class_pattern 0 code in
  let control_structures :=
    map (λ ctrl, (ctrl, Z.of_nat (count_word ctrl false code))) control_keywords in
  {| functions := list_to_set_disj functions;
     classes := list_to_set_disj classes;
     control_structures := dict control_structures |}.

(** [Counter & Counter] is the minimum and [Counter | Counter] the maximum
    of the counts, the intersection and union of [gmultiset]. *)
Definition count_similarity (counter1 counter2 : gmultiset (list ascii)) : M Qc :=
  if decide (counter1 = ∅ ∧ counter2 = ∅) then mret 1%Qc
  else if decide (counter1 = ∅ ∨ counter2 = ∅) then mret 0%Qc
  else
    let common := Z.of_nat (size (counter1 ∩ counter2)) in
    let total := Z.of_nat (size (counter1 ∪ counter2)) in
    if decide (0 < total)%Z then py_div common total else mret 0%Qc.

(** The loop [for key in all_keys]; [acc] is
    [(differences, max_possible_diff)]. *)
Definition control_loop (ctrl1 ctrl2 : gmap (list ascii) Z)
    (keys : list (list ascii)) : Z * Z :=
  foldl (λ acc key,
           let val1 := default 0%Z (ctrl1 !! key) in
           let val2 := default 0%Z (ctrl2 !! key) in
           let max_val := Z.max val1 val2 in
           ((acc.1 + Z.abs (val1 - val2))%Z, (acc.2 + max_val)%Z))
        (0%Z, 0%Z) keys.

Definition control_similarity (ctrl1 ctrl2 : gmap (list ascii) Z) : M Qc :=
  let all_keys : gset (list ascii) := dom ctrl1 ∪ dom ctrl2 in
  if decide (all_keys = ∅) then mret 1%Qc
  else
    let '(differences, max_possible_diff) :=
      control_loop ctrl1 ctrl2 (elements all_keys) in
    q ← (if decide (0 < max_possible_diff)%Z
         then py_div differences max_possible_diff else mret 0%Qc);
    mret (1 - q)%Qc.

Definition tenths (n : Z) : Qc := (Qc_of_Z n / Qc_of_Z 10)%Qc.

Definition calculate_structure_similarity (code1 code2 : list ascii) : M Qc :=
  let structure1 := extract_structure code1 in
  let structure2 := extract_structure code2 in
  func_sim ← count_similarity (functions structure1) (functions structure2);
  class_sim ← count_similarity (classes structure1) (classes structure2);
  ctrl_sim ← control_similarity (control_structures structure1)
                                (control_structures structure2);
  mret (tenths 4 * func_sim + tenths 3 * class_sim + tenths 3 * ctrl_sim)%Qc.

(** [matcher.get_matching_blocks()] and [matcher.ratio()] taken out of the
    option: the iteration budget of [matching_loop] always suffices (lemma
    [get_matching_blocks_total] below). *)
Definition matching_blocks {A} `{EqDecision A} (a b : list A)
  : list (nat * nat * nat) :=
  default [] (get_matching_blocks a b).

Definition sequence_ratio {A} `{EqDecision A} (a b : list A) : Qc :=
  calculate_ratio (sum_list (map (λ t, t.2) (matching_blocks a b)))
    (length a + length b).

Definition calculate_line_similarity (self : CPPSimilarityChecker)
    (code1 code2 : list ascii) : Qc :=
  let lines1 := split_on newline (preprocess_cpp self code1) in
  let lines2 := split_on newline (preprocess_cpp self code2) in
  sequence_ratio lines1 lines2.

(** [suspicious_segments.sort(key=lambda x: x['similarity'], reverse=True)]:
    the sort is stable, segments of equal similarity keep their order. *)
Fixpoint insert_segment (x : segment) (l : list segment) : list segment :=
  match l with
  | [] => [x]
  | y :: r =>
      if decide (similarity y ≤ similarity x)%Qc then x :: l
      else y :: insert_segment x r
  end.

Definition sort_segments (l : list segment) : list segment :=
  foldr insert_segment [] l.

(** The body of the loop [for block in matching_blocks]. *)
Definition segment_of_block (code1 code2 : list ascii) (block : nat * nat * nat)
  : segment :=
  let '(i, j, size) := block in
  let original_lines1 := split_on newline code1 in
  let original_lines2 := split_on newline code2 in
  let i_end := (i + size) `min` length original_lines1 in
  let j_end := (j + size) `min` length original_lines2 in
  let segment1 := join [newline] (slice original_lines1 i (i_end - i)) in
  let segment2 := join [newline] (slice original_lines2 j (j_end - j)) in
  {| file1_start_line := i + 1;
     file2_start_line := j + 1;
     length_ := size;
     file1_segment := segment1;
     file2_segment := segment2;
     similarity := sequence_ratio segment1 segment2 |}.

Definition identify_similar_segments (self : CPPSimilarityChecker)
    (code1 code2 : list ascii) (min_length : nat) : list segment :=
  let processed1 := preprocess_cpp self code1 in
  let processed2 := preprocess_cpp self code2 in
  let lines1 := split_on newline processed1 in
  let lines2 := split_on newline processed2 in
  let blocks := matching_blocks lines1 lines2 in
  sort_segments
    (map (segment_of_block code1 code2)
       (filter (λ block, min_length ≤ block.2) blocks)).

(** [similarity_level] of [check_similarity]. *)
Definition level_of (overall_sim : Qc) : string :=
  if decide (tenths 8 ≤ overall_sim)%Qc then "Very High"
  else if decide (tenths 6 ≤ overall_sim)%Qc then "High"
  else if decide (tenths 4 ≤ overall_sim)%Qc then "Moderate"
  else if decide (tenths 2 ≤ overall_sim)%Qc then "Low"
  else "Very Low".

Section Checker.
(** [int(hashlib.md5(kgram.encode()).hexdigest(), 16)], the integer value
    of the MD5 digest of a k-gram. *)
Variable md5 : list ascii → Z.

Definition get_kgram_hashes (code : list ascii) (k : nat) : list Z :=
  let tokens := split code in
  if (length tokens <? k)%nat then []
  else
    let kgrams :=
      map (λ i, join [" "] (slice tokens i k)) (seq 0 (length tokens - k + 1)) in
    map md5 kgrams.

(** The loop [for i, window in enumerate(windows)] of [winnow]. *)
Fixpoint winnow_loop (i : nat) (windows : list (list Z))
    (fingerprints : list (Z * nat)) : M (list (Z * nat)) :=
  match windows with
  | [] => mret fingerprints
  | window :: rest =>
      min_hash ← py_min window;
      pos ← py_index min_hash window;
      let min_pos := (pos + i)%nat in
      if decide (fingerprints = [] ∨ fst <$> last fingerprints ≠ Some min_hash)
      then winnow_loop (S i) rest (fingerprints ++ [(min_hash, min_pos)])
      else winnow_loop (S i) rest fingerprints
  end.

Definition winnow (hashes : list Z) (w : nat) : M (list Z) :=
  if (length hashes <? w)%nat then mret hashes
  else
    let windows := map (λ i, slice hashes i w) (seq 0 (length hashes - w + 1)) in
    fingerprints ← winnow_loop 0 windows [];
    mret (map fst fingerprints).

Definition calculate_moss_similarity (self : CPPSimilarityChecker)
    (code1 code2 : list ascii) (k w : nat) : M Qc :=
  let processed_code1 := preprocess_cpp self code1 in
  let processed_code2 := preprocess_cpp self code2 in
  let hashes1 := get_kgram_hashes processed_code1 k in
  let hashes2 := get_kgram_hashes processed_code2 k in
  l1 ← winnow hashes1 w;
  l2 ← winnow hashes2 w;
  let fingerprints1 : gset Z := list_to_set l1 in
  let fingerprints2 : gset Z := list_to_set l2 in
  if decide (fingerprints1 = ∅ ∨ fingerprints2 = ∅) then mret 0%Qc
  else
    let intersection := fingerprints1 ∩ fingerprints2 in
    let union := fingerprints1 ∪ fingerprints2 in
    py_div (Z.of_nat (size intersection)) (Z.of_nat (size union)).

(** The [try] block of [check_similarity]; the measure is called with its
    defaults [k=5, w=10] and the extractor with [min_length=3]. *)
Definition check_similarity_body (self : CPPSimilarityChecker)
    (code1 code2 : list ascii) : M report :=
  moss_sim ← calculate_moss_similarity self code1 code2 5 10;
  structure_sim ← calculate_structure_similarity code1 code2;
  let line_sim := calculate_line_similarity self code1 code2 in
  let overall_sim :=
    (tenths 5 * moss_sim + tenths 3 * structure_sim + tenths 2 * line_sim)%Qc in
  let similarity_level := level_of overall_sim in
  let suspicious_segments := identify_similar_segments self code1 code2 3 in
  mret {| report_summary :=
            {| similarity_level := similarity_level;
               overall_similarity := overall_sim |};
          report_details :=
            {| moss_similarity := moss_sim;
               structure_similarity := structure_sim;
               line_similarity := line_sim |};
          suspicious_segments := take 5 suspicious_segments |}.

(** [try: ... except Exception as e: return {'error': str(e)}] *)
Definition check_similarity (self : CPPSimilarityChecker)
    (code1 code2 : list ascii) : result :=
  match check_similarity_body self code1 code2 with
  | inr report => Report report
  | inl e => Error (str_exn e)
  end.
End Checker.

(** ** The scores in binary64

    The measures and the aggregate as Python computes them, in binary64
    floating-point arithmetic.  The texts, the token streams, the
    fingerprint sets, the structure profiles and the matching blocks are
    those of the definitions above; only the arithmetic on the counts is
    different.  A count converts to binary64 exactly (counts are far below
    2^53). *)

Module Binary64.
#[local] Set Warnings "-inexact-float".
Local Open Scope float_scope.

(** [float(n)] for a count [n]. *)
Definition of_count (n : Z) : float := PrimFloat.of_uint63 (Uint63.of_Z n).

(** Python's true division [x / y] of two counts. *)
Definition py_div (x y : Z) : M float :=
  if decide (y = 0%Z) then raise (ZeroDivisionError "division by zero")
  else mret (of_count x / of_count y).

Record segment : Type := {
  file1_start_line : nat;
  file2_start_line : nat;
  length_ : nat;
  file1_segment : list ascii;
  file2_segment : list ascii;
  similarity : float
}.

Record summary : Type := {
  similarity_level : string;
  overall_similarity : float
}.

Record details : Type := {
  moss_similarity : float;
  structure_similarity : float;
  line_similarity : float
}.

Record report : Type := {
  report_summary : summary;
  report_details : details;
  suspicious_segments : list segment
}.

Inductive result : Type :=
  | Report (r : report)
  | Error (error : string).

Definition count_similarity (counter1 counter2 : gmultiset (list ascii)) : M float :=
  if decide (counter1 = ∅ ∧ counter2 = ∅) then mret 1
  else if decide (counter1 = ∅ ∨ counter2 = ∅) then mret 0
  else
    let common := Z.of_nat (size (counter1 ∩ counter2)) in
    let total := Z.of_nat (size (counter1 ∪ counter2)) in
    if decide (0 < total)%Z then py_div common total else mret 0.

Definition control_similarity (ctrl1 ctrl2 : gmap (list ascii) Z) : M float :=
  let all_keys : gset (list ascii) := dom ctrl1 ∪ dom ctrl2 in
  if decide (all_keys = ∅) then mret 1
  else
    let '(differences, max_possible_diff) :=
      control_loop ctrl1 ctrl2 (elements all_keys) in
    q ← (if decide (0 < max_possible_diff)%Z
         then py_div differences max_possible_diff else mret 0);
    mret (1 - q).

Definition calculate_structure_similarity (code1 code2 : list ascii) : M float :=
  let structure1 := extract_structure code1 in
  let structure2 := extract_structure code2 in
  func_sim ← count_similarity (functions structure1) (functions structure2);
  class_sim ← count_similarity (classes structure1) (classes structure2);
  ctrl_sim ← control_similarity (control_structures structure1)
                                (control_structures structure2);
  mret (0.4 * func_sim + 0.3 * class_sim + 0.3 * ctrl_sim).

(** [_calculate_ratio(matches, length)]: [2.0 * matches / length]. *)
Definition calculate_ratio (matches length : nat) : float :=
  if (0 <? length)%nat
  then 2 * of_count (Z.of_nat matches) / of_count (Z.of_nat length)
  else 1.

Definition sequence_ratio {A} `{EqDecision A} (a b : list A) : float :=
  calculate_ratio (sum_list (map (λ t, t.2) (matching_blocks a b)))
    (length a + length b).

Definition calculate_line_similarity (self : CPPSimilarityChecker)
    (code1 code2 : list ascii) : float :=
  let lines1 := split_on newline (preprocess_cpp self code1) in
  let lines2 := split_on newline (preprocess_cpp self code2) in
  sequence_ratio lines1 lines2.

(** The stable sort by similarity, highest first. *)
Fixpoint insert_segment (x : segment) (l : list segment) : list segment :=
  match l with
  | [] => [x]
  | y :: r =>
      if similarity y <=? similarity x then x :: l
      else y :: insert_segment x r
  end.

Definition sort_segments (l : list segment) : list segment :=
  foldr insert_segment [] l.

Definition segment_of_block (code1 code2 : list ascii) (block : nat * nat * nat)
  : segment :=
  let '(i, j, size) := block in
  let original_lines1 := split_on newline code1 in
  let original_lines2 := split_on newline code2 in
  let i_end := (i + size) `min` length original_lines1 in
  let j_end := (j + size) `min` length original_lines2 in
  let segment1 := join [newline] (slice original_lines1 i (i_end - i)) in
  let segment2 := join [newline] (slice original_lines2 j (j_end - j)) in
  {| file1_start_line := i + 1;
     file2_start_line := j + 1;
     length_ := size;
     file1_segment := segment1;
     file2_segment := segment2;
     similarity := sequence_ratio segment1 segment2 |}.

Definition identify_similar_segments (self : CPPSimilarityChecker)
    (code1 code2 : list ascii) (min_length : nat) : list segment :=
  let processed1 := preprocess_cpp self code1 in
  let processed2 := preprocess_cpp self code2 in
  let lines1 := split_on newline processed1 in
  let lines2 := split_on newline processed2 in
  let blocks := matching_blocks lines1 lines2 in
  sort_segments
    (map (segment_of_block code1 code2)
       (filter (λ block, (min_length ≤ block.2)%nat) blocks)).

(** [similarity_level] of [check_similarity]: [overall_sim >= 0.8] and so
    on, from the top down. *)
Definition level_of (overall_sim : float) : string :=
  if 0.8 <=? overall_sim then "Very High"
  else if 0.6 <=? overall_sim then "High"
  else if 0.4 <=? overall_sim then "Moderate"
  else if 0.2 <=? overall_sim then "Low"
  else "Very Low".

Section Checker.
Variable md5 : list ascii → Z.

Definition calculate_moss_similarity (self : CPPSimilarityChecker)
    (code1 code2 : list ascii) (k w : nat) : M float :=
  let processed_code1 := preprocess_cpp self code1 in
  let processed_code2 := preprocess_cpp self code2 in
  let hashes1 := get_kgram_hashes md5 processed_code1 k in
  let hashes2 := get_kgram_hashes md5 processed_code2 k in
  l1 ← winnow hashes1 w;
  l2 ← winnow hashes2 w;
  let fingerprints1 : gset Z := list_to_set l1 in
  let fingerprints2 : gset Z := list_to_set l2 in
  if decide (fingerprints1 = ∅ ∨ fingerprints2 = ∅) then mret 0
  else
    let intersection := fingerprints1 ∩ fingerprints2 in
    let union := fingerprints1 ∪ fingerprints2 in
    py_div (Z.of_nat (size intersection)) (Z.of_nat (size union)).

(** The [try] block: [0.5 * moss_sim + 0.3 * structure_sim + 0.2 *
    line_sim], evaluated from left to right. *)
Definition check_similarity_body (self : CPPSimilarityChecker)
    (code1 code2 : list ascii) : M report :=
  moss_sim ← calculate_moss_similarity self code1 code2 5 10;
  structure_sim ← calculate_structure_similarity code1 code2;
  let line_sim := calculate_line_similarity self code1 code2 in
  let overall_sim := 0.5 * moss_sim + 0.3 * structure_sim + 0.2 * line_sim in
  let similarity_level := level_of overall_sim in
  let suspicious_segments := identify_similar_segments self code1 code2 3 in
  mret {| report_summary :=
            {| similarity_level := similarity_level;
               overall_similarity := overall_sim |};
          report_details :=
            {| moss_similarity := moss_sim;
               structure_similarity := structure_sim;
               line_similarity := line_sim |};
          suspicious_segments := take 5 suspicious_segments |}.

Definition check_similarity (self : CPPSimilarityChecker)
    (code1 code2 : list ascii) : result :=
  match check_similarity_body self code1 code2 with
  | inr report => Report report
  | inl e => Error (str_exn e)
  end.
End Checker.
End Binary64.

(** ** The entry point with a hashing step that can raise

    [kgram.encode()] raises [UnicodeEncodeError] on a k-gram that has no
    UTF-8 encoding (a lone surrogate); text decoded from a file never has
    one, a string handed to [check_similarity] directly can.  Here the
    digest of a k-gram is a computation that returns or raises, and the
    fingerprint measure, the [try] block and the entry point are those of
    the source over it. *)

Module Raising.
Section Checker.
(** [int(hashlib.md5(kgram.encode()).hexdigest(), 16)] *)
Variable digest : list ascii → M Z.

(** [[int(...) for kgram in kgrams]]: from left to right, up to the first
    k-gram on which the digest raises. *)
Fixpoint hash_all (kgrams : list (list ascii)) : M (list Z) :=
  match kgrams with
  | [] => mret []
  | kgram :: rest =>
      h ← digest kgram;
      hashes ← hash_all rest;
      mret (h :: hashes)
  end.

Definition get_kgram_hashes (code : list ascii) (k : nat) : M (list Z) :=
  let tokens := split code in
  if (length tokens <? k)%nat then mret []
  else
    let kgrams :=
      map (λ i, join [" "] (slice tokens i k)) (seq 0 (length tokens - k + 1)) in
    hash_all kgrams.

Definition calculate_moss_similarity (self : CPPSimilarityChecker)
    (code1 code2 : list ascii) (k w : nat) : M Qc :=
  let processed_code1 := preprocess_cpp self code1 in
  let processed_code2 := preprocess_cpp self code2 in
  hashes1 ← get_kgram_hashes processed_code1 k;
  hashes2 ← get_kgram_hashes processed_code2 k;
  l1 ← winnow hashes1 w;
  l2 ← winnow hashes2 w;
  let fingerprints1 : gset Z := list_to_set l1 in
  let fingerprints2 : gset Z := list_to_set l2 in
  if decide (fingerprints1 = ∅ ∨ fingerprints2 = ∅) then mret 0%Qc
  else
    let intersection := fingerprints1 ∩ fingerprints2 in
    let union := fingerprints1 ∪ fingerprints2 in
    py_div (Z.of_nat (size intersection)) (Z.of_nat (size union)).

Definition check_similarity_body (self : CPPSimilarityChecker)
    (code1 code2 : list ascii) : M report :=
  moss_sim ← calculate_moss_similarity self code1 code2 5 10;
  structure_sim ← calculate_structure_similarity code1 code2;
  let line_sim := calculate_line_similarity self code1 code2 in
  let overall_sim :=
    (tenths 5 * moss_sim + tenths 3 * structure_sim + tenths 2 * line_sim)%Qc in
  let similarity_level := level_of overall_sim in
  let suspicious_segments := identify_similar_segments self code1 code2 3 in
  mret {| report_summary :=
            {| similarity_level := similarity_level;
               overall_similarity := overall_sim |};
          report_details :=
            {| moss_similarity := moss_sim;
               structure_similarity := structure_sim;
               line_similarity := line_sim |};
          suspicious_segments := take 5 suspicious_segments |}.

(** [try: ... except Exception as e: return {'error': str(e)}] *)
Definition check_similarity (self : CPPSimilarityChecker)
    (code1 code2 : list ascii) : result :=
  match check_similarity_body self code1 code2 with
  | inr report => Report report
  | inl e => Error (str_exn e)
  end.
End Checker.
End Raising.

(** * Vocabulary of the properties *)

(** ** The matcher's search *)

(** Every run length recorded in [j2len] is at most [t]. *)
Definition j2len_bounded (t : nat) (j2len : gmap nat nat) : Prop :=
  ∀ j v, j2len !! j = Some v → (v ≤ t)%nat.

(** The best block so far lies inside [a[alo:ahi]]. *)
Definition best_inside (alo ahi : nat) (best : nat * nat * nat) : Prop :=
  (alo ≤ best.1.1 ∧ best.1.1 + best.2 ≤ ahi)%nat.

(** The measure that every iteration of [matching_loop] decreases. *)
Definition queue_weight (queue : list (nat * nat * nat * nat)) : nat :=
  sum_list (map (λ q, S (2 * (q.1.1.2 - q.1.1.1))) queue).

Definition queue_ordered (queue : list (nat * nat * nat * nat)) : Prop :=
  Forall (λ q, (q.1.1.1 ≤ q.1.1.2)%nat) queue.

(** ** Winnowing in the words of the design *)

(** [m] is the minimum of [window] and [p] the leftmost place it stands at. *)
Definition leftmost_min (window : list Z) (m : Z) (p : nat) : Prop :=
  window !! p = Some m
  ∧ (∀ x, x ∈ window → (m ≤ x)%Z)
  ∧ (∀ q, (q < p)%nat → window !! q ≠ Some m).

(** The fingerprint sequence in the words of the design: a selected hash is
    appended only if it differs from the hash appended last ([prev]). *)
Fixpoint keep_changes (prev : option Z) (selected : list Z) : list Z :=
  match selected with
  | [] => []
  | h :: r =>
      if decide (prev = Some h) then keep_changes prev r
      else h :: keep_changes (Some h) r
  end.

(** Jaccard similarity of two fingerprint sets, 0 when either is empty. *)
Definition jaccard (X Y : gset Z) : Qc :=
  if decide (X = ∅ ∨ Y = ∅) then 0%Qc
  else (Qc_of_Z (Z.of_nat (size (X ∩ Y))) / Qc_of_Z (Z.of_nat (size (X ∪ Y))))%Qc.

(** ** The report *)

(** The report assembled by the [try] block from the three scores. *)
Definition report_of (self : CPPSimilarityChecker) (code1 code2 : list ascii)
    (moss_sim structure_sim : Qc) : report :=
  let line_sim := calculate_line_similarity self code1 code2 in
  let overall_sim :=
    (tenths 5 * moss_sim + tenths 3 * structure_sim + tenths 2 * line_sim)%Qc in
  {| report_summary :=
       {| similarity_level := level_of overall_sim;
          overall_similarity := overall_sim |};
     report_details :=
       {| moss_similarity := moss_sim;
          structure_similarity := structure_sim;
          line_similarity := line_sim |};
     suspicious_segments :=
       take 5 (identify_similar_segments self code1 code2 3) |}.

(** ** Lexical units *)

(** The digits of a decimal numeral. *)
Definition isdecimal (c : ascii) : bool := in_range 48 57 c.

(** The lexical units the tokenising loop distinguishes. *)
Inductive lexeme : Type :=
  | Word (word : list ascii)
  | Num
  | Str
  | Chr (char : ascii).

(** The scan of [tokenize] without the identifier table. *)
Fixpoint lexemes (skip : nat) (code : list ascii) : list lexeme :=
  match code with
  | [] => []
  | char :: rest =>
      match skip with
      | S k => lexemes k rest
      | O =>
          if isalpha char || Ascii.eqb char "_" then
            let word := take_while isword code in
            Word word :: lexemes (pred (length word)) rest
          else if isdigit char then
            let run := take_while (λ c, isdigit c || Ascii.eqb c ".") code in
            Num :: lexemes (pred (length run)) rest
          else if isquote char then
            Str :: lexemes (scan_string char rest) rest
          else
            Chr char :: lexemes 0 rest
      end
  end.

(** The identifier table threaded over the lexical units. *)
Fixpoint rename (units : list lexeme) (identifier_counter : nat)
    (identifier_map : gmap (list ascii) (list ascii)) : list lexeme :=
  match units with
  | [] => []
  | Word word :: rest =>
      if is_keyword word then
        Word word :: rename rest identifier_counter identifier_map
      else
        match identifier_map !! word with
        | None =>
            Word (var_name identifier_counter) ::
            rename rest (S identifier_counter)
              (<[word := var_name identifier_counter]> identifier_map)
        | Some name => Word name :: rename rest identifier_counter identifier_map
        end
  | unit :: rest => unit :: rename rest identifier_counter identifier_map
  end.

(** The token a lexical unit is written as. *)
Definition text (unit : lexeme) : list ascii :=
  match unit with
  | Word word => word
  | Num => py "NUM"
  | Str => py "STR"
  | Chr char => [char]
  end.

(** A word or a single character, no literal marker. *)
Definition plain (unit : lexeme) : Prop :=
  match unit with Word _ | Chr _ => True | Num | Str => False end.

(** Not a whitespace character standing alone. *)
Definition solid (unit : lexeme) : bool :=
  match unit with Chr char => negb (isspace char) | _ => true end.

(** A word: an identifier start followed by word characters. *)
Definition word_shaped (word : list ascii) : Prop :=
  match word with
  | [] => False
  | c :: rest =>
      isalpha c || Ascii.eqb c "_" = true ∧ Forall (λ x, isword x = true) rest
  end.

(** A character that the loop emits on its own. *)
Definition lone (c : ascii) : Prop :=
  isalpha c || Ascii.eqb c "_" = false ∧ isdigit c = false ∧ isquote c = false.

(** A word or a lone character, as the loop emits them. *)
Definition good (unit : lexeme) : Prop :=
  match unit with
  | Word word => word_shaped word
  | Chr c => lone c
  | Num | Str => False
  end.

(** Every slash is followed by a space or ends the text. *)
Fixpoint slash_spaced (code : list ascii) : Prop :=
  match code with
  | [] => True
  | c :: rest =>
      (c = "/" → match rest with [] => True | d :: _ => d = " " end)
      ∧ slash_spaced rest
  end.

(** The table of the second pass: every canonical name issued so far
    stands for itself, and nothing else is in it. *)
Definition canonical_table (counter : nat)
    (identifier_map : gmap (list ascii) (list ascii)) : Prop :=
  (∀ i, (i < counter)%nat → identifier_map !! var_name i = Some (var_name i))
  ∧ (∀ word name, identifier_map !! word = Some name →
       ∃ i, (i < counter)%nat ∧ word = var_name i).

(** The table of the first pass issues canonical names only. *)
Definition issued_names (counter : nat)
    (identifier_map : gmap (list ascii) (list ascii)) : Prop :=
  ∀ word name, identifier_map !! word = Some name →
    ∃ i, (i < counter)%nat ∧ name = var_name i.


(** ** Worked inputs *)

(** A stand-in for the digest in the worked examples; the theorems hold for
    every function from k-grams to integers. *)
Definition sample_md5 (kgram : list ascii) : Z :=
  foldl (λ h c, (h * 31 + Z.of_N (ord c)) `mod` 1000003)%Z 7%Z kgram.

Definition sample_function : list ascii :=
  py "int add(int a,int b){return a+b;}".

(** The checker with "Ignore whitespace" unticked. *)
Definition keep_whitespace : CPPSimilarityChecker :=
  {| ignore_comments := true; ignore_whitespace := false;
     normalize_identifiers := true |}.

(** The checker with "Normalize identifiers" unticked. *)
Definition keep_identifiers : CPPSimilarityChecker :=
  {| ignore_comments := true; ignore_whitespace := true;
     normalize_identifiers := false |}.

(** The checker with "Ignore whitespace" and "Normalize identifiers"
    unticked. *)
Definition keep_text : CPPSimilarityChecker :=
  {| ignore_comments := true; ignore_whitespace := false;
     normalize_identifiers := false |}.

Definition lines_tide : list ascii :=
  join [newline] (map py ["t();"; "i();"; "d();"; "e();"]%string).

Definition lines_diet : list ascii :=
  join [newline] (map py ["d();"; "i();"; "e();"; "t();"]%string).

(** Eight lines, and the same eight with the last four in reverse order. *)
Definition block_original : list ascii :=
  join [newline]
    (map py ["int a = 1;"; "int b = 2;"; "int c = 3;"; "int d = 4;";
             "x = a + b;"; "y = c + d;"; "z = a * c;"; "w = b * d;"]%string).

Definition block_reordered : list ascii :=
  join [newline]
    (map py ["int a = 1;"; "int b = 2;"; "int c = 3;"; "int d = 4;";
             "w = b * d;"; "z = a * c;"; "y = c + d;"; "x = a + b;"]%string).

(** * Vocabulary of the further properties *)

(** ** Fingerprints and scores *)

(** No hash stands twice in a row. *)
Definition no_repeat (l : list Z) : Prop :=
  ∀ n x y, l !! n = Some x → l !! S n = Some y → x ≠ y.

(** A score lies between 0 and 1. *)
Definition unit_interval (q : Qc) : Prop := (0 ≤ q ∧ q ≤ 1)%Qc.


(** ** What the matcher's search keeps *)

(** The runs recorded after [i] rows: each lies inside both ranges and
    consists of equal elements. *)
Definition j2len_runs {A} `{EqDecision A} (a b : list A) (i blo : nat)
    (j2len : gmap nat nat) : Prop :=
  ∀ j v, j2len !! j = Some v →
    (v ≤ i ∧ blo + v ≤ S j)%nat
    ∧ ∀ t, (t < v)%nat → same_at a b (i - 1 - t) (j - t) = true.

(** The block lies inside [b[blo:bhi]]. *)
Definition block_inside (blo bhi : nat) (block : nat * nat * nat) : Prop :=
  (blo ≤ block.1.2 ∧ block.1.2 + block.2 ≤ bhi)%nat.

(** [a[i:i+k] == b[j:j+k]] for the block [(i, j, k)]. *)
Definition block_matches {A} `{EqDecision A} (a b : list A)
    (block : nat * nat * nat) : Prop :=
  ∀ t, (t < block.2)%nat → same_at a b (block.1.1 + t) (block.1.2 + t) = true.

(** Every index listed for [x] is a place where [x] stands in [b]. *)
Definition b2j_sound {A} `{EqDecision A} (b : list A)
    (b2j : list (A * list nat)) : Prop :=
  ∀ x j, j ∈ b2j_get b2j x → b !! j = Some x.

(** The number of matched elements, the sum of the block sizes. *)
Definition matched (blocks : list (nat * nat * nat)) : nat :=
  sum_list (map (λ t, t.2) blocks).

(** The elements left to search on the [a] side and on the [b] side. *)
Definition queue_span_a (queue : list (nat * nat * nat * nat)) : nat :=
  sum_list (map (λ q, q.1.1.2 - q.1.1.1) queue).

Definition queue_span_b (queue : list (nat * nat * nat * nat)) : nat :=
  sum_list (map (λ q, q.2 - q.1.2) queue).

Definition queue_ranges (queue : list (nat * nat * nat * nat)) : Prop :=
  Forall (λ q, (q.1.1.1 ≤ q.1.1.2 ∧ q.1.2 ≤ q.2)%nat) queue.


(** The places from [i] on where [x] stands in [b], in ascending order. *)
Fixpoint occurrences {A} `{EqDecision A} (i : nat) (b : list A) (x : A)
  : list nat :=
  match b with
  | [] => []
  | y :: r =>
      if decide (y = x) then i :: occurrences (S i) r x
      else occurrences (S i) r x
  end.


(** ** A sequence matched against itself *)

(** [a[j]] has an entry in [b2j]: it is not popular. *)
Definition listed {A} `{EqDecision A} (b2j : list (A * list nat)) (a : list A)
    (j : nat) : bool :=
  match a !! j with
  | Some x => bool_decide (b2j_get b2j x ≠ [])
  | None => false
  end.

(** The number of consecutive listed elements that end at [j]. *)
Fixpoint run_to {A} `{EqDecision A} (b2j : list (A * list nat)) (a : list A)
    (j : nat) : nat :=
  match j with
  | O => if listed b2j a 0 then 1 else 0
  | S j' => if listed b2j a j then S (run_to b2j a j') else 0
  end.

Definition prev_run {A} `{EqDecision A} (b2j : list (A * list nat)) (a : list A)
    (i : nat) : nat :=
  match i with O => 0 | S i' => run_to b2j a i' end.

(** The state of the search before row [i], when [a] is matched against
    itself: the best block lies on the diagonal and is at least as long as
    every diagonal run seen, and no recorded run is longer than the
    diagonal one. *)
Definition diagonal_rows {A} `{EqDecision A} (b2j : list (A * list nat))
    (a : list A) (i : nat) (j2len : gmap nat nat) (best : nat * nat * nat)
  : Prop :=
  best.1.1 = best.1.2 ∧ (best.1.1 + best.2 ≤ i)%nat
  ∧ (∀ j, (j < i)%nat → (run_to b2j a j ≤ best.2)%nat)
  ∧ (∀ j v, j2len !! j = Some v →
       (v ≤ run_to b2j a j ∧ v ≤ prev_run b2j a i)%nat)
  ∧ ((0 < prev_run b2j a i)%nat →
       j2len !! (i - 1)%nat = Some (prev_run b2j a i)).

(** The state inside row [i], with the indices [rest] still to visit. *)
Definition diagonal_row {A} `{EqDecision A} (b2j : list (A * list nat))
    (a : list A) (i : nat) (rest : list nat) (newj2len : gmap nat nat)
    (best : nat * nat * nat) : Prop :=
  best.1.1 = best.1.2 ∧ (best.1.1 + best.2 ≤ S i)%nat
  ∧ (∀ j, (j < i)%nat → (run_to b2j a j ≤ best.2)%nat)
  ∧ (∀ j v, newj2len !! j = Some v →
       (v ≤ run_to b2j a j ∧ v ≤ run_to b2j a i)%nat)
  ∧ (i ∈ rest
     ∨ ((run_to b2j a i ≤ best.2)%nat
        ∧ newj2len !! i = Some (run_to b2j a i))).


(** ** Segments *)

(** The list is in descending order of similarity. *)
Definition descending (segments : list segment) : Prop :=
  ∀ m n s1 s2, (m < n)%nat →
    segments !! m = Some s1 → segments !! n = Some s2 →
    (similarity s2 ≤ similarity s1)%Qc.

(** The checker with all three options unticked: the texts are compared
    as they are written. *)
Definition verbatim : CPPSimilarityChecker :=
  {| ignore_comments := false; ignore_whitespace := false;
     normalize_identifiers := false |}.


(** ** Tokens *)

(** What a token of the normalised text can be: a keyword, a canonical
    name, a literal marker, or a character that is neither a letter, an
    underscore, a digit nor a quote. *)
Definition token_shape (token : list ascii) : Prop :=
  is_keyword token = true
  ∨ (∃ i, token = var_name i)
  ∨ token = py "NUM"
  ∨ token = py "STR"
  ∨ ∃ c, token = [c] ∧ lone c.

(** A unit as the renaming pass leaves it. *)
Definition unit_shape (unit : lexeme) : Prop :=
  match unit with
  | Word word => is_keyword word = true ∨ ∃ i, word = var_name i
  | Chr c => lone c
  | Num | Str => True
  end.

(** The identifier table issues canonical names, and no name twice. *)
Definition table_injective (counter : nat)
    (identifier_map : gmap (list ascii) (list ascii)) : Prop :=
  issued_names counter identifier_map
  ∧ ∀ word1 word2 name,
      identifier_map !! word1 = Some name →
      identifier_map !! word2 = Some name → word1 = word2.

(** The identifiers of a text written differently: [f] is applied to
    every word that is not a keyword. *)
Definition relabel (f : list ascii → list ascii) (unit : lexeme) : lexeme :=
  match unit with
  | Word word => if is_keyword word then unit else Word (f word)
  | _ => unit
  end.


(** ** More worked inputs *)

(** [sample_function] with its three identifiers written differently. *)
Definition sample_function_renamed : list ascii :=
  py "int sum(int x,int y){return x+y;}".

Definition sample_renaming (word : list ascii) : list ascii :=
  if decide (word = py "add") then py "sum"
  else if decide (word = py "a") then py "x"
  else if decide (word = py "b") then py "y"
  else word.

Definition sample_hashes : list Z := [5; 3; 8; 3; 9; 1; 1; 7]%Z.


(** ** Whitespace runs *)

(** The text with every run of whitespace written as one space;
    [in_run] tells whether the character before was whitespace. *)
Fixpoint squeeze (in_run : bool) (code : list ascii) : list ascii :=
  match code with
  | [] => []
  | c :: rest =>
      if isspace c
      then if in_run then squeeze true rest else " " :: squeeze true rest
      else c :: squeeze false rest
  end.

(** A name as the structure patterns capture it: a non-empty run of word
    characters. *)
Definition word_run (name : list ascii) : Prop :=
  name ≠ [] ∧ Forall (λ c, isword c = true) name.

(** ** The text stages *)


(** A statement with a string literal that holds blanks, an operator and
    the comment opener. *)
Definition sample_literal : list ascii :=
  py "s = " ++ ["034"] ++ py "a  =  b // c" ++ ["034"] ++ py ";".

(** ** The aggregate and the faults *)

(** [x >= bound] on binary64 numbers. *)
Definition at_least (bound x : float) : Prop := (bound <=? x)%float = true.

(** Two texts whose aggregate is one fifth in exact arithmetic. *)
Definition three_functions : list ascii :=
  py "int f(){} int g(){} int h(){} if;if;if;".
Definition two_functions : list ascii :=
  py "int f(){} int g(){}if;".

(** The k-grams that [get_kgram_hashes] hashes, in the order in which it
    hashes them: none when there are fewer than [k] tokens. *)
Definition kgrams_of (code : list ascii) (k : nat) : list (list ascii) :=
  let tokens := split code in
  if (length tokens <? k)%nat then []
  else map (λ i, join [" "] (slice tokens i k)) (seq 0 (length tokens - k + 1)).

(** The exception of the first k-gram of the list on which the digest
    raises, if there is one. *)
Fixpoint first_failure (digest : list ascii → M Z) (kgrams : list (list ascii))
  : option exn :=
  match kgrams with
  | [] => None
  | kgram :: rest =>
      match digest kgram with
      | inl e => Some e
      | inr _ => first_failure digest rest
      end
  end.

(** The value of a digest where it returns. *)
Definition digest_value (digest : list ascii → M Z) (kgram : list ascii) : Z :=
  match digest kgram with
  | inr h => h
  | inl _ => 0%Z
  end.

(** A digest that raises on the k-grams holding the character U+00FF,
    which stands here for a character without an encoding. *)
Definition sample_digest (kgram : list ascii) : M Z :=
  if decide ("255" ∈ kgram)
  then raise (UnicodeEncodeError "surrogates not allowed")
  else mret (sample_md5 kgram).

Definition sample_unencodable : list ascii := py "a b c d e " ++ ["255"].
Definition sample_encodable : list ascii := py "a b c d e".

Ltac each_char c :=
  destruct c as [[] [] [] [] [] [] [] []]; try (vm_compute; congruence).

(** * Properties *)

(** ** The matcher's iteration budget suffices *)

Section SequenceMatcherFacts.
Context {A : Type} `{EqDecision A}.
Variables a b : list A.

Lemma scan_indices_inside alo ahi i blo bhi j2len js newj2len best :
  (alo ≤ i < ahi)%nat →
  j2len_bounded (i - alo) j2len →
  j2len_bounded (S i - alo) newj2len →
  best_inside alo ahi best →
  j2len_bounded (S i - alo) (scan_indices i blo bhi j2len js newj2len best).1
  ∧ best_inside alo ahi (scan_indices i blo bhi j2len js newj2len best).2.
Proof.
  intros Hi Hold. revert newj2len best.
  induction js as [|j js IH]; intros newj2len best Hnew Hbest; simpl; [done|].
  destruct (j <? blo)%nat; [by apply IH|].
  destruct (bhi <=? j)%nat; [done|].
  set (k := (match j with O => 0 | S j' => default 0 (j2len !! j') end + 1)%nat).
  assert (k ≤ S i - alo)%nat as Hk.
  { unfold k. destruct j as [|j']; [lia|].
    destruct (j2len !! j') as [v|] eqn:Hv; simpl; [|lia].
    apply Hold in Hv. lia. }
  apply IH.
  - intros j0 v. rewrite lookup_insert. case_decide; [|by apply Hnew].
    intros [= <-]. done.
  - destruct (best.2 <? k)%nat; [|done].
    unfold best_inside; simpl. lia.
Qed.

Lemma scan_rows_inside b2j alo ahi blo bhi n : ∀ i j2len best,
  (alo ≤ i)%nat → (i + n ≤ ahi)%nat →
  j2len_bounded (i - alo) j2len →
  best_inside alo ahi best →
  best_inside alo ahi (scan_rows a b2j blo bhi (seq i n) j2len best).
Proof.
  induction n as [|n IH]; intros i j2len best Hlo Hhi Hold Hbest; simpl; [done|].
  set (js := match a !! i with Some x => b2j_get b2j x | None => [] end).
  destruct (scan_indices_inside alo ahi i blo bhi j2len js ∅ best)
    as [Hnew Hbest']; [lia|done|by intros ???; simplify_map_eq|done|].
  destruct (scan_indices i blo bhi j2len js ∅ best) as [newj2len best'].
  by apply IH; [lia|lia|..].
Qed.

Lemma extend_left_inside alo ahi blo besti : ∀ bestj bestsize,
  best_inside alo ahi (besti, bestj, bestsize) →
  best_inside alo ahi (extend_left a b alo blo besti bestj bestsize).
Proof.
  induction besti as [|i' IH]; intros bestj bestsize Hbest; simpl; [done|].
  destruct bestj as [|j']; [done|].
  destruct (_ && _ && _ && _) eqn:Hcond; [|done].
  apply IH. unfold best_inside in *; simpl in *.
  repeat (apply andb_prop in Hcond as [Hcond ?]).
  apply Nat.ltb_lt in Hcond. lia.
Qed.

Lemma extend_right_inside steps ahi bhi besti bestj : ∀ bestsize,
  (besti + bestsize ≤ ahi)%nat →
  (besti + extend_right a b steps ahi bhi besti bestj bestsize ≤ ahi)%nat.
Proof.
  induction steps as [|n IH]; intros bestsize Hbest; simpl; [done|].
  destruct (_ && _ && _ && _) eqn:Hcond; [|done].
  apply IH.
  repeat (apply andb_prop in Hcond as [Hcond ?]).
  apply Nat.ltb_lt in Hcond. lia.
Qed.

Lemma find_longest_match_inside b2j alo ahi blo bhi :
  (alo ≤ ahi)%nat →
  best_inside alo ahi (find_longest_match a b b2j alo ahi blo bhi).
Proof.
  intros Hle. unfold find_longest_match.
  pose proof (scan_rows_inside b2j alo ahi blo bhi (ahi - alo) alo ∅ (alo, blo, 0%nat))
    as Hrows.
  destruct (scan_rows _ _ _ _ _ _ _) as [[i1 j1] k1].
  pose proof (extend_left_inside alo ahi blo i1 j1 k1) as Hleft.
  destruct (extend_left _ _ _ _ _ _ _) as [[i2 j2] k2].
  pose proof (extend_right_inside (ahi - (i2 + k2)) ahi bhi i2 j2 k2) as Hright.
  unfold best_inside in *; simpl in *.
  assert (alo ≤ i1 ∧ i1 + k1 ≤ ahi)%nat as H1.
  { apply Hrows; [lia|lia|by intros ???; simplify_map_eq|lia]. }
  lia.
Qed.

Lemma queue_weight_cons alo ahi blo bhi queue :
  queue_weight ((alo, ahi, blo, bhi) :: queue)
  = (S (2 * (ahi - alo)) + queue_weight queue)%nat.
Proof. done. Qed.

Lemma matching_loop_total b2j fuel : ∀ queue blocks,
  queue_ordered queue →
  (queue_weight queue ≤ fuel)%nat →
  is_Some (matching_loop a b fuel b2j queue blocks).
Proof.
  induction fuel as [|fuel IH]; intros queue blocks Hord Hw;
    destruct queue as [|[[[alo ahi] blo] bhi] queue]; simpl; [done| |done|].
  { rewrite queue_weight_cons in Hw. lia. }
  apply Forall_cons in Hord as [Hle Hord]; simpl in Hle.
  rewrite queue_weight_cons in Hw.
  pose proof (find_longest_match_inside b2j alo ahi blo bhi Hle) as Hin.
  destruct (find_longest_match a b b2j alo ahi blo bhi) as [[i j] k].
  unfold best_inside in Hin; simpl in Hin.
  destruct (0 <? k)%nat eqn:Hk; [|apply IH; [done|lia]].
  apply Nat.ltb_lt in Hk.
  destruct ((alo <? i)%nat && (blo <? j)%nat) eqn:Hl;
    destruct ((i + k <? ahi)%nat && (j + k <? bhi)%nat) eqn:Hr;
    apply IH; rewrite ?queue_weight_cons;
    repeat (apply Forall_cons; split); simpl; try done; lia.
Qed.

Lemma get_matching_blocks_total : is_Some (get_matching_blocks a b).
Proof.
  unfold get_matching_blocks.
  destruct (matching_loop_total (chain_b b) (matching_fuel a)
              [(0, length a, 0, length b)%nat] []) as [blocks ->].
  - repeat constructor; simpl; lia.
  - unfold queue_weight, matching_fuel; simpl; lia.
  - done.
Qed.

Lemma matching_blocks_eq : get_matching_blocks a b = Some (matching_blocks a b).
Proof.
  unfold matching_blocks. by destruct get_matching_blocks_total as [blocks ->].
Qed.
End SequenceMatcherFacts.

(** The library's [ratio()] is the total [sequence_ratio]. *)
Lemma ratio_eq {A} `{EqDecision A} (a b : list A) :
  ratio a b = Some (sequence_ratio a b).
Proof. unfold ratio. by rewrite matching_blocks_eq. Qed.

(** ** The matcher on one-element sequences *)

Lemma find_longest_match_singleton {A} `{EqDecision A} (x y : A) :
  find_longest_match [x] [y] [(y, [0%nat])] 0 1 0 1
  = if decide (x = y) then (0, 0, 1)%nat else (0, 0, 0)%nat.
Proof.
  unfold find_longest_match. cbn -[decide].
  destruct (decide (x = y)) as [->|Hne].
  - rewrite decide_True by done. reflexivity.
  - rewrite decide_False by done. cbn.
    by rewrite bool_decide_eq_false_2.
Qed.

Lemma matching_blocks_singleton {A} `{EqDecision A} (x y : A) :
  matching_blocks [x] [y]
  = if decide (x = y) then [(0, 0, 1); (1, 1, 0)]%nat else [(1, 1, 0)%nat].
Proof.
  unfold matching_blocks, get_matching_blocks, matching_fuel.
  change (chain_b [y]) with [(y, [0%nat])].
  cbn -[decide find_longest_match].
  rewrite find_longest_match_singleton.
  destruct (decide (x = y)); reflexivity.
Qed.

Lemma sequence_ratio_singleton {A} `{EqDecision A} (x y : A) :
  sequence_ratio [x] [y] = if decide (x = y) then 1%Qc else 0%Qc.
Proof.
  unfold sequence_ratio. rewrite matching_blocks_singleton.
  destruct (decide (x = y)); by apply Qc_is_canon.
Qed.

(** ** Characters that survive the normaliser *)

Lemma re_sub_Forall (P : ascii → Prop) (m : re_match) :
  (∀ s repl n, m s = Some (repl, n) → Forall P repl) →
  (∀ c r, m (c :: r) = None → P c) →
  ∀ skip code, Forall P (re_sub m skip code).
Proof.
  intros Hrepl Hcopy skip code. revert skip.
  induction code as [|c rest IH]; intros skip; simpl; [done|].
  destruct skip as [|k]; [|done].
  destruct (m (c :: rest)) as [[repl n]|] eqn:Hm.
  - apply Forall_app; split; [by eapply Hrepl|done].
  - constructor; [by eapply Hcopy|done].
Qed.

Lemma re_sub_Forall_keep (P : ascii → Prop) (m : re_match) :
  (∀ s repl n, Forall P s → m s = Some (repl, n) → Forall P repl) →
  ∀ skip code, Forall P code → Forall P (re_sub m skip code).
Proof.
  intros Hrepl skip code. revert skip.
  induction code as [|c rest IH]; intros skip Hcode; simpl; [done|].
  pose proof Hcode as Hall. apply Forall_cons in Hcode as [Hc Hrest].
  destruct skip as [|k]; [|by apply IH].
  destruct (m (c :: rest)) as [[repl n]|] eqn:Hm.
  - apply Forall_app; split; [by eapply Hrepl|by apply IH].
  - constructor; [done|by apply IH].
Qed.

Lemma take_while_Forall {A} (p : A → bool) (l : list A) :
  Forall (λ x, p x = true) (take_while p l).
Proof.
  induction l as [|x l IH]; simpl; [done|].
  destruct (p x) eqn:Hp; [by constructor|done].
Qed.

Lemma take_while_prefix {A} (p : A → bool) (l : list A) :
  take_while p l ++ drop (length (take_while p l)) l = l.
Proof.
  induction l as [|x l IH]; simpl; [done|].
  destruct (p x); simpl; [by rewrite IH|done].
Qed.

Lemma take_while_sublist {A} (P : A → Prop) (p : A → bool) (l : list A) :
  Forall P l → Forall P (take_while p l).
Proof.
  induction 1 as [|x l Hx Hl IH]; simpl; [done|].
  destruct (p x); [by constructor|done].
Qed.

(** After [\s+] is replaced, a whitespace character is a space. *)
Lemma whitespace_run_spaces skip code :
  Forall (λ c, isspace c = true → c = " ") (re_sub whitespace_run skip code).
Proof.
  apply re_sub_Forall.
  - intros s repl n. unfold whitespace_run.
    destruct (take_while isspace s); [done|]. intros [= <- _].
    by repeat constructor.
  - intros c r. unfold whitespace_run; simpl.
    destruct (isspace c); [done|]. by intros _ ?.
Qed.

Lemma spaced_operator_keeps (P : ascii → Prop) skip code :
  Forall P code → Forall P (re_sub spaced_operator skip code).
Proof.
  apply re_sub_Forall_keep. intros s repl n Hs. unfold spaced_operator.
  destruct (drop _ s) as [|c r] eqn:Hdrop; [done|].
  destruct (isoperator c); [|done]. intros [= <- _].
  assert (c ∈ s) as Hin.
  { rewrite <-(take_drop (length (take_while isspace s)) s), Hdrop.
    set_solver. }
  repeat constructor. by eapply Forall_forall in Hs.
Qed.

Lemma remove_whitespace_no_newline code :
  Forall (λ c, c ≠ newline) (remove_whitespace code).
Proof.
  unfold remove_whitespace. apply spaced_operator_keeps.
  eapply Forall_impl; [apply whitespace_run_spaces|].
  intros c Hc ->. by specialize (Hc eq_refl).
Qed.

Lemma pretty_N_go_decimal (x : N) : ∀ s,
  Forall (λ c, isdecimal c = true) (py s) →
  Forall (λ c, isdecimal c = true) (py (pretty_N_go x s)).
Proof.
  induction (N.lt_wf_0 x) as [x _ IH]; intros s Hs.
  destruct (decide (x = 0)%N) as [->|Hx]; [done|].
  rewrite pretty_N_go_step by lia. apply IH.
  - apply N.div_lt; lia.
  - simpl. constructor; [|done].
    unfold pretty_N_char. by repeat case_match.
Qed.

Lemma pretty_nat_decimal (n : nat) :
  Forall (λ c, isdecimal c = true) (py (pretty n)).
Proof.
  unfold pretty, pretty_nat, pretty, pretty_N.
  case_decide; [by repeat constructor|].
  by apply pretty_N_go_decimal.
Qed.

Lemma var_name_no_newline n : Forall (λ c, c ≠ newline) (var_name n).
Proof.
  unfold var_name. apply Forall_app; split.
  - by repeat constructor.
  - eapply Forall_impl; [apply pretty_nat_decimal|]. by intros c Hc ->.
Qed.

(** Every token is free of newlines when the text and the names already in
    the identifier table are. *)
Lemma tokenize_no_newline code : ∀ skip counter (identifier_map : gmap _ _),
  Forall (λ c, c ≠ newline) code →
  map_Forall (λ _ name, Forall (λ c, c ≠ newline) name) identifier_map →
  Forall (Forall (λ c, c ≠ newline))
    (tokenize skip code counter identifier_map).
Proof.
  induction code as [|char rest IH]; intros skip counter idmap Hcode Hmap;
    simpl; [done|].
  pose proof Hcode as Hall. apply Forall_cons in Hcode as [Hc Hrest].
  destruct skip as [|k]; [|by apply IH].
  destruct (isalpha char || Ascii.eqb char "_").
  { change (isword char) with (isword char).
    set (word := if isword char then char :: take_while isword rest else []).
    destruct (is_keyword word).
    - constructor; [|by apply IH].
      unfold word. destruct (isword char); [|done].
      constructor; [done|by apply take_while_sublist].
    - destruct (idmap !! word) as [name|] eqn:Hname.
      + constructor; [by eapply Hmap|by apply IH].
      + constructor; [apply var_name_no_newline|].
        apply IH; [done|]. apply map_Forall_insert_2; [|done].
        apply var_name_no_newline. }
  destruct (isdigit char).
  { constructor; [by repeat constructor|by apply IH]. }
  destruct (isquote char).
  { constructor; [by repeat constructor|by apply IH]. }
  constructor; [by repeat constructor|by apply IH].
Qed.

Lemma join_Forall (P : ascii → Prop) sep parts :
  Forall P sep → Forall (Forall P) parts → Forall P (join sep parts).
Proof.
  intros Hsep. induction 1 as [|x r Hx Hr IH]; simpl; [done|].
  destruct r; [done|]. by repeat (apply Forall_app; split).
Qed.

(** With [ignore_whitespace] set, the normalised text is a single line. *)
Lemma preprocess_no_newline self code :
  ignore_whitespace self = true →
  Forall (λ c, c ≠ newline) (preprocess_cpp self code).
Proof.
  intros Hws. unfold preprocess_cpp, cleaned. rewrite Hws.
  destruct (normalize_identifiers self); [|apply remove_whitespace_no_newline].
  apply join_Forall; [by repeat constructor|].
  apply tokenize_no_newline; [apply remove_whitespace_no_newline|].
  apply map_Forall_empty.
Qed.

Lemma split_on_go_absent sep cur s :
  Forall (λ c, c ≠ sep) s → split_on_go sep cur s = [cur ++ s].
Proof.
  revert cur. induction s as [|c r IH]; intros cur Hs; simpl.
  - by rewrite app_nil_r.
  - apply Forall_cons in Hs as [Hc Hr].
    destruct (Ascii.eqb_spec c sep); [done|].
    rewrite IH by done. by rewrite <-app_assoc.
Qed.

Lemma preprocess_one_line self code :
  ignore_whitespace self = true →
  split_on newline (preprocess_cpp self code) = [preprocess_cpp self code].
Proof.
  intros Hws. unfold split_on.
  by rewrite split_on_go_absent by by apply preprocess_no_newline.
Qed.

(** ** Winnowing *)

Lemma foldl_min_le (l : list Z) : ∀ x,
  (foldl Z.min x l ≤ x)%Z ∧ (∀ y, y ∈ l → (foldl Z.min x l ≤ y)%Z)
  ∧ (foldl Z.min x l = x ∨ foldl Z.min x l ∈ l).
Proof.
  induction l as [|z l IH]; intros x; simpl.
  - split; [lia|]. split; [|by left]. intros y Hy. by apply elem_of_nil in Hy.
  - destruct (IH (Z.min x z)) as (Hle & Hall & Hin).
    split; [lia|]. split.
    + intros y [->|Hy]%elem_of_cons; [lia|by apply Hall].
    + destruct Hin as [Heq|Hin]; [|right; by constructor].
      destruct (Z.min_spec x z) as [[_ Hm]|[_ Hm]];
        [left|right]; rewrite Heq, Hm; [done|by constructor].
Qed.

Lemma py_min_spec (l : list Z) :
  l ≠ [] → ∃ m, py_min l = inr m ∧ m ∈ l ∧ ∀ x, x ∈ l → (m ≤ x)%Z.
Proof.
  destruct l as [|x l]; [done|]. intros _. simpl.
  destruct (foldl_min_le l x) as (Hle & Hall & Hin).
  eexists; split; [done|]. split.
  - destruct Hin as [->|Hin]; [by constructor|by constructor].
  - intros y [->|Hy]%elem_of_cons; [done|by apply Hall].
Qed.

Lemma py_index_spec (m : Z) (l : list Z) :
  m ∈ l →
  ∃ p, py_index m l = inr p ∧ l !! p = Some m
       ∧ ∀ q, (q < p)%nat → l !! q ≠ Some m.
Proof.
  induction l as [|y l IH]; intros Hin; [by apply elem_of_nil in Hin|].
  simpl. destruct (decide (y = m)) as [->|Hne].
  - exists 0%nat. split; [done|]. split; [done|]. lia.
  - apply elem_of_cons in Hin as [->|Hin]; [done|].
    destruct (IH Hin) as (p & -> & Hp & Hleft).
    exists (S p). split; [done|]. split; [done|].
    intros [|q] Hq; simpl; [congruence|]. apply Hleft. lia.
Qed.

(** The minimum of a non-empty window and its leftmost position. *)
Lemma select_spec (window : list Z) :
  window ≠ [] →
  ∃ m p, py_min window = inr m ∧ py_index m window = inr p
         ∧ leftmost_min window m p.
Proof.
  intros Hne. destruct (py_min_spec window Hne) as (m & Hm & Hin & Hle).
  destruct (py_index_spec m window Hin) as (p & Hp & Hat & Hleft).
  by exists m, p.
Qed.

Section WinnowFacts.
Lemma last_fst_snoc (fps : list (Z * nat)) (x : Z * nat) :
  fst <$> last (fps ++ [x]) = Some x.1.
Proof. by rewrite last_snoc. Qed.

(** The loop appends, for each window in turn, its minimum unless that
    is the hash appended last; [selected] lists the minimum and the
    recorded position for every window. *)
Lemma winnow_loop_spec (windows : list (list Z)) : ∀ i fingerprints,
  Forall (λ window, window ≠ []) windows →
  ∃ selected out,
    winnow_loop i windows fingerprints = inr out
    ∧ length selected = length windows
    ∧ (∀ n m p, selected !! n = Some (m, p) →
         ∃ window, windows !! n = Some window
                   ∧ (i + n ≤ p)%nat
                   ∧ leftmost_min window m (p - (i + n)))
    ∧ map fst out
      = map fst fingerprints
        ++ keep_changes (fst <$> last fingerprints) (map fst selected).
Proof.
  induction windows as [|window rest IH]; intros i fps Hne; simpl.
  - exists [], fps. split; [done|]. split; [done|]. split.
    + intros n m p Hn. by rewrite lookup_nil in Hn.
    + by rewrite app_nil_r.
  - apply Forall_cons in Hne as [Hw Hrest].
    destruct (select_spec window Hw) as (m & p & Hm & Hp & Hmin).
    rewrite Hm; simpl. rewrite Hp; simpl.
    assert (∀ sel',
      length sel' = length rest →
      (∀ n m' p', sel' !! n = Some (m', p') →
         ∃ window', rest !! n = Some window'
                    ∧ (S i + n ≤ p')%nat
                    ∧ leftmost_min window' m' (p' - (S i + n))) →
      length ((m, (p + i)%nat) :: sel') = S (length rest)
      ∧ (∀ n m' p', ((m, (p + i)%nat) :: sel') !! n = Some (m', p') →
         ∃ window', (window :: rest) !! n = Some window'
                    ∧ (i + n ≤ p')%nat
                    ∧ leftmost_min window' m' (p' - (i + n)))) as Hsel.
    { intros sel' Hlen Hall. split; [simpl; lia|].
      intros [|n] m' p'; simpl.
      - intros [= <- <-]. exists window. split; [done|]. split; [lia|].
        by replace (p + i - (i + 0))%nat with p by lia.
      - intros Hn. destruct (Hall n m' p' Hn) as (w' & ? & ? & ?).
        exists w'. split; [done|]. split; [lia|].
        by replace (p' - (i + S n))%nat with (p' - (S i + n))%nat by lia. }
    destruct (decide (fps = [] ∨ fst <$> last fps ≠ Some m)) as [Hnew|Hold].
    + destruct (IH (S i) (fps ++ [(m, (p + i)%nat)]) Hrest)
        as (sel & out & Hout & Hlen & Hall & Hmap).
      exists ((m, (p + i)%nat) :: sel), out.
      split; [done|]. destruct (Hsel sel Hlen Hall) as [? ?].
      split; [done|]. split; [done|].
      rewrite Hmap, last_fst_snoc, map_app, <-app_assoc. simpl.
      rewrite decide_False; [done|].
      destruct Hnew as [->|Hnew]; [done|done].
    + destruct (IH (S i) fps Hrest) as (sel & out & Hout & Hlen & Hall & Hmap).
      exists ((m, (p + i)%nat) :: sel), out.
      split; [done|]. destruct (Hsel sel Hlen Hall) as [? ?].
      split; [done|]. split; [done|].
      rewrite Hmap. simpl. rewrite decide_True; [done|].
      destruct (decide (fst <$> last fps = Some m)); [done|].
      exfalso. apply Hold. by right.
Qed.

Lemma slice_length {A} (l : list A) (i n : nat) :
  (i + n ≤ length l)%nat → length (slice l i n) = n.
Proof. intros Hle. unfold slice. rewrite length_take, length_drop. lia. Qed.

Lemma winnow_short (hashes : list Z) (w : nat) :
  (length hashes < w)%nat → winnow hashes w = inr hashes.
Proof.
  intros Hlt. unfold winnow.
  by destruct (Nat.ltb_spec (length hashes) w); [|lia].
Qed.

Lemma winnow_long (hashes : list Z) (w : nat) :
  (1 ≤ w ≤ length hashes)%nat →
  ∃ selected,
    length selected = (length hashes - w + 1)%nat
    ∧ (∀ n m p, selected !! n = Some (m, p) →
         (n ≤ p)%nat ∧ leftmost_min (slice hashes n w) m (p - n))
    ∧ winnow hashes w = inr (keep_changes None (map fst selected)).
Proof.
  intros [Hw Hlen]. unfold winnow.
  destruct (Nat.ltb_spec (length hashes) w); [lia|].
  set (windows := map _ _).
  destruct (winnow_loop_spec windows 0 [])
    as (selected & out & Hout & Hsel & Hall & Hmap).
  { apply Forall_forall. intros window Hin. unfold windows in Hin.
    apply list_elem_of_fmap in Hin as (i & -> & Hi).
    apply elem_of_seq in Hi. intros Hnil.
    apply (f_equal length) in Hnil. rewrite slice_length in Hnil; simpl in *; lia. }
  exists selected. split.
  { rewrite Hsel. unfold windows. by rewrite length_map, length_seq. }
  split.
  - intros n m p Hn. destruct (Hall n m p Hn) as (window & Hwin & Hle & Hmin).
    unfold windows in Hwin. rewrite list_lookup_fmap in Hwin.
    destruct (seq 0 (length hashes - w + 1) !! n) as [i|] eqn:Hi; [|done].
    apply lookup_seq in Hi as [-> _]. simpl in *.
    injection Hwin as <-. done.
  - rewrite Hout. simpl. by rewrite Hmap.
Qed.

Lemma winnow_total (hashes : list Z) (w : nat) :
  (1 ≤ w)%nat → ∃ l, winnow hashes w = inr l.
Proof.
  intros Hw. destruct (decide (length hashes < w)%nat).
  - exists hashes. by apply winnow_short.
  - destruct (winnow_long hashes w) as (selected & _ & _ & ->); [lia|by eexists].
Qed.

(** A non-empty hash list has a non-empty fingerprint sequence. *)
Lemma winnow_nonempty (hashes l : list Z) (w : nat) :
  (1 ≤ w)%nat → hashes ≠ [] → winnow hashes w = inr l → l ≠ [].
Proof.
  intros Hw Hne. destruct (decide (length hashes < w)%nat).
  - rewrite winnow_short by done. by intros [= <-].
  - destruct (winnow_long hashes w) as (selected & Hlen & _ & ->); [lia|].
    intros [= <-]. destruct selected as [|[m p] selected]; [simpl in Hlen; lia|].
    done.
Qed.

Lemma py_div_nonzero (x y : Z) :
  y ≠ 0%Z → py_div x y = inr (Qc_of_Z x / Qc_of_Z y)%Qc.
Proof. intros Hy. unfold py_div. by rewrite decide_False. Qed.
End WinnowFacts.

Section CheckerFacts.
Variable md5 : list ascii → Z.

(** The fingerprint measure is the Jaccard similarity of the two
    winnowed fingerprint sets. *)
Lemma moss_jaccard self code1 code2 k w l1 l2 :
  winnow (get_kgram_hashes md5 (preprocess_cpp self code1) k) w = inr l1 →
  winnow (get_kgram_hashes md5 (preprocess_cpp self code2) k) w = inr l2 →
  calculate_moss_similarity md5 self code1 code2 k w
  = inr (jaccard (list_to_set l1) (list_to_set l2)).
Proof.
  intros H1 H2. unfold calculate_moss_similarity, jaccard.
  rewrite H1; simpl. rewrite H2; simpl.
  case_decide as Hempty; [done|].
  apply py_div_nonzero. intros Hz.
  assert (size (list_to_set l1 ∪ list_to_set l2 : gset Z) = 0%nat) as Hsz by lia.
  apply size_empty_iff in Hsz. apply Hempty. left.
  apply leibniz_equiv. set_solver.
Qed.

Lemma moss_total self code1 code2 k w :
  (1 ≤ w)%nat → ∃ q, calculate_moss_similarity md5 self code1 code2 k w = inr q.
Proof.
  intros Hw.
  destruct (winnow_total (get_kgram_hashes md5 (preprocess_cpp self code1) k) w Hw)
    as [l1 H1].
  destruct (winnow_total (get_kgram_hashes md5 (preprocess_cpp self code2) k) w Hw)
    as [l2 H2].
  eexists. by apply moss_jaccard.
Qed.

Lemma get_kgram_hashes_short code k :
  (length (split code) < k)%nat → get_kgram_hashes md5 code k = [].
Proof.
  intros Hlt. unfold get_kgram_hashes.
  by destruct (Nat.ltb_spec (length (split code)) k); [|lia].
Qed.

Lemma winnow_nil (w : nat) : (1 ≤ w)%nat → winnow [] w = inr [].
Proof. intros Hw. apply winnow_short. simpl. lia. Qed.

(** C6, as amended. Winnowing as designed: a hash list shorter than the window is its
    own fingerprint sequence; otherwise every sliding window of [w]
    consecutive hashes selects its minimum at the leftmost position where
    it stands, and a selected hash is appended only when it differs from
    the hash appended last; the fingerprint similarity is the Jaccard
    similarity of the two fingerprint sets, 0 when either is empty.  The
    window size is at least 1 (with [w = 0] the first window is empty and
    [min] raises). *)
Theorem winnow_as_specified self code1 code2 (k w : nat) (hashes : list Z) :
  (1 ≤ w)%nat →
  ((length hashes < w)%nat → winnow hashes w = inr hashes)
  ∧ ((w ≤ length hashes)%nat →
       ∃ selected,
         length selected = (length hashes - w + 1)%nat
         ∧ (∀ n m p, selected !! n = Some (m, p) →
              (n ≤ p)%nat ∧ leftmost_min (slice hashes n w) m (p - n))
         ∧ winnow hashes w = inr (keep_changes None (map fst selected)))
  ∧ (∃ l1 l2,
       winnow (get_kgram_hashes md5 (preprocess_cpp self code1) k) w = inr l1
       ∧ winnow (get_kgram_hashes md5 (preprocess_cpp self code2) k) w = inr l2
       ∧ calculate_moss_similarity md5 self code1 code2 k w
         = inr (if decide (list_to_set l1 = (∅ : gset Z)
                          ∨ list_to_set l2 = (∅ : gset Z))
                then 0%Qc
                else (Qc_of_Z (Z.of_nat (size (list_to_set l1 ∩ list_to_set l2 : gset Z)))
                      / Qc_of_Z (Z.of_nat (size (list_to_set l1 ∪ list_to_set l2 : gset Z))))%Qc)).
Proof.
  intros Hw. split; [apply winnow_short|]. split.
  - intros Hlen. apply winnow_long. lia.
  - destruct (winnow_total (get_kgram_hashes md5 (preprocess_cpp self code1) k) w Hw)
      as [l1 H1].
    destruct (winnow_total (get_kgram_hashes md5 (preprocess_cpp self code2) k) w Hw)
      as [l2 H2].
    exists l1, l2. split; [done|]. split; [done|].
    by rewrite (moss_jaccard _ _ _ _ _ l1 l2).
Qed.

(** C7. An input whose normalised text has fewer than [k] tokens, a blank
    input included, makes the fingerprint similarity 0 whatever the other
    input is and on whichever side it stands, and the measure returns
    rather than raises (window size at least 1). *)
Theorem short_input_moss_zero self code1 code2 (k w : nat) :
  (1 ≤ w)%nat →
  (length (split (preprocess_cpp self code1)) < k)%nat →
  calculate_moss_similarity md5 self code1 code2 k w = inr 0%Qc
  ∧ calculate_moss_similarity md5 self code2 code1 k w = inr 0%Qc.
Proof.
  intros Hw Hshort.
  pose proof (get_kgram_hashes_short _ _ Hshort) as Hnil.
  destruct (winnow_total (get_kgram_hashes md5 (preprocess_cpp self code2) k) w Hw)
    as [l2 H2].
  split.
  - rewrite (moss_jaccard _ _ _ _ _ [] l2); [|by rewrite Hnil, winnow_nil|done].
    unfold jaccard. rewrite decide_True; [done|by left].
  - rewrite (moss_jaccard _ _ _ _ _ l2 []); [|done|by rewrite Hnil, winnow_nil].
    unfold jaccard. rewrite decide_True; [done|by right].
Qed.
End CheckerFacts.

(** ** The structure measure *)

Lemma Qc_div_self (x : Z) : x ≠ 0%Z → (Qc_of_Z x / Qc_of_Z x)%Qc = 1%Qc.
Proof.
  intros Hx. apply Qcmult_inv_r. rewrite <-Z2Qc_inj_0. by intros ?%Z2Qc_inj.
Qed.

Lemma Qc_div_zero (y : Qc) : (Qc_of_Z 0 / y)%Qc = 0%Qc.
Proof. unfold Qcdiv. by rewrite Z2Qc_inj_0, Qcmult_0_l. Qed.

Lemma count_similarity_total (counter1 counter2 : gmultiset (list ascii)) :
  ∃ q, count_similarity counter1 counter2 = inr q.
Proof.
  unfold count_similarity. repeat case_decide; try by eexists.
  rewrite py_div_nonzero by lia. by eexists.
Qed.

Lemma count_similarity_refl (counter : gmultiset (list ascii)) :
  count_similarity counter counter = inr 1%Qc.
Proof.
  unfold count_similarity. case_decide as H1; [done|].
  case_decide as H2; [destruct H1; by destruct H2|].
  assert (size counter ≠ 0%nat) as Hsz.
  { rewrite gmultiset_size_empty_iff. tauto. }
  rewrite (idemp_L (∩)), (idemp_L (∪)).
  rewrite decide_True by lia.
  rewrite py_div_nonzero by lia. by rewrite Qc_div_self by lia.
Qed.

Lemma count_similarity_comm (counter1 counter2 : gmultiset (list ascii)) :
  count_similarity counter1 counter2 = count_similarity counter2 counter1.
Proof.
  unfold count_similarity.
  rewrite (comm_L (∩) counter1), (comm_L (∪) counter1).
  repeat case_decide; try done; tauto.
Qed.

Lemma control_loop_acc (ctrl1 ctrl2 : gmap (list ascii) Z) keys : ∀ acc,
  foldl (λ acc key,
           let val1 := default 0%Z (ctrl1 !! key) in
           let val2 := default 0%Z (ctrl2 !! key) in
           let max_val := Z.max val1 val2 in
           ((acc.1 + Z.abs (val1 - val2))%Z, (acc.2 + max_val)%Z)) acc keys
  = ((acc.1 + (control_loop ctrl1 ctrl2 keys).1)%Z,
     (acc.2 + (control_loop ctrl1 ctrl2 keys).2)%Z).
Proof.
  unfold control_loop.
  induction keys as [|key keys IH] using rev_ind; intros [d m]; simpl.
  - f_equal; lia.
  - rewrite !foldl_app. simpl. rewrite (IH (d, m)). simpl. f_equal; lia.
Qed.

Lemma control_loop_cons ctrl1 ctrl2 key keys :
  control_loop ctrl1 ctrl2 (key :: keys)
  = ((Z.abs (default 0 (ctrl1 !! key) - default 0 (ctrl2 !! key))
      + (control_loop ctrl1 ctrl2 keys).1)%Z,
     (Z.max (default 0 (ctrl1 !! key)) (default 0 (ctrl2 !! key))
      + (control_loop ctrl1 ctrl2 keys).2)%Z).
Proof. unfold control_loop at 1. simpl. by rewrite control_loop_acc. Qed.

Lemma control_loop_comm ctrl1 ctrl2 keys :
  control_loop ctrl1 ctrl2 keys = control_loop ctrl2 ctrl1 keys.
Proof.
  induction keys as [|key keys IH]; [done|].
  rewrite !control_loop_cons, IH. f_equal; lia.
Qed.

Lemma control_loop_refl ctrl keys : (control_loop ctrl ctrl keys).1 = 0%Z.
Proof.
  induction keys as [|key keys IH]; [done|].
  rewrite control_loop_cons; simpl. rewrite IH. lia.
Qed.

(** No counts but zeros: both sums are zero. *)
Lemma control_loop_zero ctrl1 ctrl2 keys :
  (∀ key v, ctrl1 !! key = Some v → v = 0%Z) →
  (∀ key v, ctrl2 !! key = Some v → v = 0%Z) →
  control_loop ctrl1 ctrl2 keys = (0%Z, 0%Z).
Proof.
  intros H1 H2. induction keys as [|key keys IH]; [done|].
  rewrite control_loop_cons, IH.
  assert (default 0%Z (ctrl1 !! key) = 0%Z) as ->.
  { destruct (ctrl1 !! key) eqn:E; [by eapply H1|done]. }
  assert (default 0%Z (ctrl2 !! key) = 0%Z) as ->.
  { destruct (ctrl2 !! key) eqn:E; [by eapply H2|done]. }
  done.
Qed.

Lemma control_similarity_total ctrl1 ctrl2 :
  ∃ q, control_similarity ctrl1 ctrl2 = inr q.
Proof.
  unfold control_similarity. case_decide; [by eexists|].
  destruct (control_loop _ _ _) as [d m].
  case_decide; [|by eexists].
  rewrite py_div_nonzero by lia. by eexists.
Qed.

Lemma control_similarity_refl ctrl : control_similarity ctrl ctrl = inr 1%Qc.
Proof.
  unfold control_similarity. case_decide; [done|].
  pose proof (control_loop_refl ctrl (elements (dom ctrl ∪ dom ctrl))) as Hd.
  destruct (control_loop _ _ _) as [d m]; simpl in Hd; subst d.
  assert ((1 - 0)%Qc = 1%Qc) as Hone by by apply Qc_is_canon.
  case_decide; simpl.
  - rewrite py_div_nonzero by lia. simpl. rewrite Qc_div_zero.
    unfold mret, M_ret. by rewrite Hone.
  - unfold mret, M_ret. by rewrite Hone.
Qed.

Lemma control_similarity_comm ctrl1 ctrl2 :
  control_similarity ctrl1 ctrl2 = control_similarity ctrl2 ctrl1.
Proof.
  unfold control_similarity.
  rewrite (comm_L (∪) (dom ctrl1)), control_loop_comm. done.
Qed.

Lemma tenths_sum_structure : (tenths 4 * 1 + tenths 3 * 1 + tenths 3 * 1)%Qc = 1%Qc.
Proof. by apply Qc_is_canon. Qed.

Lemma structure_similarity_total code1 code2 :
  ∃ q, calculate_structure_similarity code1 code2 = inr q.
Proof.
  unfold calculate_structure_similarity.
  destruct (count_similarity_total (functions (extract_structure code1))
              (functions (extract_structure code2))) as [f ->].
  destruct (count_similarity_total (classes (extract_structure code1))
              (classes (extract_structure code2))) as [c ->].
  destruct (control_similarity_total (control_structures (extract_structure code1))
              (control_structures (extract_structure code2))) as [x ->].
  by eexists.
Qed.

Lemma structure_similarity_refl code :
  calculate_structure_similarity code code = inr 1%Qc.
Proof.
  unfold calculate_structure_similarity.
  rewrite !count_similarity_refl, control_similarity_refl. simpl.
  unfold mret, M_ret. f_equal. apply tenths_sum_structure.
Qed.

Lemma structure_similarity_comm code1 code2 :
  calculate_structure_similarity code1 code2
  = calculate_structure_similarity code2 code1.
Proof.
  unfold calculate_structure_similarity.
  rewrite (count_similarity_comm (functions _)),
    (count_similarity_comm (classes _)),
    (control_similarity_comm (control_structures _)). done.
Qed.

(** The control map built by [extract_structure]. *)
Lemma control_structures_eq code :
  control_structures (extract_structure code)
  = <[py "case" := Z.of_nat (count_word (py "case") false code)]>
    (<[py "switch" := Z.of_nat (count_word (py "switch") false code)]>
    (<[py "while" := Z.of_nat (count_word (py "while") false code)]>
    (<[py "for" := Z.of_nat (count_word (py "for") false code)]>
    (<[py "else" := Z.of_nat (count_word (py "else") false code)]>
    (<[py "if" := Z.of_nat (count_word (py "if") false code)]> ∅))))).
Proof. reflexivity. Qed.

Lemma control_structures_dom code :
  dom (control_structures (extract_structure code))
  = (list_to_set control_keywords : gset (list ascii)).
Proof.
  rewrite control_structures_eq, !dom_insert_L, dom_empty_L.
  apply set_eq. intros key. unfold control_keywords.
  rewrite elem_of_list_to_set, !elem_of_union, !elem_of_singleton, elem_of_empty.
  cbn [map]. rewrite !elem_of_cons, elem_of_nil. tauto.
Qed.

Lemma control_keywords_NoDup : NoDup control_keywords.
Proof. apply (bool_decide_unpack (NoDup control_keywords)). by vm_compute. Qed.

Lemma control_structures_nonneg code key v :
  control_structures (extract_structure code) !! key = Some v → (0 ≤ v)%Z.
Proof.
  rewrite control_structures_eq.
  repeat (rewrite lookup_insert; case_decide; [intros [= <-]; lia|]).
  by rewrite lookup_empty.
Qed.

(** C10. The control map of every extracted profile has exactly the six
    keys if, else, for, while, switch, case, each with a count that is not
    negative; so the union of the keys of two profiles is never empty, the
    branch of [control_similarity] for an empty key set is not taken, the
    division is guarded, and the control similarity of any two inputs is
    defined; it is 1 when all counts are zero on both sides. *)
Theorem control_profile_six_keys code1 code2 :
  let ctrl1 := control_structures (extract_structure code1) in
  let ctrl2 := control_structures (extract_structure code2) in
  dom ctrl1 = (list_to_set control_keywords : gset (list ascii))
  ∧ size (dom ctrl1) = 6%nat
  ∧ (∀ key v, ctrl1 !! key = Some v → (0 ≤ v)%Z)
  ∧ dom ctrl1 ∪ dom ctrl2 ≠ ∅
  ∧ control_similarity ctrl1 ctrl2
    = (let '(differences, max_possible_diff) :=
         control_loop ctrl1 ctrl2 (elements (dom ctrl1 ∪ dom ctrl2)) in
       q ← (if decide (0 < max_possible_diff)%Z
            then py_div differences max_possible_diff else mret 0%Qc);
       mret (1 - q)%Qc)
  ∧ (∃ q, control_similarity ctrl1 ctrl2 = inr q)
  ∧ ((∀ key v, ctrl1 !! key = Some v → v = 0%Z) →
     (∀ key v, ctrl2 !! key = Some v → v = 0%Z) →
     control_similarity ctrl1 ctrl2 = inr 1%Qc).
Proof.
  intros ctrl1 ctrl2.
  assert (dom ctrl1 ∪ dom ctrl2 ≠ ∅) as Hne.
  { unfold ctrl1. rewrite control_structures_dom.
    intros Hempty. apply (f_equal size) in Hempty.
    rewrite size_empty in Hempty.
    assert (py "if" ∈ (list_to_set control_keywords ∪ dom ctrl2 : gset _)) as Hin.
    { apply elem_of_union_l, elem_of_list_to_set. by constructor. }
    apply size_empty_iff in Hempty. by rewrite Hempty in Hin. }
  split; [apply control_structures_dom|]. split.
  { unfold ctrl1. rewrite control_structures_dom.
    rewrite size_list_to_set by apply control_keywords_NoDup. done. }
  split; [apply control_structures_nonneg|]. split; [done|]. split.
  { unfold control_similarity. by rewrite decide_False. }
  split; [apply control_similarity_total|].
  intros H1 H2. unfold control_similarity. rewrite decide_False by done.
  rewrite control_loop_zero by done. simpl.
  unfold mret, M_ret. f_equal; by apply Qc_is_canon.
Qed.

(** ** The entry point *)

Lemma level_of_spec (x : Qc) :
  ((tenths 8 ≤ x)%Qc → level_of x = "Very High"%string)
  ∧ ((tenths 6 ≤ x)%Qc → (x < tenths 8)%Qc → level_of x = "High"%string)
  ∧ ((tenths 4 ≤ x)%Qc → (x < tenths 6)%Qc → level_of x = "Moderate"%string)
  ∧ ((tenths 2 ≤ x)%Qc → (x < tenths 4)%Qc → level_of x = "Low"%string)
  ∧ ((x < tenths 2)%Qc → level_of x = "Very Low"%string).
Proof.
  unfold level_of.
  repeat split; intros; repeat case_decide; try done;
    match goal with
    | H1 : (?a ≤ x)%Qc, H2 : (x < ?b)%Qc |- _ =>
        pose proof (Qcle_lt_trans _ _ _ H1 H2) as Hc; by vm_compute in Hc
    end.
Qed.

Section EntryPoint.
Variable md5 : list ascii → Z.

Lemma check_similarity_body_report self code1 code2 moss_sim structure_sim :
  calculate_moss_similarity md5 self code1 code2 5 10 = inr moss_sim →
  calculate_structure_similarity code1 code2 = inr structure_sim →
  check_similarity_body md5 self code1 code2
  = inr (report_of self code1 code2 moss_sim structure_sim).
Proof.
  intros Hm Hs. unfold check_similarity_body. rewrite Hm; simpl.
  by rewrite Hs.
Qed.

(** With the default k-gram and window sizes no component raises. *)
Lemma check_similarity_reports self code1 code2 :
  ∃ moss_sim structure_sim,
    calculate_moss_similarity md5 self code1 code2 5 10 = inr moss_sim
    ∧ calculate_structure_similarity code1 code2 = inr structure_sim
    ∧ check_similarity md5 self code1 code2
      = Report (report_of self code1 code2 moss_sim structure_sim).
Proof.
  destruct (moss_total md5 self code1 code2 5 10) as [m Hm]; [lia|].
  destruct (structure_similarity_total code1 code2) as [s Hs].
  exists m, s. split; [done|]. split; [done|].
  unfold check_similarity.
  by rewrite (check_similarity_body_report _ _ _ m s).
Qed.
End EntryPoint.

(** ** The aggregate in binary64 *)

#[local] Set Warnings "-inexact-float".

Lemma binary64_py_div_nonzero (x y : Z) :
  y ≠ 0%Z →
  Binary64.py_div x y = inr (Binary64.of_count x / Binary64.of_count y)%float.
Proof. intros Hy. unfold Binary64.py_div. by rewrite decide_False. Qed.

Lemma binary64_count_similarity_total (counter1 counter2 : gmultiset (list ascii)) :
  ∃ x, Binary64.count_similarity counter1 counter2 = inr x.
Proof.
  unfold Binary64.count_similarity. repeat case_decide; try by eexists.
  rewrite binary64_py_div_nonzero by lia. by eexists.
Qed.

Lemma binary64_control_similarity_total ctrl1 ctrl2 :
  ∃ x, Binary64.control_similarity ctrl1 ctrl2 = inr x.
Proof.
  unfold Binary64.control_similarity. case_decide; [by eexists|].
  destruct (control_loop _ _ _) as [d m].
  case_decide; [|by eexists].
  rewrite binary64_py_div_nonzero by lia. by eexists.
Qed.

Lemma binary64_structure_similarity_total code1 code2 :
  ∃ x, Binary64.calculate_structure_similarity code1 code2 = inr x.
Proof.
  unfold Binary64.calculate_structure_similarity.
  destruct (binary64_count_similarity_total (functions (extract_structure code1))
              (functions (extract_structure code2))) as [f ->].
  destruct (binary64_count_similarity_total (classes (extract_structure code1))
              (classes (extract_structure code2))) as [c ->].
  destruct (binary64_control_similarity_total
              (control_structures (extract_structure code1))
              (control_structures (extract_structure code2))) as [x ->].
  by eexists.
Qed.

Lemma binary64_moss_total md5 self code1 code2 k w :
  (1 ≤ w)%nat →
  ∃ x, Binary64.calculate_moss_similarity md5 self code1 code2 k w = inr x.
Proof.
  intros Hw. unfold Binary64.calculate_moss_similarity.
  destruct (winnow_total (get_kgram_hashes md5 (preprocess_cpp self code1) k) w Hw)
    as [l1 ->].
  destruct (winnow_total (get_kgram_hashes md5 (preprocess_cpp self code2) k) w Hw)
    as [l2 ->].
  simpl. case_decide as Hempty; [by eexists|].
  rewrite binary64_py_div_nonzero; [by eexists|]. intros Hz.
  assert (size (list_to_set l1 ∪ list_to_set l2 : gset Z) = 0%nat) as Hsz by lia.
  apply size_empty_iff in Hsz. apply Hempty. left.
  apply leibniz_equiv. set_solver.
Qed.

(** Comparison with a positive finite bound is monotone in the bound. *)
Lemma SFleb_bound_trans m1 e1 m2 e2 (x : spec_float) :
  SFleb (S754_finite false m1 e1) (S754_finite false m2 e2) = true →
  SFleb (S754_finite false m2 e2) x = true →
  SFleb (S754_finite false m1 e1) x = true.
Proof.
  unfold SFleb, SFcompare.
  change IntDef.Z.compare with Z.compare.
  change PosDef.Pos.compare_cont with Pos.compare_cont.
  change (Pos.compare_cont Eq) with Pos.compare.
  destruct x as [s|s| |s m e]; try done; try (by destruct s).
  destruct s; [done|].
  destruct (Z.compare_spec e1 e2), (Z.compare_spec e2 e), (Z.compare_spec e1 e);
    try lia; try done; subst.
  destruct (Pos.compare_spec m1 m2), (Pos.compare_spec m2 m), (Pos.compare_spec m1 m);
    try lia; done.
Qed.

Lemma at_least_weaken (low high x : float) m1 e1 m2 e2 :
  Prim2SF low = S754_finite false m1 e1 →
  Prim2SF high = S754_finite false m2 e2 →
  (low <=? high)%float = true →
  at_least high x → at_least low x.
Proof.
  unfold at_least. rewrite !leb_spec. intros -> ->. apply SFleb_bound_trans.
Qed.

Lemma at_least_6_of_8 x : at_least 0.8 x → at_least 0.6 x.
Proof. by eapply at_least_weaken. Qed.

Lemma at_least_4_of_6 x : at_least 0.6 x → at_least 0.4 x.
Proof. by eapply at_least_weaken. Qed.

Lemma at_least_2_of_4 x : at_least 0.4 x → at_least 0.2 x.
Proof. by eapply at_least_weaken. Qed.

(** The levels are the five intervals the bounds cut out, each bound
    belonging to the interval above it. *)
Lemma binary64_level_of_spec (x : float) :
  (Binary64.level_of x = "Very High"%string ↔ at_least 0.8 x)
  ∧ (Binary64.level_of x = "High"%string ↔ at_least 0.6 x ∧ ¬ at_least 0.8 x)
  ∧ (Binary64.level_of x = "Moderate"%string ↔ at_least 0.4 x ∧ ¬ at_least 0.6 x)
  ∧ (Binary64.level_of x = "Low"%string ↔ at_least 0.2 x ∧ ¬ at_least 0.4 x)
  ∧ (Binary64.level_of x = "Very Low"%string ↔ ¬ at_least 0.2 x).
Proof.
  pose proof (at_least_6_of_8 x) as H86.
  pose proof (at_least_4_of_6 x) as H64.
  pose proof (at_least_2_of_4 x) as H42.
  unfold Binary64.level_of, at_least in *.
  destruct (0.8 <=? x)%float, (0.6 <=? x)%float, (0.4 <=? x)%float,
    (0.2 <=? x)%float; intuition (try discriminate; auto).
Qed.

Section Aggregate.
Variable md5 : list ascii → Z.

(** C8. The report carries the three measures' scores and the aggregate
    [0.5 * moss_sim + 0.3 * structure_sim + 0.2 * line_sim] of exactly
    these scores, computed in binary64 from left to right; its level is
    "Very High" from 0.8, "High" from 0.6, "Moderate" from 0.4, "Low" from
    0.2 and "Very Low" below, every bound belonging to the level it
    opens. *)
Theorem aggregate_and_level self code1 code2 :
  ∃ (moss_sim structure_sim : float) (r : Binary64.report),
    Binary64.calculate_moss_similarity md5 self code1 code2 5 10 = inr moss_sim
    ∧ Binary64.calculate_structure_similarity code1 code2 = inr structure_sim
    ∧ Binary64.check_similarity md5 self code1 code2 = Binary64.Report r
    ∧ Binary64.report_details r
      = {| Binary64.moss_similarity := moss_sim;
           Binary64.structure_similarity := structure_sim;
           Binary64.line_similarity :=
             Binary64.calculate_line_similarity self code1 code2 |}
    ∧ let overall := Binary64.overall_similarity (Binary64.report_summary r) in
      let level := Binary64.similarity_level (Binary64.report_summary r) in
      overall
      = (0.5 * moss_sim + 0.3 * structure_sim
         + 0.2 * Binary64.calculate_line_similarity self code1 code2)%float
      ∧ (level = "Very High"%string ↔ at_least 0.8 overall)
      ∧ (level = "High"%string ↔ at_least 0.6 overall ∧ ¬ at_least 0.8 overall)
      ∧ (level = "Moderate"%string ↔ at_least 0.4 overall ∧ ¬ at_least 0.6 overall)
      ∧ (level = "Low"%string ↔ at_least 0.2 overall ∧ ¬ at_least 0.4 overall)
      ∧ (level = "Very Low"%string ↔ ¬ at_least 0.2 overall).
Proof.
  destruct (binary64_moss_total md5 self code1 code2 5 10) as [m Hm]; [lia|].
  destruct (binary64_structure_similarity_total code1 code2) as [s Hs].
  exists m, s. eexists. split; [done|]. split; [done|]. split.
  { unfold Binary64.check_similarity, Binary64.check_similarity_body.
    rewrite Hm; simpl. rewrite Hs; simpl. reflexivity. }
  simpl. split; [done|]. split; [done|]. apply binary64_level_of_spec.
Qed.
End Aggregate.
#[local] Set Warnings "inexact-float".

(** ** Faults and the entry point *)

Section Faults.
Variable digest : list ascii → M Z.

Lemma hash_all_returns kgrams :
  first_failure digest kgrams = None →
  Raising.hash_all digest kgrams = inr (map (digest_value digest) kgrams).
Proof.
  induction kgrams as [|g kgrams IH]; simpl; [done|].
  unfold digest_value at 1. destruct (digest g) as [e|h]; [done|].
  intros Hrest. simpl. by rewrite IH.
Qed.

Lemma hash_all_raises kgrams e :
  first_failure digest kgrams = Some e → Raising.hash_all digest kgrams = inl e.
Proof.
  induction kgrams as [|g kgrams IH]; simpl; [done|].
  destruct (digest g) as [e'|h]; [by intros [= ->]|].
  intros Hrest. simpl. by rewrite IH.
Qed.

Lemma first_failure_app kgrams1 kgrams2 :
  first_failure digest (kgrams1 ++ kgrams2)
  = match first_failure digest kgrams1 with
    | Some e => Some e
    | None => first_failure digest kgrams2
    end.
Proof.
  induction kgrams1 as [|g kgrams1 IH]; simpl; [done|].
  by destruct (digest g).
Qed.

Lemma raising_get_kgram_hashes_returns code k :
  first_failure digest (kgrams_of code k) = None →
  Raising.get_kgram_hashes digest code k
  = inr (get_kgram_hashes (digest_value digest) code k).
Proof.
  unfold kgrams_of, Raising.get_kgram_hashes, get_kgram_hashes.
  destruct (length (split code) <? k)%nat; [done|]. apply hash_all_returns.
Qed.

Lemma raising_get_kgram_hashes_raises code k e :
  first_failure digest (kgrams_of code k) = Some e →
  Raising.get_kgram_hashes digest code k = inl e.
Proof.
  unfold kgrams_of, Raising.get_kgram_hashes.
  destruct (length (split code) <? k)%nat; [done|]. apply hash_all_raises.
Qed.

Lemma raising_moss_returns self code1 code2 k w :
  first_failure digest (kgrams_of (preprocess_cpp self code1) k
                        ++ kgrams_of (preprocess_cpp self code2) k) = None →
  Raising.calculate_moss_similarity digest self code1 code2 k w
  = calculate_moss_similarity (digest_value digest) self code1 code2 k w.
Proof.
  rewrite first_failure_app.
  destruct (first_failure digest (kgrams_of (preprocess_cpp self code1) k))
    eqn:H1; [done|].
  intros H2. unfold Raising.calculate_moss_similarity, calculate_moss_similarity.
  rewrite (raising_get_kgram_hashes_returns _ _ H1),
    (raising_get_kgram_hashes_returns _ _ H2). done.
Qed.

Lemma raising_moss_raises self code1 code2 k w e :
  first_failure digest (kgrams_of (preprocess_cpp self code1) k
                        ++ kgrams_of (preprocess_cpp self code2) k) = Some e →
  Raising.calculate_moss_similarity digest self code1 code2 k w = inl e.
Proof.
  rewrite first_failure_app.
  destruct (first_failure digest (kgrams_of (preprocess_cpp self code1) k))
    as [e1|] eqn:H1.
  - intros [= ->]. unfold Raising.calculate_moss_similarity.
    by rewrite (raising_get_kgram_hashes_raises _ _ _ H1).
  - intros H2. unfold Raising.calculate_moss_similarity.
    rewrite (raising_get_kgram_hashes_returns _ _ H1),
      (raising_get_kgram_hashes_raises _ _ _ H2). done.
Qed.

Lemma raising_check_similarity_returns self code1 code2 :
  first_failure digest (kgrams_of (preprocess_cpp self code1) 5
                        ++ kgrams_of (preprocess_cpp self code2) 5) = None →
  ∃ r, Raising.check_similarity_body digest self code1 code2 = inr r
       ∧ Raising.check_similarity digest self code1 code2 = Report r
       ∧ check_similarity (digest_value digest) self code1 code2 = Report r.
Proof.
  intros Hnone.
  destruct (check_similarity_reports (digest_value digest) self code1 code2)
    as (m & s & Hm & Hs & Hr).
  exists (report_of self code1 code2 m s).
  assert (Raising.check_similarity_body digest self code1 code2
          = inr (report_of self code1 code2 m s)) as Hbody.
  { unfold Raising.check_similarity_body.
    rewrite (raising_moss_returns _ _ _ _ _ Hnone), Hm; simpl. by rewrite Hs. }
  split; [done|]. split; [|done].
  unfold Raising.check_similarity. by rewrite Hbody.
Qed.

(** C9. The entry point returns a result for every pair of inputs and
    every behaviour of the hashing step.  When no k-gram of the two
    normalised texts makes the digest raise, the [try] block returns a
    report and the entry point returns this report, the one computed with
    the digest's values.  When the digest raises, the exception of the
    first failing k-gram (those of the first text before those of the
    second) leaves the fingerprint measure and the [try] block as it is,
    and only the entry point turns it into the result that carries its
    message. *)
Theorem check_similarity_never_raises self code1 code2 :
  let kgrams :=
    kgrams_of (preprocess_cpp self code1) 5
    ++ kgrams_of (preprocess_cpp self code2) 5 in
  (first_failure digest kgrams = None →
     ∃ r, Raising.check_similarity_body digest self code1 code2 = inr r
          ∧ Raising.check_similarity digest self code1 code2 = Report r
          ∧ check_similarity (digest_value digest) self code1 code2 = Report r)
  ∧ (∀ e, first_failure digest kgrams = Some e →
       Raising.calculate_moss_similarity digest self code1 code2 5 10 = inl e
       ∧ Raising.check_similarity_body digest self code1 code2 = inl e
       ∧ Raising.check_similarity digest self code1 code2 = Error (str_exn e)).
Proof.
  intros kgrams. split.
  - intros Hnone.
    destruct (raising_check_similarity_returns self code1 code2 Hnone)
      as (r & Hbody & Hentry & Hplain).
    by exists r.
  - intros e Hsome.
    pose proof (raising_moss_raises self code1 code2 5 10 e Hsome) as Hmoss.
    assert (Raising.check_similarity_body digest self code1 code2 = inl e) as Hbody.
    { unfold Raising.check_similarity_body. by rewrite Hmoss. }
    split; [done|]. split; [done|].
    unfold Raising.check_similarity. by rewrite Hbody.
Qed.
End Faults.

(** A digest that never raises gives the entry point over plain hash
    values. *)
Lemma check_similarity_total_digest (md5 : list ascii → Z) self code1 code2 :
  Raising.check_similarity (λ kgram, mret (md5 kgram)) self code1 code2
  = check_similarity md5 self code1 code2.
Proof.
  assert (∀ kgrams, first_failure (λ kgram, mret (md5 kgram)) kgrams = None) as Hnone.
  { induction kgrams as [|g kgrams IH]; [done|]. simpl. apply IH. }
  destruct (raising_check_similarity_returns (λ kgram, mret (md5 kgram))
              self code1 code2 (Hnone _)) as (r & _ & -> & <-).
  done.
Qed.

(** ** Identical inputs, symmetry and segments *)

Lemma jaccard_refl (X : gset Z) : X ≠ ∅ → jaccard X X = 1%Qc.
Proof.
  intros Hne. unfold jaccard. rewrite decide_False by tauto.
  rewrite (idemp_L (∩)), (idemp_L (∪)). apply Qc_div_self.
  intros Hz. apply Hne, leibniz_equiv, size_empty_iff. lia.
Qed.

Lemma jaccard_comm (X Y : gset Z) : jaccard X Y = jaccard Y X.
Proof.
  unfold jaccard. rewrite (comm_L (∩) X), (comm_L (∪) X).
  repeat case_decide; try done; tauto.
Qed.

Lemma list_to_set_nonempty (l : list Z) : l ≠ [] → (list_to_set l : gset Z) ≠ ∅.
Proof. destruct l as [|x l]; [done|]. intros _. simpl. set_solver. Qed.

(** With [ignore_whitespace] set there is one line on each side, so no
    block is two lines long. *)
Lemma no_segments_when_whitespace_ignored self code1 code2 min_length :
  ignore_whitespace self = true → (2 ≤ min_length)%nat →
  identify_similar_segments self code1 code2 min_length = [].
Proof.
  intros Hws Hmin. unfold identify_similar_segments.
  rewrite !preprocess_one_line by done. rewrite matching_blocks_singleton.
  case_decide; rewrite !filter_cons_False by (simpl; lia); done.
Qed.

Lemma line_similarity_one_line self code1 code2 :
  ignore_whitespace self = true →
  calculate_line_similarity self code1 code2
  = if decide (preprocess_cpp self code1 = preprocess_cpp self code2)
    then 1%Qc else 0%Qc.
Proof.
  intros Hws. unfold calculate_line_similarity.
  rewrite !preprocess_one_line by done. apply sequence_ratio_singleton.
Qed.

Lemma line_similarity_comm self code1 code2 :
  ignore_whitespace self = true →
  calculate_line_similarity self code1 code2
  = calculate_line_similarity self code2 code1.
Proof.
  intros Hws. rewrite !line_similarity_one_line by done.
  repeat case_decide; congruence.
Qed.

Lemma tenths_sum_overall : (tenths 5 * 1 + tenths 3 * 1 + tenths 2 * 1)%Qc = 1%Qc.
Proof. by apply Qc_is_canon. Qed.

(** In binary64 arithmetic, left to right as Python evaluates them, the
    weighted sums of the scores 1, 1, 1 and 0, 1, 1 are exactly 1, 1 and
    0.5. *)
#[local] Set Warnings "-inexact-float".
Lemma binary64_weighted_sums :
  PrimFloat.eqb (0.5 * 1 + 0.3 * 1 + 0.2 * 1)%float 1%float = true
  ∧ PrimFloat.eqb (0.4 * 1 + 0.3 * 1 + 0.3 * 1)%float 1%float = true
  ∧ PrimFloat.eqb (0.5 * 0 + 0.3 * 1 + 0.2 * 1)%float 0.5%float = true.
Proof. repeat split; reflexivity. Qed.
#[local] Set Warnings "inexact-float".

Lemma level_of_one : level_of 1 = "Very High"%string.
Proof. by apply level_of_spec. Qed.

Section Comparisons.
Variable md5 : list ascii → Z.

Lemma get_kgram_hashes_nonempty code k :
(k ≤ length (split code))%nat → get_kgram_hashes md5 code k ≠ [].
Proof.
intros Hk. unfold get_kgram_hashes.
destruct (Nat.ltb_spec (length (split code)) k); [lia|].
replace (length (split code) - k + 1)%nat
  with (S (length (split code) - k)) by lia.
done.
Qed.

Lemma moss_identical self code k w :
(1 ≤ w)%nat → (k ≤ length (split (preprocess_cpp self code)))%nat →
calculate_moss_similarity md5 self code code k w = inr 1%Qc.
Proof.
intros Hw Hk.
destruct (winnow_total (get_kgram_hashes md5 (preprocess_cpp self code) k) w Hw)
  as [l Hl].
rewrite (moss_jaccard md5 _ _ _ _ _ l l) by done.
rewrite jaccard_refl; [done|]. apply list_to_set_nonempty.
eapply winnow_nonempty; [done| |done]. by apply get_kgram_hashes_nonempty.
Qed.

Lemma moss_comm self code1 code2 k w :
(1 ≤ w)%nat →
calculate_moss_similarity md5 self code1 code2 k w
= calculate_moss_similarity md5 self code2 code1 k w.
Proof.
intros Hw.
destruct (winnow_total (get_kgram_hashes md5 (preprocess_cpp self code1) k) w Hw)
  as [l1 H1].
destruct (winnow_total (get_kgram_hashes md5 (preprocess_cpp self code2) k) w Hw)
  as [l2 H2].
rewrite (moss_jaccard md5 _ _ _ _ _ l1 l2), (moss_jaccard md5 _ _ _ _ _ l2 l1)
  by done.
by rewrite jaccard_comm.
Qed.

(** C1, as amended. Identical inputs whose normalised text has at least
    five tokens (the k-gram size) score 1 on all three measures under the
    default configuration, overall 1, level Very High. *)
Theorem identical_inputs_default code :
  (5 ≤ length (split (preprocess_cpp init code)))%nat →
  ∃ r,
    check_similarity md5 init code code = Report r
    ∧ report_details r
      = {| moss_similarity := 1%Qc; structure_similarity := 1%Qc;
           line_similarity := 1%Qc |}
    ∧ report_summary r
      = {| similarity_level := "Very High"; overall_similarity := 1%Qc |}.
Proof.
  intros Hlen.
  destruct (check_similarity_reports md5 init code code) as (m & s & Hm & Hs & ->).
  rewrite moss_identical in Hm by (done || lia).
  rewrite structure_similarity_refl in Hs.
  injection Hm as <-. injection Hs as <-.
  eexists. split; [done|]. unfold report_of; simpl.
  rewrite line_similarity_one_line, decide_True by done.
  by rewrite tenths_sum_overall, level_of_one.
Qed.

(** Identical inputs with fewer than five tokens: the fingerprint set is
    empty and the fingerprint score is 0. *)
Lemma identical_short_inputs_default code :
  (length (split (preprocess_cpp init code)) < 5)%nat →
  ∃ r,
    check_similarity md5 init code code = Report r
    ∧ report_details r
      = {| moss_similarity := 0%Qc; structure_similarity := 1%Qc;
           line_similarity := 1%Qc |}
    ∧ report_summary r
      = {| similarity_level := "Moderate"; overall_similarity := tenths 5 |}.
Proof.
  intros Hlen.
  destruct (check_similarity_reports md5 init code code) as (m & s & Hm & Hs & ->).
  destruct (winnow_total (get_kgram_hashes md5 (preprocess_cpp init code) 5) 10)
    as [l Hl]; [lia|].
  rewrite (moss_jaccard md5 _ _ _ _ _ l l) in Hm by done.
  rewrite get_kgram_hashes_short, winnow_nil in Hl by (done || lia).
  injection Hl as <-. rewrite structure_similarity_refl in Hs.
  injection Hm as <-. injection Hs as <-.
  assert (jaccard ∅ ∅ = 0%Qc) as ->.
  { unfold jaccard. rewrite decide_True; [done|by left]. }
  eexists. split; [done|]. unfold report_of; simpl.
  rewrite line_similarity_one_line, decide_True by done.
  assert ((tenths 5 * 0 + tenths 3 * 1 + tenths 2 * 1)%Qc = tenths 5) as ->
    by by apply Qc_is_canon.
  assert (level_of (tenths 5) = "Moderate"%string) as ->; [|done].
  apply level_of_spec; by vm_compute.
Qed.

(** C5, as amended. The fingerprint and structure scores of (A, B) and
  (B, A) are equal under every configuration; with [ignore_whitespace]
  set, as in the default configuration, so are the line score, the
  overall score and the level. *)
Theorem comparison_symmetric self codeA codeB :
∃ r1 r2,
  check_similarity md5 self codeA codeB = Report r1
  ∧ check_similarity md5 self codeB codeA = Report r2
  ∧ moss_similarity (report_details r1) = moss_similarity (report_details r2)
  ∧ structure_similarity (report_details r1)
    = structure_similarity (report_details r2)
  ∧ (ignore_whitespace self = true →
     report_details r1 = report_details r2
     ∧ report_summary r1 = report_summary r2).
Proof.
destruct (check_similarity_reports md5 self codeA codeB)
  as (m1 & s1 & Hm1 & Hs1 & ->).
destruct (check_similarity_reports md5 self codeB codeA)
  as (m2 & s2 & Hm2 & Hs2 & ->).
rewrite moss_comm, Hm2 in Hm1 by lia.
rewrite structure_similarity_comm, Hs2 in Hs1.
injection Hm1 as <-. injection Hs1 as <-.
eexists _, _. split; [done|]. split; [done|].
split; [done|]. split; [done|].
intros Hws. unfold report_of; simpl.
by rewrite (line_similarity_comm self codeA codeB).
Qed.
End Comparisons.

(** ** Renormalising a normalised text *)

Lemma tokenize_lexemes code : ∀ skip counter identifier_map,
  tokenize skip code counter identifier_map
  = map text (rename (lexemes skip code) counter identifier_map).
Proof.
  induction code as [|char rest IH]; intros skip counter idmap; simpl; [done|].
  destruct skip as [|k]; [|apply IH].
  destruct (isalpha char || Ascii.eqb char "_").
  { simpl. destruct (is_keyword _); simpl; [by rewrite IH|].
    destruct (idmap !! _); simpl; by rewrite IH. }
  destruct (isdigit char); [simpl; by rewrite IH|].
  destruct (isquote char); simpl; by rewrite IH.
Qed.

(** *** Character classes *)

Lemma isspace_not_word c : isspace c = true → isword c = false.
Proof. each_char c. Qed.

Lemma isspace_not_start c :
  isspace c = true →
  isalpha c || Ascii.eqb c "_" = false ∧ isdigit c = false ∧ isquote c = false.
Proof. each_char c; intros _; by vm_compute. Qed.

Lemma isoperator_not_word c : isoperator c = true → isword c = false.
Proof. each_char c. Qed.

Lemma isoperator_not_space c : isoperator c = true → isspace c = false.
Proof. each_char c. Qed.

Lemma isoperator_not_start c :
  isoperator c = true →
  isalpha c || Ascii.eqb c "_" = false ∧ isdigit c = false ∧ isquote c = false.
Proof. each_char c; intros _; by vm_compute. Qed.

Lemma start_isword c : isalpha c || Ascii.eqb c "_" = true → isword c = true.
Proof. each_char c. Qed.

Lemma isdecimal_isword c : isdecimal c = true → isword c = true.
Proof. each_char c. Qed.

(** *** Unfolding the scans *)

Lemma re_sub_skip m code : ∀ skip, re_sub m skip code = re_sub m 0 (drop skip code).
Proof.
  induction code as [|c rest IH]; intros [|k]; simpl; done.
Qed.

Lemma re_sub_match m c rest repl n :
  m (c :: rest) = Some (repl, S n) →
  re_sub m 0 (c :: rest) = repl ++ re_sub m 0 (drop n rest).
Proof. intros Hm. simpl. by rewrite Hm, re_sub_skip. Qed.

Lemma re_sub_copy m c rest :
  m (c :: rest) = None → re_sub m 0 (c :: rest) = c :: re_sub m 0 rest.
Proof. intros Hm. simpl. by rewrite Hm. Qed.

Lemma lexemes_skip code : ∀ skip, lexemes skip code = lexemes 0 (drop skip code).
Proof.
  induction code as [|c rest IH]; intros [|k]; simpl; done.
Qed.

Lemma take_while_app_stop {A} (p : A → bool) (l rest : list A) :
  Forall (λ x, p x = true) l →
  (∀ x, head rest = Some x → p x = false) →
  take_while p (l ++ rest) = l.
Proof.
  intros Hl Hstop. induction Hl as [|x l Hx Hl IH]; simpl.
  - destruct rest as [|y rest]; [done|]. simpl. by rewrite Hstop.
  - by rewrite Hx, IH.
Qed.

Lemma take_while_stops {A} (p : A → bool) (l : list A) x :
  head (drop (length (take_while p l)) l) = Some x → p x = false.
Proof.
  induction l as [|y l IH]; simpl; [done|].
  destruct (p y) eqn:Hy; simpl; [done|]. by intros [= <-].
Qed.

Lemma lexemes_word word rest :
  word_shaped word →
  (∀ x, head rest = Some x → isword x = false) →
  lexemes 0 (word ++ rest) = Word word :: lexemes 0 rest.
Proof.
  destruct word as [|c word]; [done|]. intros [Hc Hword] Hstop. simpl.
  rewrite Hc, (start_isword c Hc).
  rewrite take_while_app_stop by done. simpl.
  by rewrite lexemes_skip, drop_app_length.
Qed.

Lemma lexemes_lone c rest :
  lone c → lexemes 0 (c :: rest) = Chr c :: lexemes 0 rest.
Proof. intros (H1 & H2 & H3). simpl. by rewrite H1, H2, H3. Qed.

Lemma lexemes_spaces run rest :
  Forall (λ c, isspace c = true) run →
  lexemes 0 (run ++ rest) = map Chr run ++ lexemes 0 rest.
Proof.
  induction 1 as [|c run Hc Hrun IH]; simpl; [done|].
  destruct (isspace_not_start c Hc) as (-> & -> & ->). by rewrite <-IH.
Qed.

Lemma filter_solid_spaces run units :
  Forall (λ c, isspace c = true) run →
  filter solid (map Chr run ++ units) = filter solid units.
Proof.
  induction 1 as [|c run Hc Hrun IH]; simpl; [done|].
  rewrite filter_cons_False; [done|]. simpl. rewrite Hc. by intros [].
Qed.

(** The text starts with a word, or with a literal, or with a lone
    character. *)
Lemma lexemes_cases c rest :
  (isalpha c || Ascii.eqb c "_" = true
   ∧ lexemes 0 (c :: rest)
     = Word (c :: take_while isword rest)
       :: lexemes 0 (drop (length (take_while isword rest)) rest))
  ∨ (∃ unit units, ¬ plain unit ∧ lexemes 0 (c :: rest) = unit :: units)
  ∨ (lone c ∧ lexemes 0 (c :: rest) = Chr c :: lexemes 0 rest).
Proof.
  simpl. destruct (isalpha c || Ascii.eqb c "_") eqn:Hstart.
  - left. split; [done|]. rewrite (start_isword c Hstart). simpl.
    by rewrite lexemes_skip.
  - destruct (isdigit c) eqn:Hdigit.
    { right; left. eexists Num, _. by split; [intros []|]. }
    destruct (isquote c) eqn:Hquote.
    { right; left. eexists Str, _. by split; [intros []|]. }
    right; right. by repeat split.
Qed.

(** *** The whitespace stage leaves the solid lexical units alone *)

Lemma whitespace_run_space c rest :
  isspace c = true →
  re_sub whitespace_run 0 (c :: rest)
  = " " :: re_sub whitespace_run 0 (drop (length (take_while isspace rest)) rest).
Proof.
  intros Hc.
  rewrite (re_sub_match _ _ _ [" "] (length (take_while isspace rest))); [done|].
  unfold whitespace_run. simpl. by rewrite Hc.
Qed.

Lemma whitespace_run_other c rest :
  isspace c = false →
  re_sub whitespace_run 0 (c :: rest) = c :: re_sub whitespace_run 0 rest.
Proof.
  intros Hc. apply re_sub_copy. unfold whitespace_run. simpl. by rewrite Hc.
Qed.

Lemma whitespace_run_head rest x :
  (∀ y, head rest = Some y → isword y = false) →
  head (re_sub whitespace_run 0 rest) = Some x → isword x = false.
Proof.
  destruct rest as [|c rest]; [done|]. intros Hstop.
  destruct (isspace c) eqn:Hc.
  - rewrite whitespace_run_space by done. by intros [= <-].
  - rewrite whitespace_run_other by done. intros [= <-]. by apply Hstop.
Qed.

Lemma whitespace_run_word word rest :
  Forall (λ x, isword x = true) word →
  re_sub whitespace_run 0 (word ++ rest) = word ++ re_sub whitespace_run 0 rest.
Proof.
  induction 1 as [|c word Hc Hword IH]; [done|].
  rewrite <-app_comm_cons, whitespace_run_other, IH; [done|].
  destruct (isspace c) eqn:Hs; [|done].
  apply isspace_not_word in Hs. congruence.
Qed.

Lemma plain_tail unit units : Forall plain (unit :: units) → Forall plain units.
Proof. by intros [_ ?]%Forall_cons. Qed.

Lemma word_shaped_take c rest :
  isalpha c || Ascii.eqb c "_" = true → word_shaped (c :: take_while isword rest).
Proof. intros Hc. split; [done|apply take_while_Forall]. Qed.

(** [\s+] replaced by one space: the solid lexical units stay. *)
Lemma whitespace_run_solid n : ∀ code,
  (length code ≤ n)%nat →
  Forall plain (lexemes 0 code) →
  filter solid (lexemes 0 (re_sub whitespace_run 0 code))
  = filter solid (lexemes 0 code).
Proof.
  induction n as [|n IH]; intros [|c rest] Hlen Hplain; simpl in Hlen;
    [done|lia|done|].
  destruct (isspace c) eqn:Hspace.
  - rewrite whitespace_run_space by done.
    assert (lone " ") as Hlone by by vm_compute.
    rewrite lexemes_lone, filter_cons_False by (done || by vm_compute).
    set (k := length (take_while isspace rest)).
    assert (c :: rest = (c :: take_while isspace rest) ++ drop k rest) as Hsplit.
    { unfold k. simpl. by rewrite take_while_prefix. }
    assert (Forall (λ x, isspace x = true) (c :: take_while isspace rest)) as Hrun.
    { constructor; [done|apply take_while_Forall]. }
    rewrite Hsplit, lexemes_spaces in Hplain |- * by done.
    rewrite filter_solid_spaces by done.
    apply IH; [rewrite length_drop; lia|].
    by apply Forall_app in Hplain as [_ ?].
  - destruct (lexemes_cases c rest) as [[Hstart Hlex]|[(u & us & Hu & Hlex)|[Hlone Hlex]]].
    + set (k := length (take_while isword rest)) in *.
      assert (c :: rest = (c :: take_while isword rest) ++ drop k rest) as Hsplit.
      { unfold k. simpl. by rewrite take_while_prefix. }
      rewrite Hlex in Hplain |- *.
      rewrite Hsplit, whitespace_run_word.
      2:{ constructor; [by apply start_isword|apply take_while_Forall]. }
      rewrite lexemes_word.
      2:{ by apply word_shaped_take. }
      2:{ intros x. apply whitespace_run_head. intros y. apply take_while_stops. }
      rewrite !filter_cons_True by done. f_equal.
      apply IH; [rewrite length_drop; lia|by apply plain_tail in Hplain].
    + rewrite Hlex in Hplain. by apply Forall_cons in Hplain as [? _].
    + rewrite whitespace_run_other by done.
      rewrite Hlex in Hplain |- *. rewrite lexemes_lone by done.
      rewrite !filter_cons. case_decide; [f_equal|];
        (apply IH; [lia|by apply plain_tail in Hplain]).
Qed.

Lemma re_sub_match_at m code repl n :
  (1 ≤ n)%nat → m code = Some (repl, n) → code ≠ [] →
  re_sub m 0 code = repl ++ re_sub m 0 (drop n code).
Proof.
  intros Hn Hm Hne. destruct code as [|c rest]; [done|].
  destruct n as [|n]; [lia|]. by rewrite (re_sub_match _ _ _ _ _ Hm).
Qed.

Lemma spaced_operator_at run d rest :
  Forall (λ c, isspace c = true) run → isoperator d = true →
  re_sub spaced_operator 0 (run ++ d :: rest)
  = d :: re_sub spaced_operator 0 (drop (length (take_while isspace rest)) rest).
Proof.
  intros Hrun Hd.
  rewrite (re_sub_match_at _ _ [d]
             (length run + 1 + length (take_while isspace rest))).
  - simpl. f_equal. f_equal.
    rewrite drop_app_ge by lia.
    replace (length run + 1 + length (take_while isspace rest) - length run)%nat
      with (S (length (take_while isspace rest))) by lia.
    done.
  - lia.
  - unfold spaced_operator. rewrite take_while_app_stop; [|done|].
    + by rewrite drop_app_length, Hd.
    + intros x [= <-]. by apply isoperator_not_space.
  - by destruct run.
Qed.

Lemma spaced_operator_spec code repl n :
  spaced_operator code = Some (repl, n) →
  ∃ run d rest,
    code = run ++ d :: rest ∧ Forall (λ c, isspace c = true) run
    ∧ isoperator d = true ∧ repl = [d].
Proof.
  unfold spaced_operator.
  pose proof (take_while_prefix isspace code) as Hsplit.
  destruct (drop _ code) as [|d rest] eqn:Hdrop; [done|].
  destruct (isoperator d) eqn:Hd; [|done]. intros [= <- _].
  exists (take_while isspace code), d, rest.
  split; [done|]. split; [apply take_while_Forall|done].
Qed.

Lemma spaced_operator_word word rest :
  Forall (λ x, isword x = true) word →
  re_sub spaced_operator 0 (word ++ rest) = word ++ re_sub spaced_operator 0 rest.
Proof.
  induction 1 as [|c word Hc Hword IH]; [done|].
  rewrite <-app_comm_cons, re_sub_copy, IH; [done|].
  unfold spaced_operator. simpl.
  destruct (isspace c) eqn:Hs; [apply isspace_not_word in Hs; congruence|].
  simpl. destruct (isoperator c) eqn:Ho; [|done].
  apply isoperator_not_word in Ho. congruence.
Qed.

Lemma spaced_operator_head rest x :
  (∀ y, head rest = Some y → isword y = false) →
  head (re_sub spaced_operator 0 rest) = Some x → isword x = false.
Proof.
  destruct rest as [|c rest]; [done|]. intros Hstop. simpl.
  destruct (spaced_operator (c :: rest)) as [[repl n]|] eqn:Hm.
  - apply spaced_operator_spec in Hm as (run & d & rest' & _ & _ & Hd & ->).
    intros [= <-]. by apply isoperator_not_word.
  - intros [= <-]. by apply Hstop.
Qed.

(** Whitespace around an operator removed: the solid lexical units stay. *)
Lemma spaced_operator_solid n : ∀ code,
  (length code ≤ n)%nat →
  Forall plain (lexemes 0 code) →
  filter solid (lexemes 0 (re_sub spaced_operator 0 code))
  = filter solid (lexemes 0 code).
Proof.
  induction n as [|n IH]; intros [|c rest] Hlen Hplain; simpl in Hlen;
    [done|lia|done|].
  destruct (spaced_operator (c :: rest)) as [[repl m]|] eqn:Hm.
  - apply spaced_operator_spec in Hm as (run & d & rest' & Hcode & Hrun & Hd & _).
    rewrite Hcode in Hplain |- *. rewrite spaced_operator_at by done.
    set (k := length (take_while isspace rest')).
    pose proof (isoperator_not_start d Hd) as Hlone.
    rewrite lexemes_spaces, filter_solid_spaces in * by done.
    rewrite lexemes_lone in Hplain |- * by done.
    rewrite lexemes_lone by done.
    rewrite <-(take_while_prefix isspace rest') in Hplain |- * at 2.
    rewrite lexemes_spaces in Hplain |- * by apply take_while_Forall.
    rewrite !filter_cons_True by (simpl; by rewrite isoperator_not_space).
    rewrite filter_solid_spaces by apply take_while_Forall. f_equal.
    apply (f_equal length) in Hcode. rewrite length_app in Hcode. simpl in Hcode.
    apply IH; [rewrite length_drop; lia|].
    apply Forall_app in Hplain as [_ Hplain].
    apply plain_tail in Hplain. by apply Forall_app in Hplain as [_ ?].
  - destruct (lexemes_cases c rest) as [[Hstart Hlex]|[(u & us & Hu & Hlex)|[Hlone Hlex]]].
    + set (k := length (take_while isword rest)) in *.
      assert (c :: rest = (c :: take_while isword rest) ++ drop k rest) as Hsplit.
      { unfold k. simpl. by rewrite take_while_prefix. }
      rewrite Hlex in Hplain |- *.
      rewrite Hsplit, spaced_operator_word.
      2:{ constructor; [by apply start_isword|apply take_while_Forall]. }
      rewrite lexemes_word.
      2:{ by apply word_shaped_take. }
      2:{ intros x. apply spaced_operator_head. intros y. apply take_while_stops. }
      rewrite !filter_cons_True by done. f_equal.
      apply IH; [rewrite length_drop; lia|by apply plain_tail in Hplain].
    + rewrite Hlex in Hplain. by apply Forall_cons in Hplain as [? _].
    + rewrite re_sub_copy by done.
      rewrite Hlex in Hplain |- *. rewrite lexemes_lone by done.
      rewrite !filter_cons. case_decide; [f_equal|];
        (apply IH; [lia|by apply plain_tail in Hplain]).
Qed.

(** *** The joined tokens read back *)

Lemma lexemes_good code : ∀ skip,
  Forall (λ unit, plain unit → good unit) (lexemes skip code).
Proof.
  induction code as [|c rest IH]; intros skip; simpl; [done|].
  destruct skip as [|k]; [|done].
  destruct (isalpha c || Ascii.eqb c "_") eqn:Hstart.
  { constructor; [|done]. intros _. rewrite (start_isword c Hstart).
    by apply word_shaped_take. }
  destruct (isdigit c) eqn:Hdigit; [by constructor|].
  destruct (isquote c) eqn:Hquote; [by constructor|].
  constructor; [|done]. by intros _.
Qed.

Lemma space_lone : lone " ".
Proof. by vm_compute. Qed.

Lemma join_single sep (x : list ascii) : join sep [x] = x.
Proof. done. Qed.

Lemma join_cons sep (x y : list ascii) parts :
  join sep (x :: y :: parts) = x ++ sep ++ join sep (y :: parts).
Proof. done. Qed.

Lemma lexemes_unit word : word_shaped word → lexemes 0 word = [Word word].
Proof.
  intros Hword. rewrite <-(app_nil_r word) at 1. by rewrite lexemes_word.
Qed.

Lemma lexemes_join units :
  Forall good units →
  filter solid (lexemes 0 (join [" "] (map text units))) = filter solid units.
Proof.
  induction 1 as [|unit units Hunit Hunits IH]; [done|].
  destruct units as [|unit' units].
  - cbn [map]. rewrite join_single.
    destruct unit as [word| | |c]; try done; cbn [text].
    + by rewrite lexemes_unit.
    + by rewrite lexemes_lone.
  - cbn [map] in *. rewrite join_cons.
    destruct unit as [word| | |c]; try done; cbn [text app].
    + rewrite lexemes_word by (done || by intros x [= <-]).
      rewrite lexemes_lone by apply space_lone.
      rewrite filter_cons_True, filter_cons_False by (done || by vm_compute).
      by rewrite IH, (filter_cons_True solid (Word word)) by done.
    + rewrite !lexemes_lone by (done || apply space_lone).
      rewrite (filter_cons solid (Chr c)), (filter_cons solid (Chr c) (_ :: _)).
      rewrite (filter_cons_False solid (Chr " ")) by by vm_compute.
      by rewrite IH.
Qed.

Lemma plain_filter_solid units :
  Forall plain (filter solid units) → Forall plain units.
Proof.
  induction units as [|unit units IH]; [done|]. rewrite filter_cons.
  case_decide as Hsolid.
  - intros [? ?]%Forall_cons. constructor; [done|by apply IH].
  - intros Hrest. constructor; [|by apply IH].
    by destruct unit.
Qed.

Lemma block_comment_absent code :
  slash_spaced code → re_sub block_comment 0 code = code.
Proof.
  induction code as [|c rest IH]; [done|]. intros [Hc Hrest].
  rewrite re_sub_copy, IH; [done|done|].
  unfold block_comment. destruct rest as [|d rest]; [done|].
  destruct (Ascii.eqb_spec c "/") as [->|]; [|done].
  by rewrite (Hc eq_refl).
Qed.

Lemma line_comment_absent code :
  slash_spaced code → re_sub line_comment 0 code = code.
Proof.
  induction code as [|c rest IH]; [done|]. intros [Hc Hrest].
  rewrite re_sub_copy, IH; [done|done|].
  unfold line_comment. destruct rest as [|d rest]; [done|].
  destruct (Ascii.eqb_spec c "/") as [->|]; [|done].
  by rewrite (Hc eq_refl).
Qed.

Lemma slash_spaced_word word rest :
  Forall (λ c, isword c = true) word →
  slash_spaced rest → slash_spaced (word ++ rest).
Proof.
  induction 1 as [|c word Hc Hword IH]; [done|]. intros Hrest.
  split; [|by apply IH]. intros ->. done.
Qed.

Lemma word_shaped_isword word :
  word_shaped word → Forall (λ c, isword c = true) word.
Proof.
  destruct word as [|c word]; [done|]. intros [Hc Hword].
  constructor; [by apply start_isword|done].
Qed.

Lemma slash_spaced_join units :
  Forall good units → slash_spaced (join [" "] (map text units)).
Proof.
  induction 1 as [|unit units Hunit Hunits IH]; [done|].
  destruct units as [|unit' units].
  - cbn [map]. rewrite join_single.
    destruct unit as [word| | |c]; try done; cbn [text].
    rewrite <-(app_nil_r word).
    apply slash_spaced_word; [by apply word_shaped_isword|done].
  - cbn [map] in *. rewrite join_cons.
    destruct unit as [word| | |c]; try done; cbn [text app].
    apply slash_spaced_word; [by apply word_shaped_isword|].
    split; [done|apply IH].
Qed.

(** *** The identifier table on canonical names *)

Lemma py_inj (s1 s2 : string) : py s1 = py s2 → s1 = s2.
Proof.
  intros Heq. apply (f_equal string_of_list_ascii) in Heq.
  unfold py in Heq. by rewrite !string_of_list_ascii_of_string in Heq.
Qed.

Lemma var_name_inj i j : var_name i = var_name j → i = j.
Proof.
  unfold var_name. intros Heq%app_inv_head%py_inj.
  by apply (inj pretty) in Heq.
Qed.

Lemma var_name_not_keyword i : is_keyword (var_name i) = false.
Proof.
  apply bool_decide_eq_false. intros Hin.
  assert (Forall (λ w, head w ≠ Some "V") cpp_keywords) as Hheads.
  { apply (bool_decide_unpack _). by vm_compute. }
  rewrite Forall_forall in Hheads. by apply (Hheads _ Hin).
Qed.

Lemma var_name_shaped i : word_shaped (var_name i).
Proof.
  split; [done|]. repeat (constructor; [done|]).
  eapply Forall_impl; [apply pretty_nat_decimal|]. apply isdecimal_isword.
Qed.

Lemma rename_filter units : ∀ counter identifier_map,
  filter solid (rename units counter identifier_map)
  = rename (filter solid units) counter identifier_map.
Proof.
  induction units as [|unit units IH]; intros n m; [done|].
  destruct unit as [word| | |c]; simpl.
  - destruct (is_keyword word); [by rewrite filter_cons_True, IH by done|].
    destruct (m !! word); by rewrite filter_cons_True, IH by done.
  - by rewrite filter_cons_True, IH by done.
  - by rewrite filter_cons_True, IH by done.
  - rewrite !(filter_cons solid (Chr c)). case_decide; simpl; by rewrite IH.
Qed.

Lemma rename_good units : ∀ counter (identifier_map : gmap _ _),
  Forall (λ unit, plain unit → good unit) units →
  map_Forall (λ _ name, word_shaped name) identifier_map →
  Forall (λ unit, plain unit → good unit) (rename units counter identifier_map).
Proof.
  induction units as [|unit units IH]; intros n m Hunits Hmap; [done|].
  apply Forall_cons in Hunits as [Hunit Hunits].
  destruct unit as [word| | |c]; simpl; try (constructor; [done|by apply IH]).
  destruct (is_keyword word); [constructor; [done|by apply IH]|].
  destruct (m !! word) as [name|] eqn:Hname.
  - constructor; [|by apply IH]. intros _. by eapply Hmap.
  - constructor; [intros _; apply var_name_shaped|].
    apply IH; [done|]. apply map_Forall_insert_2; [apply var_name_shaped|done].
Qed.

Lemma rename_rename units : ∀ counter identifier_map table,
  issued_names counter identifier_map →
  canonical_table counter table →
  rename (rename units counter identifier_map) counter table
  = rename units counter identifier_map.
Proof.
  induction units as [|unit units IH]; intros n m m2 Hm [Hself Honly]; [done|].
  destruct unit as [word| | |c]; simpl; try (f_equal; by apply IH).
  destruct (is_keyword word) eqn:Hkey.
  { simpl. rewrite Hkey. f_equal. by apply IH. }
  destruct (m !! word) as [name|] eqn:Hname.
  - destruct (Hm word name Hname) as (i & Hi & ->). simpl.
    rewrite ?var_name_not_keyword, (Hself i Hi). f_equal. by apply IH.
  - simpl. rewrite ?var_name_not_keyword.
    destruct (m2 !! var_name n) as [name|] eqn:Hname2.
    { destruct (Honly _ _ Hname2) as (i & Hi & Heq%var_name_inj). lia. }
    f_equal. apply IH.
    + intros w name. rewrite lookup_insert. case_decide.
      * intros [= <-]. exists n. split; [lia|done].
      * intros Hw. destruct (Hm w name Hw) as (i & Hi & ->).
        exists i. split; [lia|done].
    + split.
      * intros i Hi. rewrite lookup_insert. case_decide as Heq; [by rewrite Heq|].
        apply Hself. destruct (decide (i = n)) as [->|]; [done|lia].
      * intros w name. rewrite lookup_insert. case_decide as Heq.
        -- intros _. exists n. split; [lia|done].
        -- intros Hw. destruct (Honly w name Hw) as (i & Hi & ->).
           exists i. split; [lia|done].
Qed.

(** *** [split] after [join] *)

Lemma split_ws_solid (token : list ascii) : ∀ cur rest,
  Forall (λ c, isspace c = false) token →
  split_ws cur (token ++ rest) = split_ws (cur ++ token) rest.
Proof.
  induction token as [|c token IH]; intros cur rest Htoken; simpl.
  - by rewrite app_nil_r.
  - apply Forall_cons in Htoken as [Hc Htoken]. rewrite Hc, IH by done.
    by rewrite <-app_assoc.
Qed.

Lemma word_shaped_solid word :
  word_shaped word → Forall (λ c, isspace c = false) word.
Proof.
  intros Hword%word_shaped_isword.
  eapply Forall_impl; [done|]. intros x Hx.
  destruct (isspace x) eqn:Hs; [|done].
  apply isspace_not_word in Hs. congruence.
Qed.

Lemma split_ws_unit (token : list ascii) :
  token ≠ [] → Forall (λ c, isspace c = false) token →
  split_ws [] token = [token].
Proof.
  intros Hne Htoken. rewrite <-(app_nil_r token) at 1.
  rewrite split_ws_solid by done. simpl. by destruct token.
Qed.

Lemma split_ws_flush (token rest : list ascii) :
  token ≠ [] → Forall (λ c, isspace c = false) token →
  split_ws [] (token ++ " " :: rest) = token :: split_ws [] rest.
Proof.
  intros Hne Htoken. rewrite split_ws_solid by done. simpl. by destruct token.
Qed.

Lemma split_ws_blank c rest :
  isspace c = true → split_ws [] (c :: rest) = split_ws [] rest.
Proof. intros Hc. simpl. by rewrite Hc. Qed.

Lemma split_join units :
  Forall good units →
  split (join [" "] (map text units)) = map text (filter solid units).
Proof.
  unfold split.
  induction 1 as [|unit units Hunit Hunits IH]; [done|].
  destruct units as [|unit' units].
  - cbn [map]. rewrite join_single.
    destruct unit as [word| | |c]; try done; cbn [text].
    + rewrite split_ws_unit; [done|by destruct word|by apply word_shaped_solid].
    + rewrite filter_cons. destruct (isspace c) eqn:Hc.
      * rewrite split_ws_blank by done.
        rewrite decide_False; [done|]. simpl. rewrite Hc. by intros [].
      * rewrite split_ws_unit by (done || by constructor).
        rewrite decide_True; [done|]. simpl. by rewrite Hc.
  - cbn [map] in *. rewrite join_cons.
    destruct unit as [word| | |c]; try done; cbn [text app].
    + rewrite split_ws_flush; [|by destruct word|by apply word_shaped_solid].
      by rewrite IH, (filter_cons_True solid (Word word)) by done.
    + rewrite (filter_cons solid (Chr c)). destruct (isspace c) eqn:Hc.
      * rewrite split_ws_blank, split_ws_blank by done.
        rewrite decide_False; [done|]. simpl. rewrite Hc. by intros [].
      * change (c :: " " :: ?r) with ([c] ++ " " :: r).
        rewrite (split_ws_flush [c]) by (done || by constructor).
        rewrite decide_True; [by rewrite IH|]. simpl. by rewrite Hc.
Qed.

Lemma rename_plain units : ∀ counter identifier_map,
  Forall plain units → Forall plain (rename units counter identifier_map).
Proof.
  induction units as [|unit units IH]; intros n m Hunits; [done|].
  apply Forall_cons in Hunits as [Hunit Hunits].
  destruct unit as [word| | |c]; simpl; try done.
  - destruct (is_keyword word); [constructor; [done|by apply IH]|].
    destruct (m !! word); constructor; try done; by apply IH.
  - constructor; [done|by apply IH].
Qed.

Lemma good_plain units : Forall good units → Forall plain units.
Proof. intros Hgood. eapply Forall_impl; [done|]. by intros []. Qed.

Lemma Forall_filter_solid (P : lexeme → Prop) units :
  Forall P units → Forall P (filter solid units).
Proof.
  rewrite !Forall_forall. intros Hall unit [_ Hin]%list_elem_of_filter.
  by apply Hall.
Qed.

Lemma plain_good units :
  Forall (λ unit, plain unit → good unit) units → Forall plain units →
  Forall good units.
Proof.
  rewrite !Forall_forall. intros Hgood Hplain unit Hin.
  by apply Hgood, Hplain.
Qed.

(** The comment and whitespace stages on joined tokens leave their solid
    lexical units as they are. *)
Lemma cleaned_join_solid self units :
  Forall good units →
  filter solid (lexemes 0 (cleaned self (join [" "] (map text units))))
  = filter solid units.
Proof.
  intros Hgood. unfold cleaned.
  assert ((if ignore_comments self
           then remove_comments (join [" "] (map text units))
           else join [" "] (map text units))
          = join [" "] (map text units)) as ->.
  { destruct (ignore_comments self); [|done]. unfold remove_comments.
    rewrite block_comment_absent, line_comment_absent;
      [done|by apply slash_spaced_join..]. }
  pose proof (lexemes_join units Hgood) as Hjoin.
  destruct (ignore_whitespace self); [|done].
  assert (Forall plain (filter solid units)) as Hplain.
  { apply good_plain. by apply Forall_filter_solid. }
  unfold remove_whitespace.
  set (code := join [" "] (map text units)) in *.
  assert (filter solid (lexemes 0 (re_sub whitespace_run 0 code))
          = filter solid units) as Hrun.
  { rewrite (whitespace_run_solid (length code)); [done|done|].
    apply plain_filter_solid. by rewrite Hjoin. }
  rewrite (spaced_operator_solid (length (re_sub whitespace_run 0 code)));
    [done|done|].
  apply plain_filter_solid. by rewrite Hrun.
Qed.

(** C4, as amended. With [normalize_identifiers] on, and for a text whose
    token stream holds no literal marker [NUM] or [STR], normalising the
    normalised text gives the same token stream (the tokens [str.split]
    reads back) as normalising once, whatever the other two options are. *)
Theorem renormalization_without_literals self code :
  normalize_identifiers self = true →
  py "NUM" ∉ tokenize 0 (cleaned self code) 0 ∅ →
  py "STR" ∉ tokenize 0 (cleaned self code) 0 ∅ →
  split (preprocess_cpp self (preprocess_cpp self code))
  = split (preprocess_cpp self code).
Proof.
  intros Hnorm Hnum Hstr. unfold preprocess_cpp. rewrite Hnorm.
  rewrite !tokenize_lexemes in *.
  set (units := rename (lexemes 0 (cleaned self code)) 0 ∅) in *.
  assert (map_Forall (λ _ name : list ascii, word_shaped name) ∅) as Hempty
    by apply map_Forall_empty.
  assert (Forall plain units) as Hplain.
  { apply Forall_forall. intros unit Hin.
    destruct unit; try done.
    - destruct Hnum. by apply (list_elem_of_fmap_2 text) in Hin.
    - destruct Hstr. by apply (list_elem_of_fmap_2 text) in Hin. }
  assert (Forall good units) as Hgood.
  { apply plain_good; [|done]. apply rename_good; [apply lexemes_good|done]. }
  pose proof (cleaned_join_solid self units Hgood) as Hsolid.
  set (code2 := cleaned self (join [" "] (map text units))) in *.
  assert (Forall good (rename (lexemes 0 code2) 0 ∅)) as Hgood2.
  { apply plain_good; [apply rename_good; [apply lexemes_good|done]|].
    apply rename_plain, plain_filter_solid. rewrite Hsolid.
    by apply Forall_filter_solid. }
  rewrite !split_join by done. f_equal.
  rewrite rename_filter, Hsolid. unfold units.
  rewrite rename_filter. apply rename_rename.
  - by intros word name; rewrite lookup_empty.
  - split; [lia|]. by intros word name; rewrite lookup_empty.
Qed.

(** ** Worked examples *)

(** C1, the claim as stated fails: a blank text compared with itself has
    no k-gram, so the fingerprint score is 0, the overall score 0.5 and the
    level Moderate. *)
Lemma identical_blank_inputs_not_all_one :
  ¬ (∀ (md5 : list ascii → Z) (code : list ascii),
       ∃ r, check_similarity md5 init code code = Report r
            ∧ moss_similarity (report_details r) = 1%Qc
            ∧ structure_similarity (report_details r) = 1%Qc
            ∧ line_similarity (report_details r) = 1%Qc
            ∧ overall_similarity (report_summary r) = 1%Qc
            ∧ similarity_level (report_summary r) = "Very High"%string).
Proof.
  intros Hall. destruct (Hall sample_md5 []) as (r & Hr & Hmoss & _).
  destruct (identical_short_inputs_default sample_md5 [])
    as (r' & Hr' & Hdetails & _); [vm_compute; lia|].
  rewrite Hr in Hr'. injection Hr' as <-.
  rewrite Hdetails in Hmoss. discriminate Hmoss.
Qed.

Lemma identical_inputs_default_witness :
  (5 ≤ length (split (preprocess_cpp init sample_function)))%nat
  ∧ ∃ r,
      check_similarity sample_md5 init sample_function sample_function = Report r
      ∧ report_details r
        = {| moss_similarity := 1%Qc; structure_similarity := 1%Qc;
             line_similarity := 1%Qc |}
      ∧ report_summary r
        = {| similarity_level := "Very High"; overall_similarity := 1%Qc |}.
Proof.
  split; [vm_compute; lia|].
  apply (identical_inputs_default sample_md5 sample_function).
  vm_compute; lia.
Defined.


(** C5, the claim as stated fails: with "Ignore whitespace" unticked the
    line score of four lines against a permutation of them is 1/4 one way
    round and 1/2 the other. *)
Lemma comparison_not_symmetric :
  ¬ (∀ (md5 : list ascii → Z) self codeA codeB,
       ∃ r1 r2,
         check_similarity md5 self codeA codeB = Report r1
         ∧ check_similarity md5 self codeB codeA = Report r2
         ∧ report_details r1 = report_details r2
         ∧ overall_similarity (report_summary r1)
           = overall_similarity (report_summary r2)).
Proof.
  intros Hall.
  destruct (Hall sample_md5 keep_text lines_tide lines_diet)
    as (r1 & r2 & H1 & H2 & Hd & _).
  vm_compute in H1. vm_compute in H2.
  injection H1 as <-. injection H2 as <-. simpl in Hd. discriminate Hd.
Qed.

(** C2, at the failing input: two texts of eight lines that differ in the
    order of the last four.  Under the default configuration the extractor
    returns no segment at all; with "Ignore whitespace" unticked it returns
    the block of the four unchanged lines, of length 4 and similarity 1. *)
Theorem reordered_block_yields_no_segment :
  identify_similar_segments init block_original block_reordered 3 = []
  ∧ ∃ seg,
      identify_similar_segments keep_whitespace block_original block_reordered 3
      = [seg]
      ∧ length_ seg = 4%nat
      ∧ file1_start_line seg = 1%nat ∧ file2_start_line seg = 1%nat
      ∧ file1_segment seg
        = join [newline]
            (map py ["int a = 1;"; "int b = 2;"; "int c = 3;"; "int d = 4;"]%string)
      ∧ file2_segment seg = file1_segment seg
      ∧ similarity seg = 1%Qc.
Proof.
  split; [apply no_segments_when_whitespace_ignored; [done|lia]|].
  eexists. split; [vm_compute; reflexivity|].
  repeat split. by apply Qc_is_canon.
Qed.

Lemma winnow_as_specified_witness :
  (1 ≤ 3)%nat
  ∧ ∃ selected : list (Z * nat),
      length selected = 6%nat
      ∧ winnow [5; 3; 8; 3; 9; 1; 1; 7]%Z 3
        = inr (keep_changes None (map fst selected)).
Proof.
  split; [lia|].
  destruct (winnow_as_specified sample_md5 init sample_function sample_function
              5 3 [5; 3; 8; 3; 9; 1; 1; 7]%Z) as (_ & Hlong & _); [lia|].
  destruct Hlong as (selected & Hlen & _ & Hwinnow); [simpl; lia|].
  exists selected. split; [exact Hlen|exact Hwinnow].
Defined.

Lemma short_input_moss_zero_witness :
  (1 ≤ 10)%nat
  ∧ (length (split (preprocess_cpp init [])) < 5)%nat
  ∧ calculate_moss_similarity sample_md5 init [] sample_function 5 10 = inr 0%Qc
  ∧ calculate_moss_similarity sample_md5 init sample_function [] 5 10 = inr 0%Qc.
Proof.
  split; [lia|]. split; [vm_compute; lia|].
  apply (short_input_moss_zero sample_md5 init [] sample_function 5 10);
    [lia|vm_compute; lia].
Defined.

#[local] Set Warnings "-inexact-float".
(** The arithmetic is binary64's, not the rationals': on these two texts
    the scores are 0, 2/3 and 0, the exact aggregate is one fifth, the
    level "Low"; the computed aggregate is just below 0.2 and the level
    "Very Low". *)
Lemma aggregate_rounds_below_bound :
  (∃ r, Binary64.check_similarity sample_md5 verbatim three_functions two_functions
        = Binary64.Report r
        ∧ Binary64.report_details r
          = {| Binary64.moss_similarity := 0;
               Binary64.structure_similarity := (2 / 3)%float;
               Binary64.line_similarity := 0 |}
        ∧ (Binary64.overall_similarity (Binary64.report_summary r) <? 0.2)%float = true
        ∧ Binary64.similarity_level (Binary64.report_summary r) = "Very Low"%string)
  ∧ (∃ r, check_similarity sample_md5 verbatim three_functions two_functions = Report r
          ∧ overall_similarity (report_summary r) = tenths 2
          ∧ similarity_level (report_summary r) = "Low"%string).
Proof.
  split; eexists; (split; [by vm_compute|]); repeat split; try by vm_compute.
  by apply Qc_is_canon.
Qed.
#[local] Set Warnings "inexact-float".

Lemma check_similarity_never_raises_witness :
  first_failure sample_digest
    (kgrams_of (preprocess_cpp verbatim sample_unencodable) 5
     ++ kgrams_of (preprocess_cpp verbatim sample_encodable) 5)
  = Some (UnicodeEncodeError "surrogates not allowed")
  ∧ Raising.calculate_moss_similarity sample_digest verbatim
      sample_unencodable sample_encodable 5 10
    = inl (UnicodeEncodeError "surrogates not allowed")
  ∧ Raising.check_similarity sample_digest verbatim sample_unencodable sample_encodable
    = Error "surrogates not allowed"
  ∧ first_failure sample_digest
      (kgrams_of (preprocess_cpp verbatim sample_encodable) 5
       ++ kgrams_of (preprocess_cpp verbatim sample_encodable) 5) = None
  ∧ ∃ r, Raising.check_similarity sample_digest verbatim sample_encodable sample_encodable
         = Report r.
Proof.
  assert (first_failure sample_digest
    (kgrams_of (preprocess_cpp verbatim sample_unencodable) 5
     ++ kgrams_of (preprocess_cpp verbatim sample_encodable) 5)
    = Some (UnicodeEncodeError "surrogates not allowed")) as Hraises
    by (vm_compute; reflexivity).
  assert (first_failure sample_digest
      (kgrams_of (preprocess_cpp verbatim sample_encodable) 5
       ++ kgrams_of (preprocess_cpp verbatim sample_encodable) 5) = None)
    as Hreturns by (vm_compute; reflexivity).
  split; [exact Hraises|].
  destruct (check_similarity_never_raises sample_digest verbatim
              sample_unencodable sample_encodable) as [_ Hfault].
  destruct (Hfault _ Hraises) as (Hmoss & _ & Hentry).
  split; [exact Hmoss|]. split; [exact Hentry|]. split; [exact Hreturns|].
  destruct (check_similarity_never_raises sample_digest verbatim
              sample_encodable sample_encodable) as [Hreport _].
  destruct (Hreport Hreturns) as (r & _ & Hr & _). by exists r.
Defined.

(** C4, the claim as stated fails: the marker [NUM] that stands for the
    literal 1 is read as an identifier by the second pass and renamed. *)
Lemma renormalization_renames_literal_markers :
  ¬ (∀ self code,
       split (preprocess_cpp self (preprocess_cpp self code))
       = split (preprocess_cpp self code)).
Proof.
  intros Hall. specialize (Hall init (py "x = 1")).
  vm_compute in Hall. discriminate Hall.
Qed.

Lemma renormalization_without_literals_witness :
  normalize_identifiers init = true
  ∧ (py "NUM" ∉ tokenize 0 (cleaned init sample_function) 0 ∅)
  ∧ (py "STR" ∉ tokenize 0 (cleaned init sample_function) 0 ∅)
  ∧ split (preprocess_cpp init (preprocess_cpp init sample_function))
    = split (preprocess_cpp init sample_function).
Proof.
  assert (py "NUM" ∉ tokenize 0 (cleaned init sample_function) 0 ∅) as Hnum.
  { apply (bool_decide_unpack _). vm_compute. exact I. }
  assert (py "STR" ∉ tokenize 0 (cleaned init sample_function) 0 ∅) as Hstr.
  { apply (bool_decide_unpack _). vm_compute. exact I. }
  split; [reflexivity|]. split; [exact Hnum|]. split; [exact Hstr|].
  exact (renormalization_without_literals init sample_function eq_refl Hnum Hstr).
Defined.

(** With [normalize_identifiers] off the text stages alone are not
    idempotent either: removing one comment can bring the two halves of
    another together. *)
Lemma comment_stage_not_idempotent :
  preprocess_cpp keep_text (py "//* x */* y */") = py "/* y */"
  ∧ preprocess_cpp keep_text (py "/* y */") = [].
Proof. split; reflexivity. Qed.

(** * Further properties *)

(** ** Rational arithmetic *)

Lemma this_tenths n : (this (tenths n) == n # 10)%Q.
Proof.
  unfold tenths, Qcdiv, Qcmult, Qcinv, Qc_of_Z, Q2Qc. cbn [this].
  rewrite !Qred_correct. unfold Qeq, inject_Z. simpl. lia.
Qed.

Lemma this_ratio (x : Z) (p : positive) :
  (this (Qc_of_Z x / Qc_of_Z (Z.pos p)) == x # p)%Q.
Proof.
  unfold Qcdiv, Qcmult, Qcinv, Qc_of_Z, Q2Qc. cbn [this].
  rewrite !Qred_correct. symmetry. apply Qmake_Qdiv.
Qed.

Ltac qc_lra :=
  unfold unit_interval, Qcminus, Qcle, Qclt, Qcplus, Qcmult, Qcopp, Q2Qc in *;
  cbn [this] in *;
  rewrite ?Qred_correct, ?this_tenths in *;
  change (this 0%Qc) with 0%Q in *; change (this 1%Qc) with 1%Q in *; lra.

Lemma ratio_unit_interval (x y : Z) :
  (0 ≤ x ≤ y)%Z → (0 < y)%Z → unit_interval (Qc_of_Z x / Qc_of_Z y).
Proof.
  intros Hx Hy. destruct y as [|p|p]; try lia.
  unfold unit_interval, Qcle. rewrite this_ratio.
  change (this 0%Qc) with 0%Q; change (this 1%Qc) with 1%Q.
  unfold Qle; simpl. lia.
Qed.

Lemma unit_interval_0 : unit_interval 0.
Proof. split; by vm_compute. Qed.

Lemma unit_interval_1 : unit_interval 1.
Proof. split; by vm_compute. Qed.

(** ** Fingerprints *)

Lemma keep_changes_elem (l : list Z) : ∀ prev x,
  x ∈ keep_changes prev l → x ∈ l.
Proof.
  induction l as [|h r IH]; intros prev x; simpl; [done|].
  case_decide.
  - intros Hx. right. by eapply IH.
  - intros [->|Hx]%elem_of_cons; [by left|]. right. by eapply IH.
Qed.

Lemma keep_changes_covers (l : list Z) : ∀ prev x,
  x ∈ l → x ∈ keep_changes prev l ∨ prev = Some x.
Proof.
  induction l as [|h r IH]; intros prev x; simpl.
  - by intros ?%elem_of_nil.
  - intros [->|Hx]%elem_of_cons.
    + case_decide; [by right|left; by left].
    + case_decide.
      * by apply IH.
      * destruct (IH (Some h) x Hx) as [Hin|[= ->]]; left; [by right|by left].
Qed.

Lemma keep_changes_head (l : list Z) : ∀ prev x,
  head (keep_changes prev l) = Some x → prev ≠ Some x.
Proof.
  induction l as [|h r IH]; intros prev x; simpl; [done|].
  case_decide as Hp; [apply IH|]. intros [= <-]. done.
Qed.

Lemma keep_changes_no_repeat (l : list Z) : ∀ prev,
  no_repeat (keep_changes prev l).
Proof.
  induction l as [|h r IH]; intros prev; simpl.
  - intros n x y Hx. by rewrite lookup_nil in Hx.
  - case_decide; [apply IH|].
    intros [|n] x y; simpl.
    + intros [= <-] Hy Heq. subst y.
      eapply (keep_changes_head r (Some h) h); [|done].
      by rewrite head_lookup.
    + apply IH.
Qed.

Lemma slice_lookup {A} (l : list A) (i n p : nat) :
  (p < n)%nat → slice l i n !! p = l !! (i + p)%nat.
Proof.
  intros Hp. unfold slice. by rewrite lookup_take_lt, lookup_drop by done.
Qed.

Lemma slice_elem {A} (l : list A) (i n : nat) x : x ∈ slice l i n → x ∈ l.
Proof.
  unfold slice. intros [p Hp]%list_elem_of_lookup.
  apply lookup_take_Some in Hp as [Hp _]. rewrite lookup_drop in Hp.
  by eapply list_elem_of_lookup_2.
Qed.

Lemma winnow_zero_window (hashes : list Z) :
  winnow hashes 0 = inl (ValueError "min() arg is an empty sequence").
Proof.
  unfold winnow. simpl.
  replace (length hashes - 0 + 1)%nat with (S (length hashes)) by lia.
  reflexivity.
Qed.

(** C6, the claim as stated fails: the window size 0 is a window size, no
    hash list is shorter than it, and the first window [hashes[0:0]] is
    empty, so that [min] raises ValueError where the claim has a fingerprint
    sequence. *)
Lemma winnow_zero_window_not_as_specified :
  (0 ≤ length [3; 1; 2]%Z)%nat
  ∧ (∃ msg, winnow [3; 1; 2]%Z 0 = inl (ValueError msg))
  ∧ ¬ (∀ (hashes : list Z) (w : nat),
         ((length hashes < w)%nat → winnow hashes w = inr hashes)
         ∧ ((w ≤ length hashes)%nat →
              ∃ selected : list (Z * nat),
                length selected = (length hashes - w + 1)%nat
                ∧ (∀ n m p, selected !! n = Some (m, p) →
                     (n ≤ p)%nat ∧ leftmost_min (slice hashes n w) m (p - n))
                ∧ winnow hashes w = inr (keep_changes None (map fst selected)))).
Proof.
  split; [simpl; lia|]. split.
  { eexists. apply winnow_zero_window. }
  intros Hall. destruct (Hall [3; 1; 2]%Z 0%nat) as [_ Hlong].
  destruct Hlong as (selected & _ & _ & Hwinnow); [simpl; lia|].
  rewrite winnow_zero_window in Hwinnow. discriminate Hwinnow.
Qed.

Lemma jaccard_unit_interval (X Y : gset Z) : unit_interval (jaccard X Y).
Proof.
  unfold jaccard. case_decide as Hne; [apply unit_interval_0|].
  apply ratio_unit_interval.
  - split; [lia|]. apply inj_le, subseteq_size.
    etrans; [apply intersection_subseteq_l|apply union_subseteq_l].
  - assert (size (X ∪ Y) ≠ 0%nat); [|lia].
    intros Hz%size_empty_iff. apply Hne. left. apply leibniz_equiv. set_solver.
Qed.

Lemma jaccard_one_iff (X Y : gset Z) : jaccard X Y = 1%Qc ↔ X = Y ∧ X ≠ ∅.
Proof.
  split.
  - unfold jaccard. case_decide as Hne; [done|]. intros Hq.
    assert (size (X ∪ Y) ≠ 0%nat) as Hsz.
    { intros Hz%size_empty_iff. apply Hne. left. apply leibniz_equiv. set_solver. }
    assert (size (X ∩ Y) = size (X ∪ Y)) as Heq.
    { destruct (Z.of_nat (size (X ∪ Y))) as [|p|p] eqn:Hp; try lia.
      apply (f_equal this) in Hq.
      assert (this (Qc_of_Z (Z.of_nat (size (X ∩ Y))) / Qc_of_Z (Z.pos p))
              == this 1%Qc)%Q as Hq' by by rewrite Hq.
      rewrite this_ratio in Hq'. unfold Qeq in Hq'. simpl in Hq'. lia. }
    assert (X ∩ Y = X ∪ Y) as Hsets.
    { apply leibniz_equiv, set_subseteq_size_equiv; [|lia].
      etrans; [apply intersection_subseteq_l|apply union_subseteq_l]. }
    split; [|tauto]. apply set_eq. intros x.
    assert (x ∈ X ∩ Y ↔ x ∈ X ∪ Y) as Hx by by rewrite Hsets.
    rewrite elem_of_intersection, elem_of_union in Hx. tauto.
  - intros [<- Hne]. by apply jaccard_refl.
Qed.

Lemma jaccard_zero_iff (X Y : gset Z) : jaccard X Y = 0%Qc ↔ X ## Y.
Proof.
  unfold jaccard. case_decide as Hne.
  - split; [|done]. intros _. destruct Hne as [-> | ->]; set_solver.
  - assert (size (X ∪ Y) ≠ 0%nat) as Hsz.
    { intros Hz%size_empty_iff. apply Hne. left. apply leibniz_equiv. set_solver. }
    destruct (Z.of_nat (size (X ∪ Y))) as [|p|p] eqn:Hp; try lia.
    split.
    + intros Hq. apply (f_equal this) in Hq.
      assert (this (Qc_of_Z (Z.of_nat (size (X ∩ Y))) / Qc_of_Z (Z.pos p))
              == this 0%Qc)%Q as Hq' by by rewrite Hq.
      rewrite this_ratio in Hq'. unfold Qeq in Hq'. simpl in Hq'.
      assert (size (X ∩ Y) = 0%nat) as Hz%size_empty_iff by lia.
      set_solver.
    + intros Hdisj. assert (X ∩ Y = ∅) as -> by by apply disjoint_intersection_L.
      rewrite size_empty. apply Qc_div_zero.
Qed.

(** ** The structure measure stays between 0 and 1 *)

Lemma count_similarity_unit_interval (counter1 counter2 : gmultiset (list ascii)) q :
  count_similarity counter1 counter2 = inr q → unit_interval q.
Proof.
  unfold count_similarity.
  case_decide; [intros [= <-]; apply unit_interval_1|].
  case_decide; [intros [= <-]; apply unit_interval_0|].
  case_decide; [|intros [= <-]; apply unit_interval_0].
  rewrite py_div_nonzero by lia. intros [= <-].
  apply ratio_unit_interval; [|done].
  split; [lia|]. apply inj_le, gmultiset_subseteq_size. multiset_solver.
Qed.

Lemma control_loop_bounds (ctrl1 ctrl2 : gmap (list ascii) Z) keys :
  (∀ key v, ctrl1 !! key = Some v → (0 ≤ v)%Z) →
  (∀ key v, ctrl2 !! key = Some v → (0 ≤ v)%Z) →
  (0 ≤ (control_loop ctrl1 ctrl2 keys).1 ≤ (control_loop ctrl1 ctrl2 keys).2)%Z.
Proof.
  intros H1 H2. induction keys as [|key keys IH]; [done|].
  rewrite control_loop_cons; simpl.
  assert (0 ≤ default 0 (ctrl1 !! key))%Z.
  { destruct (ctrl1 !! key) eqn:E; simpl; [by eapply H1|done]. }
  assert (0 ≤ default 0 (ctrl2 !! key))%Z.
  { destruct (ctrl2 !! key) eqn:E; simpl; [by eapply H2|done]. }
  lia.
Qed.

Lemma control_similarity_unit_interval (ctrl1 ctrl2 : gmap (list ascii) Z) q :
  (∀ key v, ctrl1 !! key = Some v → (0 ≤ v)%Z) →
  (∀ key v, ctrl2 !! key = Some v → (0 ≤ v)%Z) →
  control_similarity ctrl1 ctrl2 = inr q → unit_interval q.
Proof.
  intros H1 H2. unfold control_similarity.
  case_decide; [intros [= <-]; apply unit_interval_1|].
  pose proof (control_loop_bounds ctrl1 ctrl2 (elements (dom ctrl1 ∪ dom ctrl2)) H1 H2)
    as Hb.
  destruct (control_loop _ _ _) as [d m]; simpl in Hb.
  case_decide.
  - rewrite py_div_nonzero by lia. simpl. intros [= <-].
    pose proof (ratio_unit_interval d m Hb ltac:(done)) as Hq.
    revert Hq. generalize (Qc_of_Z d / Qc_of_Z m)%Qc. intros q0 [??].
    split; qc_lra.
  - simpl. intros [= <-]. split; by vm_compute.
Qed.

(** ** Texts without a closing brace *)

Lemma drop_elem {A} (n : nat) (l : list A) (x : A) : x ∈ drop n l → x ∈ l.
Proof. apply subseteq_drop. Qed.

Lemma drop_tail_elem {A} (n : nat) (l r : list A) (x y : A) :
  drop n l = x :: r → y ∈ r → y ∈ l.
Proof.
  intros Hdrop Hy. apply (drop_elem n). rewrite Hdrop. by right.
Qed.

Lemma take_while_stop_brace (s r : list ascii) (c : ascii) :
  drop (length (take_while (λ c, negb (Ascii.eqb c "}")) s)) s = c :: r →
  "}" ∈ s.
Proof.
  intros Hdrop.
  pose proof (take_while_stops (λ c, negb (Ascii.eqb c "}")) s c) as Hstop.
  rewrite Hdrop in Hstop. specialize (Hstop eq_refl).
  apply negb_false_iff, Ascii.eqb_eq in Hstop. subst c.
  eapply drop_elem. rewrite Hdrop. by left.
Qed.

Lemma function_pattern_brace code group n :
  function_pattern code = Some (group, n) → "}" ∈ code.
Proof.
  unfold function_pattern.
  destruct (take_while isword code) as [|? w1]; [done|].
  set (s1 := drop _ code).
  destruct (take_while isspace s1) as [|? sp1] eqn:Hsp1; [done|].
  set (s2 := drop _ s1).
  destruct (take_while isword s2) as [|? name] eqn:Hname; [done|].
  set (s3 := drop _ s2).
  destruct (drop _ s3) as [|open s4] eqn:H4; [done|].
  destruct (drop _ s4) as [|? s5] eqn:H5; [done|].
  destruct (drop _ s5) as [|brace s6] eqn:H6; [done|].
  destruct (drop _ s6) as [|? ?] eqn:H7; [done|].
  intros _.
  apply take_while_stop_brace in H7.
  eapply drop_tail_elem in H6; [|done].
  eapply drop_tail_elem in H5; [|done].
  eapply drop_tail_elem in H4; [|done].
  by apply drop_elem, drop_elem, drop_elem in H4.
Qed.

Lemma class_pattern_brace code group n :
  class_pattern code = Some (group, n) → "}" ∈ code.
Proof.
  unfold class_pattern. destruct (starts_with _ _); [|done].
  set (s1 := drop 5 code).
  destruct (take_while isspace s1) as [|? sp] eqn:Hsp; [done|].
  set (s2 := drop _ s1).
  destruct (take_while isword s2) as [|? name] eqn:Hname; [done|].
  set (s3 := drop _ s2).
  destruct (drop _ s3) as [|? s4] eqn:H4; [done|].
  destruct (drop _ s4) as [|? ?] eqn:H5; [done|].
  intros _.
  apply take_while_stop_brace in H5.
  eapply drop_tail_elem in H4; [|done].
  by apply drop_elem, drop_elem, drop_elem in H4.
Qed.

Lemma re_findall_nothing (m : re_group_match) code :
  (∀ s group n, m s = Some (group, n) → ∃ c, c ∈ s ∧ ¬ c ∈ code) →
  ∀ (part : list ascii) skip, part ⊆ code → re_findall m skip part = [].
Proof.
  intros Hm. induction part as [|c rest IH]; intros skip Hsub; simpl; [done|].
  assert (rest ⊆ code) as Hrest by set_solver.
  destruct skip as [|k]; [|by apply IH].
  destruct (m (c :: rest)) as [[group n]|] eqn:Hmatch; [|by apply IH].
  destruct (Hm _ _ _ Hmatch) as (x & Hx & Hnot). exfalso. apply Hnot. by apply Hsub.
Qed.

Lemma extract_structure_brace_free code :
  "}" ∉ code →
  functions (extract_structure code) = ∅ ∧ classes (extract_structure code) = ∅.
Proof.
  intros Hnot. unfold extract_structure; simpl.
  rewrite (re_findall_nothing function_pattern code),
    (re_findall_nothing class_pattern code); [done| |done| |done].
  - intros s g n Hs. exists "}". split; [by eapply class_pattern_brace|done].
  - intros s g n Hs. exists "}". split; [by eapply function_pattern_brace|done].
Qed.

(** ** The matcher's blocks *)

Section MatcherBlocks.
Context {A : Type} `{EqDecision A}.
Variables a b : list A.

Lemma scan_indices_runs i blo bhi j2len js : ∀ newj2len best,
  (∀ j, j ∈ js → same_at a b i j = true) →
  j2len_runs a b i blo j2len →
  j2len_runs a b (S i) blo newj2len →
  block_inside blo bhi best → block_matches a b best →
  j2len_runs a b (S i) blo (scan_indices i blo bhi j2len js newj2len best).1
  ∧ block_inside blo bhi (scan_indices i blo bhi j2len js newj2len best).2
  ∧ block_matches a b (scan_indices i blo bhi j2len js newj2len best).2.
Proof.
  induction js as [|j js IH]; intros newj2len best Hjs Hold Hnew Hin Hmatch;
    simpl; [done|].
  assert (∀ j', j' ∈ js → same_at a b i j' = true) as Hjs'.
  { intros j' Hj'. apply Hjs. by right. }
  destruct (Nat.ltb_spec j blo); [by apply IH|].
  destruct (Nat.leb_spec bhi j); [done|].
  set (k := (match j with O => 0 | S j' => default 0 (j2len !! j') end + 1)%nat).
  assert ((k ≤ S i ∧ blo + k ≤ S j)%nat
          ∧ ∀ t, (t < k)%nat → same_at a b (i - t) (j - t) = true) as [Hk Hrun].
  { unfold k. destruct j as [|j'].
    - split; [lia|]. intros t Ht. replace t with 0%nat by lia.
      rewrite !Nat.sub_0_r. apply Hjs. by left.
    - destruct (j2len !! j') as [v|] eqn:Hv; simpl.
      + destruct (Hold _ _ Hv) as [Hb Hr]. split; [lia|].
        intros [|t] Ht.
        * rewrite !Nat.sub_0_r. apply Hjs. by left.
        * replace (i - S t)%nat with (i - 1 - t)%nat by lia.
          replace (S j' - S t)%nat with (j' - t)%nat by lia.
          apply Hr. lia.
      + split; [lia|]. intros t Ht. replace t with 0%nat by lia.
        rewrite !Nat.sub_0_r. apply Hjs. by left. }
  apply IH; [done|done| | |].
  - intros j0 v. rewrite lookup_insert. case_decide; [|by apply Hnew].
    intros [= <-]. subst j0. split; [lia|].
    intros t Ht. replace (S i - 1 - t)%nat with (i - t)%nat by lia. by apply Hrun.
  - destruct (best.2 <? k)%nat; [|done]. unfold block_inside; simpl. lia.
  - destruct (best.2 <? k)%nat; [|done]. intros t Ht; simpl in *.
    replace (S i - k + t)%nat with (i - (k - 1 - t))%nat by lia.
    replace (S j - k + t)%nat with (j - (k - 1 - t))%nat by lia.
    apply Hrun. lia.
Qed.

Lemma scan_rows_runs b2j blo bhi n : ∀ i j2len best,
  b2j_sound b b2j →
  j2len_runs a b i blo j2len →
  block_inside blo bhi best → block_matches a b best →
  block_inside blo bhi (scan_rows a b2j blo bhi (seq i n) j2len best)
  ∧ block_matches a b (scan_rows a b2j blo bhi (seq i n) j2len best).
Proof.
  induction n as [|n IH]; intros i j2len best Hsound Hold Hin Hmatch; simpl;
    [done|].
  set (js := match a !! i with Some x => b2j_get b2j x | None => [] end).
  destruct (scan_indices_runs i blo bhi j2len js ∅ best)
    as (Hnew & Hin' & Hmatch'); [|done| |done|done|].
  { intros j Hj. unfold js in Hj. unfold same_at.
    destruct (a !! i) as [x|]; [|by apply elem_of_nil in Hj].
    rewrite (Hsound _ _ Hj). by apply bool_decide_eq_true. }
  { intros j v Hv. by rewrite lookup_empty in Hv. }
  destruct (scan_indices i blo bhi j2len js ∅ best) as [newj2len best'].
  by apply IH.
Qed.

Lemma extend_left_matches alo blo bhi besti : ∀ bestj bestsize,
  block_inside blo bhi (besti, bestj, bestsize) →
  block_matches a b (besti, bestj, bestsize) →
  block_inside blo bhi (extend_left a b alo blo besti bestj bestsize)
  ∧ block_matches a b (extend_left a b alo blo besti bestj bestsize).
Proof.
  induction besti as [|i' IH]; intros bestj bestsize Hin Hmatch; simpl; [done|].
  destruct bestj as [|j']; [done|].
  destruct (_ && _ && _ && _) eqn:Hcond; [|done].
  repeat (apply andb_prop in Hcond as [Hcond ?]).
  apply Nat.ltb_lt in Hcond.
  match goal with Hb : (blo <? S j')%nat = true |- _ => apply Nat.ltb_lt in Hb end.
  apply IH.
  - unfold block_inside in *; simpl in *. lia.
  - intros [|t] Ht; simpl in *.
    + by rewrite !Nat.add_0_r.
    + replace (i' + S t)%nat with (S i' + t)%nat by lia.
      replace (j' + S t)%nat with (S j' + t)%nat by lia.
      apply Hmatch. simpl. lia.
Qed.

Lemma extend_right_matches steps ahi blo bhi besti bestj : ∀ bestsize,
  block_inside blo bhi (besti, bestj, bestsize) →
  block_matches a b (besti, bestj, bestsize) →
  block_inside blo bhi
    (besti, bestj, extend_right a b steps ahi bhi besti bestj bestsize)
  ∧ block_matches a b
      (besti, bestj, extend_right a b steps ahi bhi besti bestj bestsize).
Proof.
  induction steps as [|n IH]; intros bestsize Hin Hmatch; simpl; [done|].
  destruct (_ && _ && _ && _) eqn:Hcond; [|done].
  repeat (apply andb_prop in Hcond as [Hcond ?]).
  apply Nat.ltb_lt in Hcond.
  match goal with Hb : (bestj + bestsize <? bhi)%nat = true |- _ =>
    apply Nat.ltb_lt in Hb end.
  apply IH.
  - unfold block_inside in *; simpl in *. lia.
  - intros t Ht; simpl in *.
    destruct (decide (t = bestsize)) as [->|]; [done|]. apply Hmatch. simpl. lia.
Qed.

Lemma find_longest_match_matches b2j alo ahi blo bhi :
  b2j_sound b b2j → (blo ≤ bhi)%nat →
  block_inside blo bhi (find_longest_match a b b2j alo ahi blo bhi)
  ∧ block_matches a b (find_longest_match a b b2j alo ahi blo bhi).
Proof.
  intros Hsound Hle. unfold find_longest_match.
  destruct (scan_rows_runs b2j blo bhi (ahi - alo) alo ∅ (alo, blo, 0%nat))
    as [Hin1 Hm1]; [done| | | |].
  { intros j v Hv. by rewrite lookup_empty in Hv. }
  { unfold block_inside; simpl. lia. }
  { intros t Ht. simpl in Ht. lia. }
  destruct (scan_rows _ _ _ _ _ _ _) as [[i1 j1] k1].
  destruct (extend_left_matches alo blo bhi i1 j1 k1 Hin1 Hm1) as [Hin2 Hm2].
  destruct (extend_left _ _ _ _ _ _ _) as [[i2 j2] k2].
  by apply extend_right_matches.
Qed.

Lemma matched_app blocks1 blocks2 :
  matched (blocks1 ++ blocks2) = (matched blocks1 + matched blocks2)%nat.
Proof. unfold matched. by rewrite map_app, sum_list_with_app. Qed.

Lemma matched_single i j k : matched [(i, j, k)] = k.
Proof. unfold matched; simpl. lia. Qed.

Lemma queue_span_a_cons alo ahi blo bhi queue :
  queue_span_a ((alo, ahi, blo, bhi) :: queue)
  = (ahi - alo + queue_span_a queue)%nat.
Proof. done. Qed.

Lemma queue_span_b_cons alo ahi blo bhi queue :
  queue_span_b ((alo, ahi, blo, bhi) :: queue)
  = (bhi - blo + queue_span_b queue)%nat.
Proof. done. Qed.

(** Each iteration hands the two sides of the block it found to later
    iterations: the blocks cannot overlap, and they match. *)
Lemma matching_loop_blocks b2j fuel : ∀ queue blocks result,
  b2j_sound b b2j →
  queue_ranges queue →
  Forall (block_matches a b) blocks →
  matching_loop a b fuel b2j queue blocks = Some result →
  Forall (block_matches a b) result
  ∧ (matched result ≤ matched blocks + queue_span_a queue)%nat
  ∧ (matched result ≤ matched blocks + queue_span_b queue)%nat.
Proof.
  induction fuel as [|fuel IH]; intros queue blocks result Hsound Hq Hblocks;
    destruct queue as [|[[[alo ahi] blo] bhi] queue]; simpl;
    try (intros [= <-]; split; [done|]; unfold queue_span_a, queue_span_b;
         simpl; lia); [done|].
  apply Forall_cons in Hq as [[Hla Hlb] Hq]; simpl in Hla, Hlb.
  pose proof (find_longest_match_inside a b b2j alo ahi blo bhi Hla) as Hin.
  destruct (find_longest_match_matches b2j alo ahi blo bhi Hsound Hlb)
    as [Hinb Hmatch].
  destruct (find_longest_match a b b2j alo ahi blo bhi) as [[i j] k].
  unfold best_inside, block_inside in Hin, Hinb; simpl in Hin, Hinb.
  rewrite queue_span_a_cons, queue_span_b_cons.
  destruct (0 <? k)%nat eqn:Hk.
  - intros Hres. apply IH in Hres as (Hall & Ha & Hb); [| done | |].
    + split; [done|]. rewrite matched_app, matched_single in Ha, Hb.
      revert Ha Hb.
      destruct ((alo <? i)%nat && (blo <? j)%nat);
        destruct ((i + k <? ahi)%nat && (j + k <? bhi)%nat);
        rewrite ?queue_span_a_cons, ?queue_span_b_cons; lia.
    + destruct ((alo <? i)%nat && (blo <? j)%nat);
        destruct ((i + k <? ahi)%nat && (j + k <? bhi)%nat);
        repeat (apply Forall_cons; split); simpl; try done; lia.
    + apply Forall_app; split; [done|]. by repeat constructor.
  - intros Hres. apply IH in Hres as (Hall & Ha & Hb); [|done..].
    split; [done|]. lia.
Qed.

Lemma insert_block_matched x blocks :
  matched (insert_block x blocks) = (x.2 + matched blocks)%nat.
Proof.
  induction blocks as [|y r IH]; simpl; [done|].
  destruct (block_leb x y); [done|].
  unfold matched in *; simpl. rewrite IH. lia.
Qed.

Lemma sort_blocks_matched blocks : matched (sort_blocks blocks) = matched blocks.
Proof.
  induction blocks as [|x r IH]; [done|].
  unfold sort_blocks in *; simpl. rewrite insert_block_matched, IH. done.
Qed.

Lemma insert_block_Forall (P : nat * nat * nat → Prop) x blocks :
  P x → Forall P blocks → Forall P (insert_block x blocks).
Proof.
  intros Hx. induction 1 as [|y r Hy Hr IH]; simpl; [by repeat constructor|].
  destruct (block_leb x y); by repeat constructor.
Qed.

Lemma sort_blocks_Forall (P : nat * nat * nat → Prop) blocks :
  Forall P blocks → Forall P (sort_blocks blocks).
Proof.
  induction 1 as [|x r Hx Hr IH]; [done|].
  unfold sort_blocks in *; simpl. by apply insert_block_Forall.
Qed.

Lemma collapse_matched blocks : ∀ cur non_adjacent,
  matched (collapse cur blocks non_adjacent)
  = (matched non_adjacent + cur.2 + matched blocks)%nat.
Proof.
  induction blocks as [|[[i2 j2] k2] r IH]; intros [[i1 j1] k1] acc; simpl.
  - destruct (Nat.ltb_spec 0 k1); [|unfold matched; simpl; lia].
    rewrite matched_app. unfold matched; simpl. lia.
  - destruct (_ && _); rewrite IH; simpl.
    + unfold matched; simpl. lia.
    + destruct (Nat.ltb_spec 0 k1); [rewrite matched_app|];
        unfold matched; simpl; lia.
Qed.

Lemma collapse_matches blocks : ∀ cur non_adjacent,
  block_matches a b cur → Forall (block_matches a b) blocks →
  Forall (block_matches a b) non_adjacent →
  Forall (block_matches a b) (collapse cur blocks non_adjacent).
Proof.
  induction blocks as [|[[i2 j2] k2] r IH]; intros [[i1 j1] k1] acc Hcur Hall Hacc;
    simpl.
  - destruct (0 <? k1)%nat; [|done]. apply Forall_app; split; [done|].
    by repeat constructor.
  - apply Forall_cons in Hall as [H2 Hr].
    destruct (_ && _) eqn:Hadj.
    + apply andb_prop in Hadj as [Hi%Nat.eqb_eq Hj%Nat.eqb_eq].
      apply IH; [|done|done].
      intros t Ht; simpl in *.
      destruct (decide (t < k1)%nat); [by apply Hcur|].
      replace (i1 + t)%nat with (i2 + (t - k1))%nat by lia.
      replace (j1 + t)%nat with (j2 + (t - k1))%nat by lia.
      apply H2. simpl. lia.
    + apply IH; [done|done|].
      destruct (0 <? k1)%nat; [|done]. apply Forall_app; split; [done|].
      by repeat constructor.
Qed.
End MatcherBlocks.

(** ** The index [b2j] *)

Section ChainB.
Context {A : Type} `{EqDecision A}.

Lemma b2j_get_append (b2j : list (A * list nat)) elt i x :
  b2j_get (b2j_append b2j elt i) x
  = if decide (elt = x) then b2j_get b2j x ++ [i] else b2j_get b2j x.
Proof.
  induction b2j as [|[y indices] r IH]; simpl.
  - by destruct (decide (elt = x)).
  - destruct (decide (y = elt)) as [->|Hne]; simpl.
    + by destruct (decide (elt = x)).
    + destruct (decide (y = x)) as [->|]; [|done].
      by rewrite decide_False by done.
Qed.

Lemma chain_b_go_get (b : list A) : ∀ i b2j x,
  b2j_get (chain_b_go i b b2j) x = b2j_get b2j x ++ occurrences i b x.
Proof.
  induction b as [|elt r IH]; intros i b2j x; simpl.
  - by rewrite app_nil_r.
  - rewrite IH, b2j_get_append.
    destruct (decide (elt = x)); [by rewrite <-app_assoc|done].
Qed.

Lemma occurrences_elem (b : list A) x : ∀ i j,
  j ∈ occurrences i b x ↔ (i ≤ j)%nat ∧ b !! (j - i)%nat = Some x.
Proof.
  induction b as [|y r IH]; intros i j; simpl.
  - rewrite elem_of_nil, lookup_nil. split; [done|by intros [_ ?]].
  - destruct (decide (y = x)) as [->|Hne].
    + rewrite elem_of_cons, IH. split.
      * intros [->|[Hle Hat]].
        -- split; [lia|]. by rewrite Nat.sub_diag.
        -- split; [lia|]. by replace (j - i)%nat with (S (j - S i)) by lia.
      * intros [Hle Hat]. destruct (decide (j = i)) as [|Hji]; [by left|].
        right. split; [lia|].
        by replace (j - i)%nat with (S (j - S i)) in Hat by lia.
    + rewrite IH. split.
      * intros [Hle Hat]. split; [lia|].
        by replace (j - i)%nat with (S (j - S i)) by lia.
      * intros [Hle Hat]. destruct (decide (j = i)) as [->|Hji].
        { rewrite Nat.sub_diag in Hat. simpl in Hat. congruence. }
        split; [lia|].
        by replace (j - i)%nat with (S (j - S i)) in Hat by lia.
Qed.

Lemma b2j_append_keys (b2j : list (A * list nat)) elt i :
  (elt ∈ b2j.*1 → (b2j_append b2j elt i).*1 = b2j.*1)
  ∧ (elt ∉ b2j.*1 → (b2j_append b2j elt i).*1 = b2j.*1 ++ [elt]).
Proof.
  induction b2j as [|[y indices] r [IH1 IH2]]; simpl.
  - split; [by intros ?%elem_of_nil|done].
  - destruct (decide (y = elt)) as [->|Hne]; simpl.
    + split; [done|]. intros Hnot. exfalso. apply Hnot. by left.
    + split.
      * intros [->|Hin]%elem_of_cons; [done|]. f_equal. by apply IH1.
      * intros Hnot. f_equal. apply IH2. intros Hin. apply Hnot. by right.
Qed.

Lemma chain_b_go_keys (b : list A) : ∀ i b2j,
  NoDup b2j.*1 → NoDup (chain_b_go i b b2j).*1.
Proof.
  induction b as [|elt r IH]; intros i b2j Hnd; simpl; [done|].
  apply IH. destruct (b2j_append_keys b2j elt i) as [Hin Hout].
  destruct (decide (elt ∈ b2j.*1)); [by rewrite Hin|]. rewrite Hout by done.
  apply NoDup_app. split; [done|]. split; [|apply NoDup_singleton].
  by intros x Hx ->%list_elem_of_singleton.
Qed.

Lemma b2j_get_absent (b2j : list (A * list nat)) x :
  x ∉ b2j.*1 → b2j_get b2j x = [].
Proof.
  induction b2j as [|[y indices] r IH]; simpl; [done|].
  intros Hnot. destruct (decide (y = x)) as [->|].
  - exfalso. apply Hnot. by left.
  - apply IH. intros Hin. apply Hnot. by right.
Qed.

Lemma b2j_get_filter (P : A * list nat → Prop) `{∀ p, Decision (P p)}
    (b2j : list (A * list nat)) x :
  NoDup b2j.*1 →
  b2j_get (filter P b2j) x = b2j_get b2j x ∨ b2j_get (filter P b2j) x = [].
Proof.
  induction b2j as [|[y indices] r IH]; simpl; [by left|].
  intros [Hy Hr]%NoDup_cons.
  destruct (decide (P (y, indices))).
  - rewrite filter_cons_True by done. simpl.
    destruct (decide (y = x)); [by left|by apply IH].
  - rewrite filter_cons_False by done.
    destruct (decide (y = x)) as [->|]; [|by apply IH].
    right. apply b2j_get_absent. intros Hin. apply Hy.
    apply list_elem_of_fmap in Hin as (p & -> & Hp).
    apply list_elem_of_filter in Hp as [_ Hp].
    apply list_elem_of_fmap. by exists p.
Qed.

(** What [__chain_b] lists for [x]: all the places where [x] stands in
    [b], or nothing when [x] is popular. *)
Lemma chain_b_get (b : list A) x :
  b2j_get (chain_b b) x = occurrences 0 b x ∨ b2j_get (chain_b b) x = [].
Proof.
  unfold chain_b.
  assert (b2j_get (chain_b_go 0 b []) x = occurrences 0 b x) as Hget.
  { by rewrite chain_b_go_get. }
  destruct (200 <=? length b)%nat; [|by left].
  rewrite <-Hget. apply b2j_get_filter, chain_b_go_keys. simpl. constructor.
Qed.

Lemma chain_b_sound (b : list A) : b2j_sound b (chain_b b).
Proof.
  intros x j Hj. destruct (chain_b_get b x) as [Hget|Hget]; rewrite Hget in Hj.
  - apply occurrences_elem in Hj as [_ Hj]. by rewrite Nat.sub_0_r in Hj.
  - by apply elem_of_nil in Hj.
Qed.

(** The blocks the matcher returns are pieces of [a] and [b] that are
    equal, and they add up to no more than either length. *)
Lemma matching_blocks_spec (a b : list A) :
  Forall (block_matches a b) (matching_blocks a b)
  ∧ (matched (matching_blocks a b) ≤ length a)%nat
  ∧ (matched (matching_blocks a b) ≤ length b)%nat.
Proof.
  pose proof (matching_blocks_eq a b) as Heq.
  unfold get_matching_blocks in Heq.
  destruct (matching_loop a b (matching_fuel a) (chain_b b)
              [(0, length a, 0, length b)%nat] []) as [blocks|] eqn:Hloop;
    [|done].
  simpl in Heq. injection Heq as <-.
  apply matching_loop_blocks in Hloop as (Hall & Ha & Hb);
    [|apply chain_b_sound|repeat constructor; simpl; lia|done].
  unfold queue_span_a, queue_span_b in Ha, Hb; simpl in Ha, Hb.
  rewrite matched_app, collapse_matched, sort_blocks_matched.
  change (matched []) with 0%nat in *. rewrite matched_single. simpl.
  split; [|lia].
  apply Forall_app; split.
  - apply collapse_matches; [|by apply sort_blocks_Forall|done].
    intros t Ht. simpl in Ht. lia.
  - repeat constructor. intros t Ht. simpl in Ht. lia.
Qed.
End ChainB.

(** ** The ratio stays between 0 and 1 *)

Lemma calculate_ratio_unit_interval (matches length : nat) :
  (2 * matches ≤ length)%nat → unit_interval (calculate_ratio matches length).
Proof.
  intros Hle. unfold calculate_ratio.
  destruct (Nat.ltb_spec 0 length); [|apply unit_interval_1].
  rewrite <-Z2Qc_inj_mul. apply ratio_unit_interval; lia.
Qed.

Lemma sequence_ratio_unit_interval {A} `{EqDecision A} (a b : list A) :
  unit_interval (sequence_ratio a b).
Proof.
  unfold sequence_ratio. apply calculate_ratio_unit_interval.
  destruct (matching_blocks_spec a b) as (_ & Ha & Hb).
  unfold matched in Ha, Hb. lia.
Qed.

(** ** A sequence matched against itself *)

Section Diagonal.
Context {A : Type} `{EqDecision A}.
Variable a : list A.
Variable b2j : list (A * list nat).

Lemma run_to_eq j :
  run_to b2j a j = if listed b2j a j then S (prev_run b2j a j) else 0%nat.
Proof. by destruct j. Qed.

Lemma run_to_le j : (run_to b2j a j ≤ S j)%nat.
Proof.
  induction j as [|j IH]; simpl; [destruct (listed b2j a 0); lia|].
  destruct (listed b2j a (S j)); lia.
Qed.

Lemma scan_indices_diagonal i j2len : ∀ js newj2len best,
  StronglySorted lt js →
  (∀ j, j ∈ js → (j < length a)%nat ∧ listed b2j a j = true) →
  listed b2j a i = true →
  (∀ j v, j2len !! j = Some v →
     (v ≤ run_to b2j a j ∧ v ≤ prev_run b2j a i)%nat) →
  ((0 < prev_run b2j a i)%nat →
     j2len !! (i - 1)%nat = Some (prev_run b2j a i)) →
  diagonal_row b2j a i js newj2len best →
  diagonal_row b2j a i []
    (scan_indices i 0 (length a) j2len js newj2len best).1
    (scan_indices i 0 (length a) j2len js newj2len best).2.
Proof.
  intros js newj2len best Hsorted Hjs Hi Hold Hdiag.
  revert newj2len best Hsorted Hjs.
  induction js as [|j js IH]; intros newj2len best Hsorted Hjs Hrow; simpl;
    [done|].
  apply StronglySorted_inv in Hsorted as [Hsorted Hlt].
  destruct (Hjs j) as [Hjn Hj]; [by left|].
  destruct (Nat.leb_spec (length a) j); [lia|].
  set (k := (match j with O => 0 | S j' => default 0 (j2len !! j') end + 1)%nat).
  pose proof (run_to_eq i) as Hri. rewrite Hi in Hri.
  pose proof (run_to_eq j) as Hrj. rewrite Hj in Hrj.
  assert (k ≤ run_to b2j a j ∧ k ≤ run_to b2j a i)%nat as [Hkj Hki].
  { unfold k. destruct j as [|j'].
    - simpl in *. lia.
    - destruct (j2len !! j') as [v|] eqn:Hv; simpl in *; [|lia].
      destruct (Hold _ _ Hv). lia. }
  assert (j = i → k = run_to b2j a i) as Hexact.
  { intros ->. unfold k. rewrite Hri. destruct i as [|i']; [done|].
    replace (S i' - 1)%nat with i' in Hdiag by lia.
    simpl in *. destruct (decide (0 < run_to b2j a i')%nat) as [Hpos|Hzero].
    - rewrite Hdiag by done. simpl. lia.
    - destruct (j2len !! i') as [v|] eqn:Hv; simpl; [|lia].
      destruct (Hold _ _ Hv). simpl in *. lia. }
  destruct Hrow as (Hd & Hin & Hruns & Hnew & Hseen).
  apply IH; [done|by intros j' Hj'; apply Hjs; right|].
  assert (∀ j0 v, <[j := k]> newj2len !! j0 = Some v →
            (v ≤ run_to b2j a j0 ∧ v ≤ run_to b2j a i)%nat) as Hnew'.
  { intros j0 v. rewrite lookup_insert. case_decide; [|by apply Hnew].
    intros [= <-]. by subst j0. }
  destruct (lt_eq_lt_dec j i) as [[Hji| ->]|Hij].
  - (* below the diagonal *)
    destruct (Nat.ltb_spec best.2 k) as [Hbk|_].
    { specialize (Hruns j Hji). lia. }
    split; [done|]. split; [done|]. split; [done|]. split; [done|].
    destruct Hseen as [[->|Hrest]%elem_of_cons|[Hle Hat]]; [lia|by left|].
    right. split; [done|]. rewrite lookup_insert_ne by lia. done.
  - (* on the diagonal *)
    specialize (Hexact eq_refl). pose proof (run_to_le i).
    destruct (Nat.ltb_spec best.2 k) as [Hbk|Hbk].
    + split; [done|]. split; [simpl; lia|]. split.
      { intros j Hj'. specialize (Hruns j Hj'). simpl. lia. }
      split; [done|]. right. simpl. rewrite lookup_insert_eq. split; [lia|].
      by rewrite Hexact.
    + split; [done|]. split; [done|]. split; [done|]. split; [done|].
      right. rewrite lookup_insert_eq. split; [lia|]. by rewrite Hexact.
  - (* above the diagonal *)
    destruct Hseen as [[->|Hrest]%elem_of_cons|[Hle Hat]]; [lia| |].
    { eapply Forall_forall in Hlt; [|done]. lia. }
    destruct (Nat.ltb_spec best.2 k) as [Hbk|_]; [lia|].
    split; [done|]. split; [done|]. split; [done|]. split; [done|].
    right. split; [done|]. rewrite lookup_insert_ne by lia. done.
Qed.
End Diagonal.

Section SelfMatch.
Context {A : Type} `{EqDecision A}.
Variable a : list A.

Lemma occurrences_sorted (b : list A) x : ∀ i,
  StronglySorted lt (occurrences i b x)
  ∧ Forall (λ j, (i ≤ j)%nat) (occurrences i b x).
Proof.
  induction b as [|y r IH]; intros i; simpl; [by split; constructor|].
  destruct (IH (S i)) as [Hs Hall].
  assert (Forall (λ j, (i < j)%nat) (occurrences (S i) r x)) as Hlt.
  { eapply Forall_impl; [done|]. simpl. lia. }
  destruct (decide (y = x)).
  - split; [by constructor|]. constructor; [done|].
    eapply Forall_impl; [done|]. simpl. lia.
  - split; [done|]. eapply Forall_impl; [done|]. simpl. lia.
Qed.

Lemma scan_rows_diagonal n : ∀ i j2len best,
  (i + n ≤ length a)%nat →
  diagonal_rows (chain_b a) a i j2len best →
  (scan_rows a (chain_b a) 0 (length a) (seq i n) j2len best).1.1
  = (scan_rows a (chain_b a) 0 (length a) (seq i n) j2len best).1.2
  ∧ ((scan_rows a (chain_b a) 0 (length a) (seq i n) j2len best).1.1
     + (scan_rows a (chain_b a) 0 (length a) (seq i n) j2len best).2
     ≤ i + n)%nat.
Proof.
  induction n as [|n IH]; intros i j2len best Hlen Hrows; simpl.
  { destruct Hrows as (Hd & Hin & _). split; [done|lia]. }
  destruct Hrows as (Hd & Hin & Hruns & Hold & Hdiag).
  destruct (lookup_lt_is_Some_2 a i) as [x Hx]; [lia|]. rewrite Hx.
  pose proof (run_to_eq a (chain_b a) i) as Hri. unfold listed in Hri.
  rewrite Hx in Hri.
  destruct (b2j_get (chain_b a) x) as [|j0 js0] eqn:Hget.
  - (* a popular element: the row records nothing *)
    simpl. rewrite bool_decide_eq_false_2 in Hri by (by intros ?).
    replace (i + S n)%nat with (S i + n)%nat by lia.
    apply IH; [lia|]. split; [done|]. split; [lia|]. split.
    { intros j Hj. destruct (decide (j = i)) as [->|]; [lia|].
      apply Hruns. lia. }
    split; [by intros j v ?; simplify_map_eq|]. simpl. lia.
  - rewrite bool_decide_eq_true_2 in Hri by done.
    assert (listed (chain_b a) a i = true) as Hi.
    { unfold listed. rewrite Hx, Hget. by apply bool_decide_eq_true_2. }
    assert (j0 :: js0 = occurrences 0 a x) as Hocc.
    { destruct (chain_b_get a x) as [Heq|Heq]; rewrite Hget in Heq; done. }
    rewrite Hocc.
    pose proof (scan_indices_diagonal a (chain_b a) i j2len
                  (occurrences 0 a x) ∅ best) as Hrow.
    destruct Hrow as (Hd' & Hin' & Hruns' & Hnew' & Hseen').
    { apply occurrences_sorted. }
    { intros j [_ Hj]%occurrences_elem. rewrite Nat.sub_0_r in Hj.
      split; [by eapply lookup_lt_Some|].
      unfold listed. rewrite Hj, Hget. by apply bool_decide_eq_true_2. }
    { done. }
    { done. }
    { done. }
    { split; [done|]. split; [lia|]. split; [done|].
      split; [by intros j v ?; simplify_map_eq|].
      left. apply occurrences_elem. split; [lia|]. by rewrite Nat.sub_0_r. }
    destruct (scan_indices i 0 (length a) j2len (occurrences 0 a x) ∅ best)
      as [newj2len best'].
    simpl in *.
    destruct Hseen' as [Hnil|[Hle Hat]]; [by apply elem_of_nil in Hnil|].
    replace (i + S n)%nat with (S i + n)%nat by lia.
    apply IH; [lia|]. split; [done|]. split; [done|]. split.
    { intros j Hj. destruct (decide (j = i)) as [->|]; [done|].
      apply Hruns'. lia. }
    split; [done|]. simpl. intros _. by rewrite Nat.sub_0_r.
Qed.

Lemma same_at_diag i : (i < length a)%nat → same_at a a i i = true.
Proof.
  intros Hi. unfold same_at.
  destruct (lookup_lt_is_Some_2 a i Hi) as [x ->]. by apply bool_decide_eq_true_2.
Qed.

Lemma extend_left_diag i : ∀ k,
  (i ≤ length a)%nat → extend_left a a 0 0 i i k = (0, 0, i + k)%nat.
Proof.
  induction i as [|i IH]; intros k Hi; simpl; [done|].
  rewrite same_at_diag by lia.
  destruct (a !! i); simpl; rewrite IH by lia; f_equal; lia.
Qed.

Lemma extend_right_diag steps : ∀ k,
  (k + steps = length a)%nat →
  extend_right a a steps (length a) (length a) 0 0 k = length a.
Proof.
  induction steps as [|n IH]; intros k Hk; simpl; [lia|].
  rewrite same_at_diag by lia.
  destruct (Nat.ltb_spec k (length a)); [|lia].
  destruct (a !! k); simpl; apply IH; lia.
Qed.

Lemma find_longest_match_self :
  find_longest_match a a (chain_b a) 0 (length a) 0 (length a)
  = (0, 0, length a)%nat.
Proof.
  unfold find_longest_match.
  destruct (scan_rows_diagonal (length a - 0) 0 ∅ (0, 0, 0)%nat)
    as [Hd Hin]; [lia| |].
  { split; [done|]. split; [simpl; lia|]. split; [intros j Hj; lia|].
    split; [by intros j v ?; simplify_map_eq|]. simpl. lia. }
  destruct (scan_rows _ _ _ _ _ _ _) as [[i1 j1] k1]. simpl in Hd, Hin.
  subst j1. rewrite extend_left_diag by lia.
  rewrite extend_right_diag by lia. done.
Qed.

Lemma matching_blocks_self :
  matching_blocks a a
  = if decide (a = []) then [(0, 0, 0)%nat]
    else [(0, 0, length a); (length a, length a, 0)%nat].
Proof.
  assert (∀ fuel b2j blocks,
            matching_loop a a fuel b2j [] blocks = Some blocks) as Hstop.
  { by intros [|fuel] b2j blocks. }
  unfold matching_blocks, get_matching_blocks, matching_fuel.
  cbn [matching_loop]. rewrite find_longest_match_self.
  rewrite Nat.add_0_l, !Nat.ltb_irrefl. cbn [andb]. rewrite !Hstop.
  destruct (decide (a = [])) as [Hnil|Hne].
  - by rewrite Hnil.
  - destruct (Nat.ltb_spec 0 (length a)) as [Hpos|Hzero].
    + cbn [mbind option_bind default sort_blocks foldr insert_block app].
      cbn [collapse]. rewrite !Nat.eqb_refl. cbn [andb Nat.add].
      destruct (Nat.ltb_spec 0 (length a)); [done|lia].
    + destruct a; [done|simpl in Hzero; lia].
Qed.

Lemma sequence_ratio_self : sequence_ratio a a = 1%Qc.
Proof.
  unfold sequence_ratio. rewrite matching_blocks_self.
  destruct (decide (a = [])) as [->|Hne]; [by apply Qc_is_canon|].
  unfold calculate_ratio; simpl.
  assert (length a ≠ 0%nat) by by destruct a.
  destruct (Nat.ltb_spec 0 (length a + length a)); [|lia].
  rewrite <-Z2Qc_inj_mul.
  replace (2 * Z.of_nat (length a + 0))%Z with (Z.of_nat (length a + length a))
    by lia.
  apply Qc_div_self. lia.
Qed.
End SelfMatch.

(** ** The segment list *)

Lemma insert_segment_Permutation x l : insert_segment x l ≡ₚ x :: l.
Proof.
  induction l as [|y r IH]; simpl; [done|].
  case_decide; [done|]. rewrite IH. apply Permutation_swap.
Qed.

Lemma sort_segments_Permutation l : sort_segments l ≡ₚ l.
Proof.
  induction l as [|x r IH]; [done|].
  unfold sort_segments in *; simpl. by rewrite insert_segment_Permutation, IH.
Qed.

Lemma insert_segment_sorted x l :
  StronglySorted (λ s1 s2, (similarity s2 ≤ similarity s1)%Qc) l →
  StronglySorted (λ s1 s2, (similarity s2 ≤ similarity s1)%Qc)
    (insert_segment x l).
Proof.
  induction 1 as [|y r Hr IH Hy]; simpl; [by repeat constructor|].
  case_decide as Hle.
  - constructor; [by constructor|]. constructor; [done|].
    eapply Forall_impl; [done|]. simpl. intros z Hz. by eapply Qcle_trans.
  - constructor; [done|]. rewrite insert_segment_Permutation.
    constructor; [|done]. apply Qclt_le_weak. by apply Qcnot_le_lt.
Qed.

Lemma sort_segments_sorted l :
  StronglySorted (λ s1 s2, (similarity s2 ≤ similarity s1)%Qc) (sort_segments l).
Proof.
  induction l as [|x r IH]; [constructor|].
  unfold sort_segments in *; simpl. by apply insert_segment_sorted.
Qed.

Lemma StronglySorted_descending l :
  StronglySorted (λ s1 s2, (similarity s2 ≤ similarity s1)%Qc) l → descending l.
Proof.
  induction 1 as [|x r Hr IH Hx]; intros m n s1 s2 Hmn H1 H2.
  { by rewrite lookup_nil in H1. }
  destruct n as [|n]; [lia|]. simpl in H2. destruct m as [|m]; simpl in H1.
  - injection H1 as <-. eapply Forall_forall in Hx; [done|].
    by eapply list_elem_of_lookup_2.
  - eapply (IH m n); [lia|done|done].
Qed.

Lemma descending_take n l : descending l → descending (take n l).
Proof.
  intros Hl m k s1 s2 Hmk H1 H2.
  apply lookup_take_Some in H1 as [H1 _]. apply lookup_take_Some in H2 as [H2 _].
  by eapply Hl.
Qed.

(** Every segment comes from a matching block of the normalised lines
    that is at least [min_length] lines long. *)
Lemma segment_block self code1 code2 min_length seg :
  seg ∈ identify_similar_segments self code1 code2 min_length →
  ∃ block,
    block ∈ matching_blocks (split_on newline (preprocess_cpp self code1))
              (split_on newline (preprocess_cpp self code2))
    ∧ (min_length ≤ block.2)%nat
    ∧ seg = segment_of_block code1 code2 block.
Proof.
  unfold identify_similar_segments. rewrite sort_segments_Permutation.
  intros (block & -> & Hin)%list_elem_of_fmap.
  apply list_elem_of_filter in Hin as [Hlen Hin]. by exists block.
Qed.

Lemma block_matches_inside {A} `{EqDecision A} (a b : list A) i j k :
  block_matches a b (i, j, k) → (1 ≤ k)%nat →
  (i + k ≤ length a ∧ j + k ≤ length b)%nat.
Proof.
  intros Hm Hk. specialize (Hm (k - 1)%nat). simpl in Hm.
  unfold same_at in Hm.
  destruct (a !! (i + (k - 1))%nat) eqn:Ha; [|by specialize (Hm ltac:(lia))].
  destruct (b !! (j + (k - 1))%nat) eqn:Hb; [|by specialize (Hm ltac:(lia))].
  apply lookup_lt_Some in Ha, Hb. lia.
Qed.

Lemma block_matches_slices {A} `{EqDecision A} (a b : list A) i j k :
  block_matches a b (i, j, k) →
  slice a i ((i + k) `min` length a - i)
  = slice b j ((j + k) `min` length b - j).
Proof.
  intros Hm. destruct (decide (k = 0)%nat) as [->|Hk].
  { replace ((i + 0) `min` length a - i)%nat with 0%nat by lia.
    replace ((j + 0) `min` length b - j)%nat with 0%nat by lia. done. }
  destruct (block_matches_inside a b i j k Hm) as [Ha Hb]; [lia|].
  replace ((i + k) `min` length a - i)%nat with k by lia.
  replace ((j + k) `min` length b - j)%nat with k by lia.
  apply list_eq. intros t. unfold slice.
  destruct (decide (t < k)%nat) as [Ht|Ht].
  - rewrite !lookup_take_lt, !lookup_drop by done.
    specialize (Hm t Ht). simpl in Hm. unfold same_at in Hm.
    destruct (a !! (i + t)%nat); [|done]. destruct (b !! (j + t)%nat); [|done].
    by apply bool_decide_eq_true in Hm as ->.
  - by rewrite !lookup_take_ge by lia.
Qed.

(** ** The identifier table *)

Lemma rename_length units : ∀ counter identifier_map,
  length (rename units counter identifier_map) = length units.
Proof.
  induction units as [|[word| | |c] rest IH]; intros counter table; simpl;
    try by rewrite IH.
  - done.
  - destruct (is_keyword word); simpl; [by rewrite IH|].
    destruct (table !! word); simpl; by rewrite IH.
Qed.

Lemma table_injective_insert counter table word :
  table_injective counter table →
  table_injective (S counter) (<[word := var_name counter]> table).
Proof.
  intros [Hissued Hone]. split.
  - intros w name. rewrite lookup_insert. case_decide.
    + intros [= <-]. exists counter. split; [lia|done].
    + intros Hw. destruct (Hissued _ _ Hw) as (i & Hi & ->).
      exists i. split; [lia|done].
  - intros w1 w2 name. rewrite !lookup_insert.
    repeat case_decide; subst; try done.
    + intros [= <-] Hw. destruct (Hissued _ _ Hw) as (i & Hi & Heq).
      apply var_name_inj in Heq. lia.
    + intros Hw [= <-]. destruct (Hissued _ _ Hw) as (i & Hi & Heq).
      apply var_name_inj in Heq. lia.
    + apply Hone.
Qed.

Lemma rename_table units : ∀ counter table,
  table_injective counter table →
  ∃ counter' table',
    table ⊆ table' ∧ table_injective counter' table'
    ∧ ∀ n unit, units !! n = Some unit →
        match unit with
        | Word word =>
            if is_keyword word
            then rename units counter table !! n = Some (Word word)
            else ∃ name, table' !! word = Some name
                         ∧ rename units counter table !! n = Some (Word name)
        | _ => rename units counter table !! n = Some unit
        end.
Proof.
  induction units as [|unit rest IH]; intros counter table Hinj.
  { exists counter, table. split; [done|]. split; [done|]. by intros n u. }
  destruct unit as [word| | |c]; simpl.
  - destruct (is_keyword word) eqn:Hkw; [|destruct (table !! word) as [name|] eqn:Hname].
    + destruct (IH counter table Hinj) as (counter' & table' & Hsub & Hinj' & Hall).
      exists counter', table'. split; [done|]. split; [done|].
      intros [|n] unit; simpl; [|by apply Hall]. intros [= <-]. by rewrite Hkw.
    + destruct (IH counter table Hinj) as (counter' & table' & Hsub & Hinj' & Hall).
      exists counter', table'. split; [done|]. split; [done|].
      intros [|n] unit; simpl; [|by apply Hall]. intros [= <-]. rewrite Hkw.
      exists name. split; [by eapply lookup_weaken|done].
    + destruct (IH (S counter) (<[word := var_name counter]> table))
        as (counter' & table' & Hsub & Hinj' & Hall).
      { by apply table_injective_insert. }
      exists counter', table'. split.
      { etrans; [|done]. by apply insert_subseteq. }
      split; [done|].
      intros [|n] unit; simpl; [|by apply Hall]. intros [= <-]. rewrite Hkw.
      exists (var_name counter). split; [|done].
      eapply lookup_weaken; [|done]. by rewrite lookup_insert_eq.
  - destruct (IH counter table Hinj) as (counter' & table' & Hsub & Hinj' & Hall).
    exists counter', table'. split; [done|]. split; [done|].
    intros [|n] unit; simpl; [|by apply Hall]. by intros [= <-].
  - destruct (IH counter table Hinj) as (counter' & table' & Hsub & Hinj' & Hall).
    exists counter', table'. split; [done|]. split; [done|].
    intros [|n] unit; simpl; [|by apply Hall]. by intros [= <-].
  - destruct (IH counter table Hinj) as (counter' & table' & Hsub & Hinj' & Hall).
    exists counter', table'. split; [done|]. split; [done|].
    intros [|n] unit; simpl; [|by apply Hall]. by intros [= <-].
Qed.

Lemma table_injective_empty : table_injective 0 ∅.
Proof. split; [by intros w name ?; simplify_map_eq|by intros w1 w2 name ?; simplify_map_eq]. Qed.

Lemma rename_shapes units : ∀ counter table,
  issued_names counter table →
  Forall (λ unit, plain unit → good unit) units →
  Forall unit_shape (rename units counter table).
Proof.
  induction units as [|unit rest IH]; intros counter table Hissued Hgood; simpl;
    [done|].
  apply Forall_cons in Hgood as [Hunit Hrest].
  destruct unit as [word| | |c]; try (constructor; [|by apply IH]); try done.
  - destruct (is_keyword word) eqn:Hkw.
    { constructor; [by left|by apply IH]. }
    destruct (table !! word) as [name|] eqn:Hname.
    + constructor; [|by apply IH]. right.
      destruct (Hissued _ _ Hname) as (i & _ & ->). by exists i.
    + constructor; [right; by exists counter|]. apply IH; [|done].
      intros w name. rewrite lookup_insert. case_decide.
      * intros [= <-]. exists counter. split; [lia|done].
      * intros Hw. destruct (Hissued _ _ Hw) as (i & Hi & ->).
        exists i. split; [lia|done].
  - by apply Hunit.
Qed.

Lemma rename_relabel f units : ∀ counter table1 table2,
  (∀ w, Word w ∈ units → is_keyword w = false → is_keyword (f w) = false) →
  (∀ w1 w2, Word w1 ∈ units → Word w2 ∈ units →
     is_keyword w1 = false → is_keyword w2 = false → f w1 = f w2 → w1 = w2) →
  (∀ w, Word w ∈ units → is_keyword w = false →
     table2 !! f w = table1 !! w) →
  rename (map (relabel f) units) counter table2 = rename units counter table1.
Proof.
  induction units as [|unit rest IH]; intros counter table1 table2 Hkw Hinj Hrel;
    simpl; [done|].
  assert (∀ w, Word w ∈ rest → is_keyword w = false → is_keyword (f w) = false)
    as Hkw'.
  { intros w Hw. apply Hkw. by right. }
  assert (∀ w1 w2, Word w1 ∈ rest → Word w2 ∈ rest →
            is_keyword w1 = false → is_keyword w2 = false →
            f w1 = f w2 → w1 = w2) as Hinj'.
  { intros w1 w2 H1 H2. apply Hinj; by right. }
  assert (∀ w, Word w ∈ rest → is_keyword w = false →
            table2 !! f w = table1 !! w) as Hrel'.
  { intros w Hw. apply Hrel. by right. }
  destruct unit as [word| | |c]; simpl; try (f_equal; by apply IH).
  destruct (is_keyword word) eqn:Hword; simpl.
  { rewrite Hword. f_equal. by apply IH. }
  rewrite (Hkw word) by (done || by left).
  rewrite (Hrel word) by (done || by left).
  destruct (table1 !! word) as [name|] eqn:Hname; f_equal; [by apply IH|].
  apply IH; [done|done|].
  intros w Hw Hwkw. rewrite !lookup_insert.
  destruct (decide (word = w)) as [->|Hne].
  - by rewrite decide_True.
  - rewrite decide_False; [by apply Hrel'|].
    intros Heq. apply Hne. apply Hinj; [by left|by right|done..].
Qed.

(** ** Literals that are not closed *)

Lemma scan_string_absent quote n : ∀ s,
  (length s ≤ n)%nat → quote ∉ s → scan_string quote s = length s.
Proof.
  induction n as [|n IH]; intros s Hlen Hnot.
  { by destruct s; [|simpl in Hlen; lia]. }
  destruct s as [|c r]; [done|]. simpl.
  destruct (Ascii.eqb_spec c quote) as [->|Hc].
  { exfalso. apply Hnot. by left. }
  assert (quote ∉ r) as Hr by (intros ?; apply Hnot; by right).
  destruct (Ascii.eqb c "\").
  - destruct r as [|d r']; [done|].
    rewrite IH; [done|simpl in *; lia|]. intros ?. apply Hr. by right.
  - rewrite IH; [done|simpl in *; lia|done].
Qed.

Lemma tokenize_skip_all code : ∀ skip counter table,
  (length code ≤ skip)%nat → tokenize skip code counter table = [].
Proof.
  induction code as [|c rest IH]; intros skip counter table Hlen; simpl; [done|].
  destruct skip as [|k]; [simpl in Hlen; lia|]. apply IH. simpl in Hlen. lia.
Qed.

(** ** The comment stage *)

Lemma re_sub_sublist (m : re_match) :
  (∀ s repl n, m s = Some (repl, n) → repl = []) →
  ∀ code skip, sublist (re_sub m skip code) code.
Proof.
  intros Hm. induction code as [|c rest IH]; intros skip; simpl; [done|].
  destruct skip as [|k]; [|by apply sublist_cons].
  destruct (m (c :: rest)) as [[repl n]|] eqn:Hmatch.
  - rewrite (Hm _ _ _ Hmatch). simpl. by apply sublist_cons.
  - by apply sublist_skip.
Qed.

Lemma remove_comments_sublist code : sublist (remove_comments code) code.
Proof.
  unfold remove_comments. etrans; apply re_sub_sublist.
  - intros s repl n. unfold line_comment.
    destruct s as [|c [|d r]]; try done. by destruct (_ && _); [intros [= <- _]|].
  - intros s repl n. unfold block_comment.
    destruct s as [|c [|d r]]; try done. destruct (_ && _); [|done].
    destruct (find_close r); [|done]. by intros [= <- _].
Qed.

Lemma slash_free_spaced code : "/" ∉ code → slash_spaced code.
Proof.
  induction code as [|c rest IH]; intros Hnot; simpl; [done|]. split.
  - intros ->. exfalso. apply Hnot. by left.
  - apply IH. intros ?. apply Hnot. by right.
Qed.

(** ** k-grams of size 0 *)

Section ZeroKgram.
Variable md5 : list ascii → Z.

Lemma get_kgram_hashes_zero code :
  get_kgram_hashes md5 code 0
  = replicate (S (length (split code))) (md5 []).
Proof.
  unfold get_kgram_hashes.
  assert (∀ n i, map md5 (map (λ i, join [" "] (slice (split code) i 0)) (seq i n))
                 = replicate n (md5 [])) as Hall.
  { induction n as [|n IH]; intros i; [done|]. simpl. f_equal. apply IH. }
  change (length (split code) <? 0)%nat with false. cbv iota.
  replace (length (split code) - 0 + 1)%nat with (S (length (split code)))
    by lia.
  apply Hall.
Qed.

Lemma winnow_elem (hashes l : list Z) (w : nat) :
  (1 ≤ w)%nat → winnow hashes w = inr l → ∀ h, h ∈ l → h ∈ hashes.
Proof.
  intros Hw. destruct (decide (length hashes < w)%nat).
  - rewrite winnow_short by done. by intros [= <-].
  - destruct (winnow_long hashes w) as (selected & Hlen & Hsel & ->); [lia|].
    intros [= <-] h Hh%keep_changes_elem.
    apply list_elem_of_fmap in Hh as ([m p] & -> & Hin).
    apply list_elem_of_lookup in Hin as [i Hi].
    destruct (Hsel i m p Hi) as (_ & Hat & _).
    eapply slice_elem, list_elem_of_lookup_2, Hat.
Qed.

Lemma winnow_replicate (n w : nat) (h : Z) (l : list Z) :
  (1 ≤ w)%nat → winnow (replicate (S n) h) w = inr l →
  (list_to_set l : gset Z) = {[ h ]}.
Proof.
  intros Hw Hl.
  assert (l ≠ []) as Hne.
  { eapply (winnow_nonempty (replicate (S n) h)); [done| |done]. by simpl. }
  assert (∀ x, x ∈ l → x = h) as Hall.
  { intros x Hx. eapply winnow_elem in Hx; [|done|done].
    by apply elem_of_replicate in Hx as [-> _]. }
  apply set_eq. intros x. rewrite elem_of_list_to_set, elem_of_singleton. split.
  - apply Hall.
  - intros ->. destruct l as [|y l]; [done|].
    rewrite (Hall y) by by left. by left.
Qed.
End ZeroKgram.


(** ** Whitespace runs *)

Lemma squeeze_true_drop rest :
  squeeze true rest
  = squeeze false (drop (length (take_while isspace rest)) rest).
Proof.
  induction rest as [|c r IH]; simpl; [done|].
  destruct (isspace c) eqn:Hc; simpl; [done|]. by rewrite Hc.
Qed.

Lemma whitespace_run_squeeze n : ∀ code,
  (length code ≤ n)%nat → re_sub whitespace_run 0 code = squeeze false code.
Proof.
  induction n as [|n IH]; intros code Hlen.
  { by destruct code; [|simpl in Hlen; lia]. }
  destruct code as [|c rest]; [done|]. simpl in Hlen.
  destruct (isspace c) eqn:Hc.
  - rewrite whitespace_run_space by done. simpl. rewrite Hc.
    rewrite squeeze_true_drop, IH; [done|]. rewrite length_drop. lia.
  - rewrite whitespace_run_other by done. simpl. rewrite Hc.
    rewrite IH; [done|lia].
Qed.

Lemma squeeze_run in_run run rest :
  run ≠ [] → Forall (λ c, isspace c = true) run →
  squeeze in_run (run ++ rest)
  = (if in_run then [] else [" "]) ++ squeeze true rest.
Proof.
  intros Hne Hrun. revert in_run.
  induction Hrun as [|c run Hc Hrun IH]; intros in_run; [done|].
  simpl. rewrite Hc. destruct run as [|d run].
  - by destruct in_run.
  - destruct in_run; rewrite IH by done; done.
Qed.

Lemma squeeze_app_run before run1 run2 rest : ∀ in_run,
  run1 ≠ [] → run2 ≠ [] →
  Forall (λ c, isspace c = true) run1 → Forall (λ c, isspace c = true) run2 →
  squeeze in_run (before ++ run1 ++ rest)
  = squeeze in_run (before ++ run2 ++ rest).
Proof.
  induction before as [|c before IH]; intros in_run Hne1 Hne2 H1 H2; simpl.
  - by rewrite !squeeze_run.
  - destruct (isspace c); [destruct in_run|]; by rewrite IH.
Qed.

(** ** The names the structure patterns capture *)

Lemma re_findall_Forall (P : list ascii → Prop) (m : re_group_match) :
  (∀ s group n, m s = Some (group, n) → P group) →
  ∀ code skip, Forall P (re_findall m skip code).
Proof.
  intros Hm. induction code as [|c rest IH]; intros skip; simpl; [done|].
  destruct skip as [|k]; [|done].
  destruct (m (c :: rest)) as [[group n]|] eqn:Hmatch; [|done].
  constructor; [by eapply Hm|done].
Qed.

Lemma take_while_word_run s c name :
  take_while isword s = c :: name → word_run (c :: name).
Proof.
  intros Heq. split; [done|]. rewrite <-Heq. apply take_while_Forall.
Qed.

Lemma function_pattern_name code group n :
  function_pattern code = Some (group, n) → word_run group.
Proof.
  unfold function_pattern.
  destruct (take_while isword code) as [|? w1]; [done|].
  set (s1 := drop _ code).
  destruct (take_while isspace s1) as [|? sp1] eqn:Hsp1; [done|].
  set (s2 := drop _ s1).
  destruct (take_while isword s2) as [|c name] eqn:Hname; [done|].
  set (s3 := drop _ s2).
  destruct (drop _ s3) as [|open s4] eqn:H4; [done|].
  destruct (drop _ s4) as [|? s5] eqn:H5; [done|].
  destruct (drop _ s5) as [|brace s6] eqn:H6; [done|].
  destruct (drop _ s6) as [|? ?] eqn:H7; [done|].
  destruct (_ && _); [|done]. intros [= <- _].
  by eapply take_while_word_run.
Qed.

Lemma class_pattern_name code group n :
  class_pattern code = Some (group, n) → word_run group.
Proof.
  unfold class_pattern. destruct (starts_with _ _); [|done].
  set (s1 := drop 5 code).
  destruct (take_while isspace s1) as [|? sp] eqn:Hsp; [done|].
  set (s2 := drop _ s1).
  destruct (take_while isword s2) as [|c name] eqn:Hname; [done|].
  set (s3 := drop _ s2).
  destruct (drop _ s3) as [|? s4] eqn:H4; [done|].
  destruct (drop _ s4) as [|? ?] eqn:H5; [done|].
  intros [= <- _]. by eapply take_while_word_run.
Qed.

(** ** The text stages keep the characters that are not whitespace *)








(** The two stages do not know the literals: the text
    [s = "a  =  b // c";] loses the blanks inside its string literal and
    everything from [//] on, the closing quote included; with the
    whitespace kept the comment stage alone cuts the literal, and with the
    comments kept the whitespace stage alone squeezes it. *)
Lemma text_stages_reach_into_literals :
  preprocess_cpp keep_identifiers sample_literal
  = py "s=" ++ ["034"] ++ py "a=b "
  ∧ preprocess_cpp keep_text sample_literal
    = py "s = " ++ ["034"] ++ py "a  =  b "
  ∧ preprocess_cpp
      {| ignore_comments := false; ignore_whitespace := true;
         normalize_identifiers := false |} sample_literal
    = py "s=" ++ ["034"] ++ py "a=b//c" ++ ["034"] ++ py ";".
Proof. repeat split; vm_compute; reflexivity. Qed.

(** ** Statements *)

Section Further.
Variable md5 : list ascii → Z.

(** X1. With "Ignore whitespace" ticked the normalised text holds no
    newline, so splitting it into lines gives the one line that is the
    whole text. *)
Theorem normalized_text_is_one_line self code :
  ignore_whitespace self = true →
  (newline ∉ preprocess_cpp self code)
  ∧ split_on newline (preprocess_cpp self code) = [preprocess_cpp self code].
Proof.
  intros Hws. split; [|by apply preprocess_one_line].
  pose proof (preprocess_no_newline self code Hws) as Hall. intros Hin.
  eapply Forall_forall in Hall; [|done]. done.
Qed.

(** X2. Every token the tokenising loop emits is a C++ keyword of its
    list, a canonical name [VAR_n], one of the markers [NUM] and [STR], or
    a single character that is neither a letter, an underscore, a digit
    nor a quote: no identifier and no literal of the input is passed on
    as written. *)
Theorem tokens_have_canonical_shape code :
  Forall token_shape (tokenize 0 code 0 ∅).
Proof.
  rewrite tokenize_lexemes. apply Forall_fmap.
  eapply Forall_impl.
  - apply rename_shapes; [|apply lexemes_good].
    intros w name Hw. by rewrite lookup_empty in Hw.
  - intros [word| | |c] Hshape; simpl in *.
    + destruct Hshape as [Hkw|Hvar]; [by left|right; by left].
    + right; right; by left.
    + right; right; right; by left.
    + right; right; right; right. by exists c.
Qed.

(** X3. The renaming of identifiers is consistent and injective: there is
    one token for every lexical unit; a keyword is passed on as it is; and
    two identifiers that are not keywords get the same token exactly when
    they are the same identifier. *)
Theorem identifiers_renamed_consistently code :
  let units := lexemes 0 code in
  let tokens := tokenize 0 code 0 ∅ in
  length tokens = length units
  ∧ (∀ n word, units !! n = Some (Word word) → is_keyword word = true →
       tokens !! n = Some word)
  ∧ (∀ n1 n2 word1 word2 token1 token2,
       units !! n1 = Some (Word word1) → units !! n2 = Some (Word word2) →
       is_keyword word1 = false → is_keyword word2 = false →
       tokens !! n1 = Some token1 → tokens !! n2 = Some token2 →
       (token1 = token2 ↔ word1 = word2)).
Proof.
  intros units tokens. unfold tokens. rewrite tokenize_lexemes.
  fold units. rewrite length_map, rename_length.
  destruct (rename_table units 0 ∅ table_injective_empty)
    as (counter & table & _ & [_ Hone] & Hall).
  split; [done|]. split.
  - intros n word Hn Hkw. specialize (Hall n _ Hn). simpl in Hall.
    rewrite Hkw in Hall. by rewrite list_lookup_fmap, Hall.
  - intros n1 n2 word1 word2 token1 token2 H1 H2 Hkw1 Hkw2.
    pose proof (Hall n1 _ H1) as Hu1. pose proof (Hall n2 _ H2) as Hu2.
    simpl in Hu1, Hu2. rewrite Hkw1 in Hu1. rewrite Hkw2 in Hu2.
    destruct Hu1 as (name1 & Ht1 & Hr1). destruct Hu2 as (name2 & Ht2 & Hr2).
    rewrite !list_lookup_fmap, Hr1, Hr2. simpl. intros [= <-] [= <-]. split.
    + intros ->. by eapply Hone.
    + intros ->. congruence.
Qed.

(** X4. Renaming identifiers is invisible: when the lexical units of a
    second text are those of the first with every identifier [w] written
    [f w], for an [f] that is injective on the identifiers of the first
    text and makes no keyword of them, the two normalised texts are equal;
    so their line score is 1 and their fingerprint score is 1, or 0 when
    the text has fewer than five tokens. *)
Theorem consistent_renaming_is_invisible f self code1 code2 :
  normalize_identifiers self = true →
  (∀ w, Word w ∈ lexemes 0 (cleaned self code1) → is_keyword w = false →
     is_keyword (f w) = false) →
  (∀ w1 w2, Word w1 ∈ lexemes 0 (cleaned self code1) →
     Word w2 ∈ lexemes 0 (cleaned self code1) →
     is_keyword w1 = false → is_keyword w2 = false → f w1 = f w2 → w1 = w2) →
  lexemes 0 (cleaned self code2)
  = map (relabel f) (lexemes 0 (cleaned self code1)) →
  preprocess_cpp self code2 = preprocess_cpp self code1
  ∧ calculate_line_similarity self code1 code2 = 1%Qc
  ∧ calculate_moss_similarity md5 self code1 code2 5 10
    = inr (if decide (5 ≤ length (split (preprocess_cpp self code1)))%nat
           then 1%Qc else 0%Qc).
Proof.
  intros Hnorm Hkw Hinj Hunits.
  assert (preprocess_cpp self code2 = preprocess_cpp self code1) as Heq.
  { unfold preprocess_cpp. rewrite Hnorm. f_equal.
    rewrite !tokenize_lexemes, Hunits. f_equal.
    apply rename_relabel; [done|done|]. intros w _ _. by rewrite !lookup_empty. }
  split; [done|]. split.
  - unfold calculate_line_similarity. rewrite Heq. apply sequence_ratio_self.
  - unfold calculate_moss_similarity. rewrite Heq.
    fold (calculate_moss_similarity md5 self code1 code1 5 10).
    case_decide as Hlen.
    + apply moss_identical; [lia|done].
    + destruct (winnow_total (get_kgram_hashes md5 (preprocess_cpp self code1) 5) 10)
        as [l Hl]; [lia|].
      rewrite (moss_jaccard md5 _ _ _ _ _ l l) by done.
      rewrite get_kgram_hashes_short, winnow_nil in Hl by lia.
      injection Hl as <-. unfold jaccard. rewrite decide_True; [done|by left].
Qed.

(** X5. A string or character literal that is not closed swallows the
    rest of the text: when the quote that opens it does not occur again,
    the loop emits the one marker [STR] and nothing after it. *)
Theorem unclosed_literal_swallows_rest quote rest counter identifier_map :
  isquote quote = true → quote ∉ rest →
  tokenize 0 (quote :: rest) counter identifier_map = [py "STR"].
Proof.
  intros Hquote Hnot. simpl.
  assert (isalpha quote || Ascii.eqb quote "_" = false ∧ isdigit quote = false)
    as [-> ->].
  { unfold isquote in Hquote. apply orb_prop in Hquote as [Hq|Hq];
      apply Ascii.eqb_eq in Hq; by subst. }
  rewrite Hquote. f_equal. apply tokenize_skip_all.
  by rewrite (scan_string_absent quote (length rest)).
Qed.

(** X6. The comment stage only deletes: with the other two options
    unticked the normalised text is a subsequence of the input, whether
    comments are ignored or not, and a text without a slash is returned
    unchanged. *)
Theorem comment_stage_only_deletes (comments : bool) code :
  let self := {| ignore_comments := comments; ignore_whitespace := false;
                 normalize_identifiers := false |} in
  sublist (preprocess_cpp self code) code
  ∧ ("/" ∉ code → preprocess_cpp self code = code).
Proof.
  unfold preprocess_cpp, cleaned; simpl. destruct comments; [|done]. split.
  - apply remove_comments_sublist.
  - intros Hnot. unfold remove_comments.
    rewrite block_comment_absent by by apply slash_free_spaced.
    by apply line_comment_absent, slash_free_spaced.
Qed.

(** X7. The winnowing guarantee: of every window of [w] consecutive
    hashes the minimum is among the fingerprints; every fingerprint is one
    of the hashes; and no fingerprint stands twice in a row. *)
Theorem winnow_density (hashes : list Z) (w : nat) :
  (1 ≤ w ≤ length hashes)%nat →
  ∃ l, winnow hashes w = inr l
    ∧ (∀ h, h ∈ l → h ∈ hashes)
    ∧ (∀ n, (n + w ≤ length hashes)%nat →
         ∃ m, m ∈ l ∧ m ∈ slice hashes n w
              ∧ ∀ x, x ∈ slice hashes n w → (m ≤ x)%Z)
    ∧ no_repeat l.
Proof.
  intros Hw. destruct (winnow_long hashes w Hw) as (selected & Hlen & Hsel & ->).
  eexists; split; [done|]. split; [|split].
  - intros h Hh%keep_changes_elem.
    apply list_elem_of_fmap in Hh as ([m p] & -> & Hin).
    apply list_elem_of_lookup in Hin as [n Hn].
    destruct (Hsel n m p Hn) as (_ & Hat & _).
    eapply slice_elem, list_elem_of_lookup_2, Hat.
  - intros n Hn.
    destruct (lookup_lt_is_Some_2 selected n) as [[m p] Hmp]; [lia|].
    destruct (Hsel n m p Hmp) as (_ & Hat & Hmin & _).
    exists m. split; [|split; [by eapply list_elem_of_lookup_2|done]].
    destruct (keep_changes_covers (map fst selected) None m); [|done|done].
    apply list_elem_of_fmap. exists (m, p). split; [done|].
    by eapply list_elem_of_lookup_2.
  - apply keep_changes_no_repeat.
Qed.

(** X8. A window of size 0: the first window is empty, [min] raises
    ValueError, and so does the fingerprint measure, whatever the texts
    and the k-gram size. *)
Theorem zero_window_raises self code1 code2 (k : nat) (hashes : list Z) :
  ∃ msg,
    winnow hashes 0 = inl (ValueError msg)
    ∧ calculate_moss_similarity md5 self code1 code2 k 0 = inl (ValueError msg).
Proof.
  eexists. split; [apply winnow_zero_window|].
  unfold calculate_moss_similarity. rewrite !winnow_zero_window. reflexivity.
Qed.

(** X9. The fingerprint score lies between 0 and 1. *)
Theorem moss_in_unit_interval self code1 code2 (k w : nat) :
  (1 ≤ w)%nat →
  ∃ q, calculate_moss_similarity md5 self code1 code2 k w = inr q
       ∧ (0 ≤ q)%Qc ∧ (q ≤ 1)%Qc.
Proof.
  intros Hw.
  destruct (winnow_total (get_kgram_hashes md5 (preprocess_cpp self code1) k) w Hw)
    as [l1 H1].
  destruct (winnow_total (get_kgram_hashes md5 (preprocess_cpp self code2) k) w Hw)
    as [l2 H2].
  eexists. split; [by apply moss_jaccard|]. apply jaccard_unit_interval.
Qed.

(** X10. The fingerprint score is 1 exactly when the two fingerprint
    sequences hold the same hashes and are not empty, and 0 exactly when
    they share no hash. *)
Theorem moss_extremes self code1 code2 (k w : nat) :
  (1 ≤ w)%nat →
  ∃ l1 l2 : list Z,
    winnow (get_kgram_hashes md5 (preprocess_cpp self code1) k) w = inr l1
    ∧ winnow (get_kgram_hashes md5 (preprocess_cpp self code2) k) w = inr l2
    ∧ (calculate_moss_similarity md5 self code1 code2 k w = inr 1%Qc
       ↔ (list_to_set l1 : gset Z) = list_to_set l2 ∧ l1 ≠ [])
    ∧ (calculate_moss_similarity md5 self code1 code2 k w = inr 0%Qc
       ↔ ∀ h, h ∈ l1 → h ∉ l2).
Proof.
  intros Hw.
  destruct (winnow_total (get_kgram_hashes md5 (preprocess_cpp self code1) k) w Hw)
    as [l1 H1].
  destruct (winnow_total (get_kgram_hashes md5 (preprocess_cpp self code2) k) w Hw)
    as [l2 H2].
  exists l1, l2. split; [done|]. split; [done|].
  rewrite (moss_jaccard md5 _ _ _ _ _ l1 l2) by done. split.
  - split.
    + intros [= Hq]. apply jaccard_one_iff in Hq as [Heq Hne].
      split; [done|]. by intros ->.
    + intros [Heq Hne]. f_equal. apply jaccard_one_iff. split; [done|].
      by apply list_to_set_nonempty.
  - split.
    + intros [= Hq]. apply jaccard_zero_iff in Hq. set_solver.
    + intros Hdisj. f_equal. apply jaccard_zero_iff. set_solver.
Qed.

(** X11. A k-gram size of 0: every k-gram is the empty string, both
    fingerprint sets are the one hash of it, and the fingerprint score is
    1 whatever the two texts are. *)
Theorem zero_kgram_size_scores_one self code1 code2 (w : nat) :
  (1 ≤ w)%nat →
  calculate_moss_similarity md5 self code1 code2 0 w = inr 1%Qc.
Proof.
  intros Hw.
  destruct (winnow_total (get_kgram_hashes md5 (preprocess_cpp self code1) 0) w Hw)
    as [l1 H1].
  destruct (winnow_total (get_kgram_hashes md5 (preprocess_cpp self code2) 0) w Hw)
    as [l2 H2].
  rewrite (moss_jaccard md5 _ _ _ _ _ l1 l2) by done.
  rewrite get_kgram_hashes_zero in H1, H2.
  rewrite (winnow_replicate _ _ _ _ Hw H1), (winnow_replicate _ _ _ _ Hw H2).
  f_equal. apply jaccard_refl. set_solver.
Qed.

(** X12. The structure score is defined for every pair of texts and lies
    between 0 and 1. *)
Theorem structure_in_unit_interval code1 code2 :
  ∃ q, calculate_structure_similarity code1 code2 = inr q
       ∧ (0 ≤ q)%Qc ∧ (q ≤ 1)%Qc.
Proof.
  unfold calculate_structure_similarity.
  destruct (count_similarity_total (functions (extract_structure code1))
              (functions (extract_structure code2))) as [f Hf].
  destruct (count_similarity_total (classes (extract_structure code1))
              (classes (extract_structure code2))) as [c Hc].
  destruct (control_similarity_total (control_structures (extract_structure code1))
              (control_structures (extract_structure code2))) as [x Hx].
  rewrite Hf, Hc, Hx. eexists. split; [done|].
  apply count_similarity_unit_interval in Hf as [??], Hc as [??].
  apply control_similarity_unit_interval in Hx as [??];
    [|apply control_structures_nonneg..].
  split; qc_lra.
Qed.

Lemma count_similarity_empty :
  count_similarity (∅ : gmultiset (list ascii)) ∅ = inr 1%Qc.
Proof. unfold count_similarity. by rewrite decide_True. Qed.

Lemma moss_result_unit_interval self code1 code2 q :
  calculate_moss_similarity md5 self code1 code2 5 10 = inr q → unit_interval q.
Proof.
  destruct (winnow_total (get_kgram_hashes md5 (preprocess_cpp self code1) 5) 10)
    as [l1 H1]; [lia|].
  destruct (winnow_total (get_kgram_hashes md5 (preprocess_cpp self code2) 5) 10)
    as [l2 H2]; [lia|].
  rewrite (moss_jaccard md5 _ _ _ _ _ l1 l2) by done. intros [= <-].
  apply jaccard_unit_interval.
Qed.

Lemma structure_result_unit_interval code1 code2 q :
  calculate_structure_similarity code1 code2 = inr q → unit_interval q.
Proof.
  unfold calculate_structure_similarity.
  destruct (count_similarity_total (functions (extract_structure code1))
              (functions (extract_structure code2))) as [f Hf].
  destruct (count_similarity_total (classes (extract_structure code1))
              (classes (extract_structure code2))) as [c Hc].
  destruct (control_similarity_total (control_structures (extract_structure code1))
              (control_structures (extract_structure code2))) as [x Hx].
  rewrite Hf, Hc, Hx. intros [= <-].
  apply count_similarity_unit_interval in Hf as [??], Hc as [??].
  apply control_similarity_unit_interval in Hx as [??];
    [|apply control_structures_nonneg..].
  split; qc_lra.
Qed.

(** X13. Two texts without a closing brace hold no function and no class
    for the structure measure, so their structure score is at least 0.7
    and the level of the report is never Very Low, whatever the texts say
    and whatever the configuration. *)
Theorem brace_free_floor self code1 code2 :
  "}" ∉ code1 → "}" ∉ code2 →
  ∃ r, check_similarity md5 self code1 code2 = Report r
       ∧ (tenths 7 ≤ structure_similarity (report_details r))%Qc
       ∧ (tenths 2 ≤ overall_similarity (report_summary r))%Qc
       ∧ similarity_level (report_summary r) ≠ "Very Low"%string.
Proof.
  intros Hb1 Hb2.
  destruct (check_similarity_reports md5 self code1 code2) as (m & s & Hm & Hs & ->).
  apply moss_result_unit_interval in Hm as [Hm0 Hm1].
  pose proof (sequence_ratio_unit_interval
                (split_on newline (preprocess_cpp self code1))
                (split_on newline (preprocess_cpp self code2))) as [Hl0 Hl1].
  fold (calculate_line_similarity self code1 code2) in Hl0, Hl1.
  unfold calculate_structure_similarity in Hs.
  destruct (extract_structure_brace_free code1 Hb1) as [Hf1 Hc1].
  destruct (extract_structure_brace_free code2 Hb2) as [Hf2 Hc2].
  destruct (control_similarity_total (control_structures (extract_structure code1))
              (control_structures (extract_structure code2))) as [x Hx].
  rewrite Hf1, Hc1, Hf2, Hc2, count_similarity_empty, Hx in Hs.
  simpl in Hs. injection Hs as <-.
  apply control_similarity_unit_interval in Hx as [Hx0 Hx1];
    [|apply control_structures_nonneg..].
  eexists. split; [done|]. unfold report_of; simpl.
  revert Hl0 Hl1. generalize (calculate_line_similarity self code1 code2).
  intros l Hl0 Hl1.
  assert (tenths 2 ≤ tenths 5 * m
                     + tenths 3 * (tenths 4 * 1 + tenths 3 * 1 + tenths 3 * x)
                     + tenths 2 * l)%Qc as Hoverall by qc_lra.
  split; [qc_lra|]. split; [done|].
  unfold level_of. by repeat case_decide.
Qed.

(** X14. With "Ignore whitespace" ticked the line score is all or
    nothing: 1 when the two normalised texts are equal and 0 otherwise. *)
Theorem line_similarity_all_or_nothing self code1 code2 :
  ignore_whitespace self = true →
  calculate_line_similarity self code1 code2
  = if decide (preprocess_cpp self code1 = preprocess_cpp self code2)
    then 1%Qc else 0%Qc.
Proof.
  intros Hws. unfold calculate_line_similarity.
  rewrite !preprocess_one_line by done. apply sequence_ratio_singleton.
Qed.

(** X15. Under every configuration the line score lies between 0 and 1,
    and it is 1 when the two normalised texts are equal: the blocks the
    matcher finds do not overlap, and a sequence matched against itself is
    one block. *)
Theorem line_similarity_in_unit_interval self code1 code2 :
  (0 ≤ calculate_line_similarity self code1 code2)%Qc
  ∧ (calculate_line_similarity self code1 code2 ≤ 1)%Qc
  ∧ (preprocess_cpp self code1 = preprocess_cpp self code2 →
     calculate_line_similarity self code1 code2 = 1%Qc).
Proof.
  unfold calculate_line_similarity.
  destruct (sequence_ratio_unit_interval
              (split_on newline (preprocess_cpp self code1))
              (split_on newline (preprocess_cpp self code2))) as [H0 H1].
  split; [done|]. split; [done|]. intros ->. apply sequence_ratio_self.
Qed.

(** X16. Every score of the report lies between 0 and 1: the three
    measures and the overall score, for every pair of texts and every
    configuration. *)
Theorem report_scores_in_unit_interval self code1 code2 :
  ∃ r, check_similarity md5 self code1 code2 = Report r
       ∧ unit_interval (moss_similarity (report_details r))
       ∧ unit_interval (structure_similarity (report_details r))
       ∧ unit_interval (line_similarity (report_details r))
       ∧ unit_interval (overall_similarity (report_summary r)).
Proof.
  destruct (check_similarity_reports md5 self code1 code2) as (m & s & Hm & Hs & ->).
  apply moss_result_unit_interval in Hm.
  apply structure_result_unit_interval in Hs.
  pose proof (sequence_ratio_unit_interval
                (split_on newline (preprocess_cpp self code1))
                (split_on newline (preprocess_cpp self code2))) as Hl.
  fold (calculate_line_similarity self code1 code2) in Hl.
  eexists. split; [done|]. unfold report_of; simpl.
  split; [done|]. split; [done|]. split; [done|].
  revert Hl. generalize (calculate_line_similarity self code1 code2).
  intros l Hl. destruct Hm, Hs, Hl. split; qc_lra.
Qed.

(** X17. A text compared with itself, under every configuration: the
    structure score and the line score are 1; the fingerprint score is 1
    when the normalised text has at least five tokens, which makes the
    overall score 1 and the level Very High, and 0 otherwise, which makes
    the overall score 0.5 and the level Moderate. *)
Theorem identical_inputs_every_configuration self code :
  ∃ r, check_similarity md5 self code code = Report r
       ∧ structure_similarity (report_details r) = 1%Qc
       ∧ line_similarity (report_details r) = 1%Qc
       ∧ ((5 ≤ length (split (preprocess_cpp self code)))%nat →
          moss_similarity (report_details r) = 1%Qc
          ∧ report_summary r
            = {| similarity_level := "Very High"; overall_similarity := 1%Qc |})
       ∧ ((length (split (preprocess_cpp self code)) < 5)%nat →
          moss_similarity (report_details r) = 0%Qc
          ∧ report_summary r
            = {| similarity_level := "Moderate";
                 overall_similarity := tenths 5 |}).
Proof.
  destruct (check_similarity_reports md5 self code code) as (m & s & Hm & Hs & ->).
  rewrite structure_similarity_refl in Hs. injection Hs as <-.
  assert (calculate_line_similarity self code code = 1%Qc) as Hline.
  { unfold calculate_line_similarity. apply sequence_ratio_self. }
  eexists. split; [done|]. unfold report_of; simpl. rewrite Hline.
  split; [done|]. split; [done|]. split.
  - intros Hlen. rewrite moss_identical in Hm by (done || lia).
    injection Hm as <-. split; [done|].
    by rewrite tenths_sum_overall, level_of_one.
  - intros Hlen.
    destruct (winnow_total (get_kgram_hashes md5 (preprocess_cpp self code) 5) 10)
      as [l Hl]; [lia|].
    rewrite (moss_jaccard md5 _ _ _ _ _ l l) in Hm by done.
    rewrite get_kgram_hashes_short, winnow_nil in Hl by (done || lia).
    injection Hl as <-. injection Hm as <-.
    assert (jaccard ∅ ∅ = 0%Qc) as ->.
    { unfold jaccard. rewrite decide_True; [done|by left]. }
    split; [done|].
    assert ((tenths 5 * 0 + tenths 3 * 1 + tenths 2 * 1)%Qc = tenths 5) as ->
      by by apply Qc_is_canon.
    assert (level_of (tenths 5) = "Moderate"%string) as ->; [|done].
    apply level_of_spec; by vm_compute.
Qed.

(** X18. The segments the extractor returns, under every configuration
    and for every [min_length]: each is at least [min_length] lines long,
    starts at a line numbered from 1, lies within the normalised lines of
    both texts, and has a similarity between 0 and 1; and the list is in
    descending order of similarity. *)
Theorem segments_long_sorted_inside self code1 code2 min_length :
  let lines1 := split_on newline (preprocess_cpp self code1) in
  let lines2 := split_on newline (preprocess_cpp self code2) in
  let segments := identify_similar_segments self code1 code2 min_length in
  Forall (λ seg,
            (min_length ≤ length_ seg)%nat
            ∧ (1 ≤ file1_start_line seg)%nat ∧ (1 ≤ file2_start_line seg)%nat
            ∧ ((1 ≤ length_ seg)%nat →
               (file1_start_line seg + length_ seg ≤ S (length lines1))%nat
               ∧ (file2_start_line seg + length_ seg ≤ S (length lines2))%nat)
            ∧ unit_interval (similarity seg)) segments
  ∧ descending segments.
Proof.
  intros lines1 lines2 segments. split.
  - apply Forall_forall. intros seg Hseg.
    apply segment_block in Hseg as ([[i j] k] & Hin & Hlen & ->).
    destruct (matching_blocks_spec lines1 lines2) as (Hall & _).
    eapply Forall_forall in Hall; [|done]. simpl in *.
    split; [done|]. split; [lia|]. split; [lia|]. split.
    + intros Hk. destruct (block_matches_inside lines1 lines2 i j k Hall Hk). lia.
    + apply sequence_ratio_unit_interval.
  - apply StronglySorted_descending, sort_segments_sorted.
Qed.

(** X19. The report lists the first five segments of the extractor's
    list for [min_length = 3]: at most five, each at least three lines
    long, in descending order of similarity. *)
Theorem report_lists_at_most_five self code1 code2 :
  ∃ r, check_similarity md5 self code1 code2 = Report r
       ∧ suspicious_segments r
         = take 5 (identify_similar_segments self code1 code2 3)
       ∧ (length (suspicious_segments r) ≤ 5)%nat
       ∧ Forall (λ seg, (3 ≤ length_ seg)%nat) (suspicious_segments r)
       ∧ descending (suspicious_segments r).
Proof.
  destruct (check_similarity_reports md5 self code1 code2) as (m & s & _ & _ & ->).
  eexists. split; [done|]. unfold report_of; simpl. split; [done|].
  split; [rewrite length_take; lia|]. split.
  - apply Forall_take, Forall_forall. intros seg Hseg.
    by apply segment_block in Hseg as ([[i j] k] & _ & Hlen & ->).
  - apply descending_take, StronglySorted_descending, sort_segments_sorted.
Qed.

(** X20. With all three options unticked, every segment shows the same
    text on both sides, the lines of each file from the start line on, and
    its similarity is 1. *)
Theorem verbatim_segments_agree code1 code2 min_length :
  Forall (λ seg,
            file1_segment seg = file2_segment seg
            ∧ similarity seg = 1%Qc
            ∧ file1_segment seg
              = join [newline]
                  (slice (split_on newline code1) (file1_start_line seg - 1)
                     (length_ seg))
            ∧ file2_segment seg
              = join [newline]
                  (slice (split_on newline code2) (file2_start_line seg - 1)
                     (length_ seg)))
    (identify_similar_segments verbatim code1 code2 min_length).
Proof.
  apply Forall_forall. intros seg Hseg.
  apply segment_block in Hseg as ([[i j] k] & Hin & Hlen & ->).
  change (preprocess_cpp verbatim code1) with code1 in Hin.
  change (preprocess_cpp verbatim code2) with code2 in Hin.
  destruct (matching_blocks_spec (split_on newline code1) (split_on newline code2))
    as (Hall & _).
  eapply Forall_forall in Hall; [|done].
  pose proof (block_matches_slices _ _ i j k Hall) as Hslices.
  assert ((i + k) `min` length (split_on newline code1) - i = k
          ∧ (j + k) `min` length (split_on newline code2) - j = k)%nat
    as [Hi Hj].
  { destruct (decide (k = 0)%nat) as [->|Hk]; [lia|].
    destruct (block_matches_inside _ _ i j k Hall); lia. }
  unfold segment_of_block; simpl. rewrite Hslices.
  split; [done|]. split; [apply sequence_ratio_self|].
  rewrite <-Hslices at 1. rewrite Hi, Hj.
  by replace (i + 1 - 1)%nat with i by lia; replace (j + 1 - 1)%nat with j by lia.
Qed.

(** X21. With "Ignore whitespace" ticked, as in the default
    configuration, the report lists no suspicious segment, whatever the
    two texts are. *)
Theorem no_segment_reported_when_whitespace_ignored self code1 code2 :
  ignore_whitespace self = true →
  ∃ r, check_similarity md5 self code1 code2 = Report r
       ∧ suspicious_segments r = [].
Proof.
  intros Hws.
  destruct (check_similarity_reports md5 self code1 code2) as (m & s & _ & _ & ->).
  eexists. split; [done|]. unfold report_of; simpl.
  by rewrite no_segments_when_whitespace_ignored by (done || lia).
Qed.
(** X22. With "Ignore whitespace" ticked and "Ignore comments" unticked,
    the amount and kind of whitespace do not matter: writing any run of
    whitespace characters in place of another leaves the normalised text
    unchanged. *)
Theorem whitespace_amount_is_ignored (normalize : bool) before run1 run2 rest :
  let self := {| ignore_comments := false; ignore_whitespace := true;
                 normalize_identifiers := normalize |} in
  run1 ≠ [] → run2 ≠ [] →
  Forall (λ c, isspace c = true) run1 → Forall (λ c, isspace c = true) run2 →
  preprocess_cpp self (before ++ run1 ++ rest)
  = preprocess_cpp self (before ++ run2 ++ rest).
Proof.
  intros self Hne1 Hne2 H1 H2.
  unfold preprocess_cpp, cleaned, remove_whitespace; simpl.
  rewrite (whitespace_run_squeeze _ (before ++ run1 ++ rest) (Nat.le_refl _)),
    (whitespace_run_squeeze _ (before ++ run2 ++ rest) (Nat.le_refl _)).
  by rewrite (squeeze_app_run before run1 run2).
Qed.

(** X23. Every function name and every class name the structure measure
    records is a non-empty run of word characters. *)
Theorem recorded_names_are_words code :
  functions (extract_structure code)
  = list_to_set_disj (re_findall function_pattern 0 code)
  ∧ classes (extract_structure code)
    = list_to_set_disj (re_findall class_pattern 0 code)
  ∧ Forall word_run (re_findall function_pattern 0 code)
  ∧ Forall word_run (re_findall class_pattern 0 code).
Proof.
  split; [done|]. split; [done|]. split; apply re_findall_Forall.
  - apply function_pattern_name.
  - apply class_pattern_name.
Qed.
End Further.

(** ** Worked examples of the further properties *)

Lemma normalized_text_is_one_line_witness :
  ignore_whitespace init = true
  ∧ (newline ∉ preprocess_cpp init block_original)
  ∧ split_on newline (preprocess_cpp init block_original)
    = [preprocess_cpp init block_original].
Proof.
  split; [reflexivity|].
  apply (normalized_text_is_one_line init block_original). reflexivity.
Defined.

Lemma consistent_renaming_is_invisible_witness :
  lexemes 0 (cleaned init sample_function_renamed)
  = map (relabel sample_renaming) (lexemes 0 (cleaned init sample_function))
  ∧ preprocess_cpp init sample_function_renamed
    = preprocess_cpp init sample_function
  ∧ calculate_line_similarity init sample_function sample_function_renamed
    = 1%Qc
  ∧ calculate_moss_similarity sample_md5 init sample_function
      sample_function_renamed 5 10
    = inr (if decide (5 ≤ length (split (preprocess_cpp init sample_function)))%nat
           then 1%Qc else 0%Qc).
Proof.
  split; [vm_compute; reflexivity|].
  apply (consistent_renaming_is_invisible sample_md5 sample_renaming init
           sample_function sample_function_renamed).
  - reflexivity.
  - intros w Hin Hkw.
    let l := eval vm_compute in (lexemes 0 (cleaned init sample_function)) in
    change (lexemes 0 (cleaned init sample_function)) with l in Hin.
    repeat (apply elem_of_cons in Hin as [Heq|Hin];
            [try discriminate Heq; injection Heq as ->;
             first [discriminate Hkw | vm_compute; reflexivity]|]).
    by apply elem_of_nil in Hin.
  - intros w1 w2 Hin1 Hin2 Hkw1 Hkw2.
    let l := eval vm_compute in (lexemes 0 (cleaned init sample_function)) in
    change (lexemes 0 (cleaned init sample_function)) with l in Hin1, Hin2.
    repeat (apply elem_of_cons in Hin1 as [Heq1|Hin1];
            [try discriminate Heq1; injection Heq1 as ->;
             try discriminate Hkw1;
             repeat (apply elem_of_cons in Hin2 as [Heq2|Hin2];
                     [try discriminate Heq2; injection Heq2 as ->;
                      try discriminate Hkw2;
                      first [reflexivity | by vm_compute]|]);
             by apply elem_of_nil in Hin2|]).
    by apply elem_of_nil in Hin1.
  - vm_compute; reflexivity.
Defined.

Lemma unclosed_literal_swallows_rest_witness :
  isquote "034" = true
  ∧ ("034" ∉ py "abc; int x;")
  ∧ tokenize 0 ("034" :: py "abc; int x;") 0 ∅ = [py "STR"].
Proof.
  assert ("034" ∉ py "abc; int x;") as Hnot.
  { apply (bool_decide_unpack _). vm_compute. exact I. }
  split; [reflexivity|]. split; [exact Hnot|].
  exact (unclosed_literal_swallows_rest "034" (py "abc; int x;") 0 ∅ eq_refl Hnot).
Defined.

Lemma winnow_density_witness :
  (1 ≤ 3 ≤ length sample_hashes)%nat
  ∧ ∃ l, winnow sample_hashes 3 = inr l
      ∧ (∀ h, h ∈ l → h ∈ sample_hashes)
      ∧ (∀ n, (n + 3 ≤ length sample_hashes)%nat →
           ∃ m, m ∈ l ∧ m ∈ slice sample_hashes n 3
                ∧ ∀ x, x ∈ slice sample_hashes n 3 → (m ≤ x)%Z)
      ∧ no_repeat l.
Proof.
  split; [simpl; lia|]. apply (winnow_density sample_hashes 3). simpl; lia.
Defined.

Lemma moss_in_unit_interval_witness :
  (1 ≤ 10)%nat
  ∧ ∃ q, calculate_moss_similarity sample_md5 init block_original
           block_reordered 5 10 = inr q
         ∧ (0 ≤ q)%Qc ∧ (q ≤ 1)%Qc.
Proof.
  split; [lia|].
  apply (moss_in_unit_interval sample_md5 init block_original block_reordered 5 10).
  lia.
Defined.

Lemma moss_extremes_witness :
  (1 ≤ 10)%nat
  ∧ ∃ l1 l2 : list Z,
      winnow (get_kgram_hashes sample_md5 (preprocess_cpp init block_original) 5) 10
      = inr l1
      ∧ winnow (get_kgram_hashes sample_md5 (preprocess_cpp init block_reordered) 5) 10
        = inr l2
      ∧ (calculate_moss_similarity sample_md5 init block_original block_reordered 5 10
         = inr 1%Qc
         ↔ (list_to_set l1 : gset Z) = list_to_set l2 ∧ l1 ≠ [])
      ∧ (calculate_moss_similarity sample_md5 init block_original block_reordered 5 10
         = inr 0%Qc
         ↔ ∀ h, h ∈ l1 → h ∉ l2).
Proof.
  split; [lia|].
  apply (moss_extremes sample_md5 init block_original block_reordered 5 10). lia.
Defined.

Lemma zero_kgram_size_scores_one_witness :
  (1 ≤ 10)%nat
  ∧ calculate_moss_similarity sample_md5 init lines_tide sample_function 0 10
    = inr 1%Qc.
Proof.
  split; [lia|].
  apply (zero_kgram_size_scores_one sample_md5 init lines_tide sample_function 10).
  lia.
Defined.

Lemma brace_free_floor_witness :
  ("}" ∉ lines_tide) ∧ ("}" ∉ block_original)
  ∧ ∃ r, check_similarity sample_md5 init lines_tide block_original = Report r
      ∧ (tenths 7 ≤ structure_similarity (report_details r))%Qc
      ∧ (tenths 2 ≤ overall_similarity (report_summary r))%Qc
      ∧ similarity_level (report_summary r) ≠ "Very Low"%string.
Proof.
  assert ("}" ∉ lines_tide) as H1.
  { apply (bool_decide_unpack _). vm_compute. exact I. }
  assert ("}" ∉ block_original) as H2.
  { apply (bool_decide_unpack _). vm_compute. exact I. }
  split; [exact H1|]. split; [exact H2|].
  exact (brace_free_floor sample_md5 init lines_tide block_original H1 H2).
Defined.

Lemma line_similarity_all_or_nothing_witness :
  ignore_whitespace init = true
  ∧ calculate_line_similarity init block_original block_reordered
    = if decide (preprocess_cpp init block_original
                 = preprocess_cpp init block_reordered)
      then 1%Qc else 0%Qc.
Proof.
  split; [reflexivity|].
  apply (line_similarity_all_or_nothing init block_original block_reordered).
  reflexivity.
Defined.

Lemma no_segment_reported_when_whitespace_ignored_witness :
  ignore_whitespace init = true
  ∧ ∃ r, check_similarity sample_md5 init block_original block_original = Report r
      ∧ suspicious_segments r = [].
Proof.
  split; [reflexivity|].
  apply (no_segment_reported_when_whitespace_ignored sample_md5 init
           block_original block_original).
  reflexivity.
Defined.

Lemma whitespace_amount_is_ignored_witness :
  preprocess_cpp init (py "int" ++ py "  " ++ py "x;")
  = preprocess_cpp init (py "int" ++ [newline; " "] ++ py "x;")
  ∧ preprocess_cpp keep_identifiers (py "int" ++ py "  " ++ py "x;")
    = preprocess_cpp keep_identifiers (py "int" ++ [newline; " "] ++ py "x;").
Proof.
  split; [vm_compute; reflexivity|].
  apply (whitespace_amount_is_ignored false (py "int") (py "  ") [newline; " "]
           (py "x;")); try done; by repeat constructor.
Defined.
